(** * Consensus health checker: issue lifecycle and cross-document rules

    A shallow embedding of [consensus_health_checker.py] (the DocTor
    consensus health check) and the properties of its issue suppression,
    notification and rule-evaluation code.

    Python values are modelled as follows.
    - [dict] used as a string-keyed map: stdpp's [gmap string _];
      [dict] whose iteration order reaches the output (votes, destinations):
      association lists in iteration order.
    - [set]: duplicate-free lists ([remove_dups], [list_union], ...).
    - exceptions: the [Raise] result of the monad [M], which also collects
      the lines sent to the logger.
    - [datetime]: the record of its calendar fields; [timedelta]: a number
      of microseconds. *)

From Stdlib Require Import ZArith String Ascii List Lia.
From stdpp Require Import base option list gmap strings pretty.

Open Scope string_scope.
Open Scope list_scope.
Open Scope Z_scope.

(** ** Python primitives *)

Module Py.

(** Exceptions the embedded code can raise. *)
Inductive exn : Type :=
| KeyError (key : string)
| IndexError
| ValueError (what : string)
| AttributeError (attribute : string)
| TypeError (what : string).

Inductive res (A : Type) : Type :=
| Ok (a : A)
| Raise (e : exn).
Arguments Ok {A} a.
Arguments Raise {A} e.

(** Values passed as keyword arguments to [Issue(...)]. An exception
    object passed as [error = exc] is carried as the string [str(exc)]. *)
Inductive pyvalue : Type :=
| PyNone
| PyInt (z : Z)
| PyStr (s : string)
| PyList (l : list string).

(** [sep.join(l)] *)
Definition join (sep : string) (l : list string) : string :=
  String.concat sep l.

(** [repr] of a string without quotes, backslashes or control
    characters. *)
Definition py_repr (s : string) : string := "'" +:+ s +:+ "'".

(** [str(v)] *)
Definition py_str (v : pyvalue) : string :=
  match v with
  | PyNone => "None"
  | PyInt z => pretty z
  | PyStr s => s
  | PyList l => "[" +:+ join ", " (map py_repr l) +:+ "]"
  end.

(** Iterating a value with [for x in v]: a list gives its items, a
    string its characters. *)
Fixpoint chars (s : string) : list string :=
  match s with
  | EmptyString => []
  | String c rest => String c EmptyString :: chars rest
  end.

Definition py_iter (v : pyvalue) : res (list string) :=
  match v with
  | PyList l => Ok l
  | PyStr s => Ok (chars s)
  | PyNone => Raise (TypeError "'NoneType' object is not iterable")
  | PyInt _ => Raise (TypeError "'int' object is not iterable")
  end.

(** [s.replace(' ', '_')] *)
Fixpoint replace_space (s : string) : string :=
  match s with
  | EmptyString => EmptyString
  | String c rest =>
      String (if Ascii.eqb c " "%char then "_"%char else c) (replace_space rest)
  end.

(** *** [int(s)] on a string *)

Definition is_space (c : ascii) : bool :=
  let n := nat_of_ascii c in
  (Nat.eqb n 32 || (Nat.leb 9 n && Nat.leb n 13))%bool.

Fixpoint lstrip (s : string) : string :=
  match s with
  | String c rest => if is_space c then lstrip rest else s
  | EmptyString => EmptyString
  end.

Fixpoint rstrip (s : string) : string :=
  match s with
  | EmptyString => EmptyString
  | String c rest =>
      match rstrip rest with
      | EmptyString => if is_space c then EmptyString else String c EmptyString
      | rest' => String c rest'
      end
  end.

Definition digit_of (c : ascii) : option Z :=
  let n := nat_of_ascii c in
  if (Nat.leb 48 n && Nat.leb n 57)%bool then Some (Z.of_nat n - 48) else None.

Fixpoint digits (acc : Z) (s : string) : option Z :=
  match s with
  | EmptyString => Some acc
  | String c rest =>
      match digit_of c with
      | Some d => digits (10 * acc + d) rest
      | None => None
      end
  end.

Definition unsigned (s : string) : option Z :=
  match s with
  | EmptyString => None
  | _ => digits 0 s
  end.

(** A base-10 literal: optional surrounding whitespace, an optional
    sign, then one or more decimal digits. [None] is [ValueError]. *)
Definition py_int (s : string) : option Z :=
  match rstrip (lstrip s) with
  | String "-" rest => Z.opp <$> unsigned rest
  | String "+" rest => unsigned rest
  | body => unsigned body
  end.

(** *** [str.format] with keyword arguments

    Replacement fields are plain keyword names ([{authority}]); [{{]
    and [}}] are the escaped braces. A field without a name or with a
    number as its name is positional, and there are no positional
    arguments. *)

Inductive fmt_mode : Type :=
| InText
| InField (name : string).

Definition is_positional (name : string) : bool :=
  match digits 0 name with
  | Some _ => true
  | None => false
  end.

Definition field_value (attr : gmap string pyvalue) (name : string) : res pyvalue :=
  if is_positional name then Raise IndexError
  else match attr !! name with
       | Some v => Ok v
       | None => Raise (KeyError name)
       end.

Definition prepend (prefix : string) (r : res string) : res string :=
  match r with
  | Ok s => Ok (prefix +:+ s)
  | Raise e => Raise e
  end.

Fixpoint format_go (attr : gmap string pyvalue) (mode : fmt_mode) (s : string)
  : res string :=
  match mode with
  | InText =>
      match s with
      | EmptyString => Ok EmptyString
      | String "{" (String "{" rest) => prepend "{" (format_go attr InText rest)
      | String "{" rest => format_go attr (InField EmptyString) rest
      | String "}" (String "}" rest) => prepend "}" (format_go attr InText rest)
      | String "}" _ => Raise (ValueError "Single '}' encountered in format string")
      | String c rest => prepend (String c EmptyString) (format_go attr InText rest)
      end
  | InField name =>
      match s with
      | EmptyString => Raise (ValueError "unmatched '{' in format")
      | String "}" rest =>
          match field_value attr name with
          | Ok v => prepend (py_str v) (format_go attr InText rest)
          | Raise e => Raise e
          end
      | String "{" _ => Raise (ValueError "unexpected '{' in field name")
      | String c rest => format_go attr (InField (name +:+ String c EmptyString)) rest
      end
  end.

Definition py_format (fmt : string) (attr : gmap string pyvalue) : res string :=
  format_go attr InText fmt.

(** [d.update({k1: v1, ...})] *)
Definition dict_update {V} (d : gmap string V) (items : list (string * V)) : gmap string V :=
  foldl (fun acc kv => <[kv.1 := kv.2]> acc) d items.

End Py.
Export Py.

(** ** Issues *)

Inductive Runlevel : Type := NOTICE | WARNING | ERROR.

#[global] Instance Runlevel_eq_dec : EqDecision Runlevel.
Proof. solve_decision. Defined.

Definition Runlevel_str (r : Runlevel) : string :=
  match r with
  | NOTICE => "NOTICE"
  | WARNING => "WARNING"
  | ERROR => "ERROR"
  end.

Record Issue : Type := {
  _runlevel : Runlevel;
  _template : string;
  _attr : gmap string pyvalue;
  _authorities : pyvalue;
}.

(** [Issue(runlevel, template, **attr)] *)
Definition new_Issue (runlevel : Runlevel) (template : string)
    (attr : list (string * pyvalue)) : Issue :=
  let attr := dict_update ∅ attr in
  {| _runlevel := runlevel;
     _template := template;
     _attr := attr;
     _authorities := default (PyList []) (attr !! "to") |}.

(** ** Logging and exceptions *)

(** A line sent to the logger, recorded by the event it reports and its
    arguments rather than by its text. *)
Inductive log_event : Type :=
| LogFormatFailed (template : string) (attr : gmap string pyvalue)
| LogMissingMsg (template : string)
| LogNonNumericSuppression (template value : string)
| LogSuppressing (key : string) (hours_remaining : Z)
| LogIssue (issue : Issue)
| LogBadExitSkipped (fingerprint : string)
| LogSendingNotification (labels : string)
| LogAllSuppressed (count : nat)
| LogNoIssues.

(** A computation that logs and then returns a value or raises. *)
Record M (A : Type) : Type := mkM { logged : list log_event; outcome : res A }.
Arguments mkM {A} logged outcome.
Arguments logged {A} m.
Arguments outcome {A} m.

#[global] Instance M_ret : MRet M := λ A a, mkM [] (Ok a).

#[global] Instance M_bind : MBind M := λ A B k m,
  match outcome m with
  | Ok a => mkM (logged m ++ logged (k a)) (outcome (k a))
  | Raise e => mkM (logged m) (Raise e)
  end.

Definition raise {A} (e : exn) : M A := mkM [] (Raise e).

Definition log (ev : log_event) : M unit := mkM [ev] (Ok tt).

Definition lift {A} (r : res A) : M A := mkM [] r.

(** [d[key]] on a dict *)
Definition getitem {V} (d : gmap string V) (key : string) : M V :=
  match d !! key with
  | Some v => mret v
  | None => raise (KeyError key)
  end.

(** A loop [for x in l: acc = body(acc, x)] whose body may log or raise. *)
Fixpoint for_each {A S} (l : list A) (acc : S) (body : S → A → M S) : M S :=
  match l with
  | [] => mret acc
  | x :: rest => acc' ← body acc x; for_each rest acc' body
  end.

(** A [dict] whose iteration order matters: the items in the order of
    their first insertion. *)
Fixpoint dict_set {K V} `{EqDecision K} (key : K) (v : V) (d : list (K * V))
  : list (K * V) :=
  match d with
  | [] => [(key, v)]
  | (k, w) :: rest =>
      if decide (k = key) then (k, v) :: rest else (k, w) :: dict_set key v rest
  end.

Fixpoint dict_get {K V} `{EqDecision K} (key : K) (d : list (K * V)) : option V :=
  match d with
  | [] => None
  | (k, w) :: rest => if decide (k = key) then Some w else dict_get key rest
  end.

(** ** Suppression of issues *)

(** The [consensus_health] configuration ([CONFIG] in the source). *)
Record Config : Type := {
  msg : gmap string string;
  suppression : gmap string string;
  known_params : list string;
  contact_address : gmap string string;
  contact_via_bcc : list string;
}.

Record Destination : Type := { address : string; bcc : bool }.

Section issue.
Variable CONFIG : Config.

Definition get_message (self : Issue) : M string :=
  match msg CONFIG !! _template self with
  | Some fmt =>
      match py_format fmt (_attr self) with
      | Ok text => mret text
      | Raise _ =>
          log (LogFormatFailed (_template self) (_attr self));; mret ""
      end
  | None => log (LogMissingMsg (_template self));; mret ""
  end.

Definition get_runlevel (self : Issue) : Runlevel := _runlevel self.

Definition get_destinations (self : Issue) : M (list (string * option Destination)) :=
  authorities ← lift (py_iter (_authorities self));
  mret (foldl
    (fun destinations authority =>
       match contact_address CONFIG !! authority with
       | Some address =>
           let is_via_bcc := bool_decide (authority ∈ contact_via_bcc CONFIG) in
           dict_set authority (Some {| address := address; bcc := is_via_bcc |}) destinations
       | None => dict_set authority None destinations
       end)
    [] authorities).

(** The branches of [get_suppression_key] that blank volatile
    attributes share this tail. *)
Definition format_key (self : Issue) (blanked : list (string * pyvalue)) : M string :=
  let attr := dict_update (_attr self) blanked in
  fmt ← getitem (msg CONFIG) (_template self);
  text ← lift (py_format fmt attr);
  mret (replace_space text).

Definition get_suppression_key (self : Issue) : M string :=
  if decide (_template self = "TOO_MANY_UNMEASURED_RELAYS") then
    format_key self [("unmeasured", PyInt 0); ("total", PyInt 0); ("percentage", PyInt 0)]
  else if decide (_template self = "BANDWIDTH_AUTHORITIES_OUT_OF_SYNC") then
    format_key self [("authorities", PyStr "")]
  else if decide (_template self = "LATENCY") then
    format_key self [("authority", PyStr ""); ("time_taken", PyStr "");
                     ("median_time", PyStr ""); ("authority_times", PyStr "")]
  else if decide (_template self = "CLOCK_SKEW") then
    format_key self [("authority", PyStr ""); ("difference", PyStr "")]
  else if decide (_template self = "FLAG_COUNT_DIFFERS") then
    format_key self [("consensus_count", PyInt 0); ("vote_count", PyInt 0)]
  else
    text ← get_message self;
    mret (replace_space text).

Definition get_suppression_duration (self : Issue) : M Z :=
  configured ←
    match suppression CONFIG !! _template self with
    | Some suppression_duration =>
        match py_int suppression_duration with
        | Some hours => mret (Some hours)
        | None =>
            log (LogNonNumericSuppression (_template self) suppression_duration);;
            mret None
        end
    | None => mret None
    end;
  match configured with
  | Some hours => mret hours
  | None =>
      (* Default to suppression based on the severity of the issue. *)
      match get_runlevel self with
      | NOTICE => mret 24
      | WARNING => mret 4
      | ERROR => mret 0
      end
  end.

(** [str(issue)] *)
Definition Issue_str (self : Issue) : M string :=
  text ← get_message self;
  mret (Runlevel_str (get_runlevel self) +:+ ": " +:+ text).

(** The [last_notified] store maps a suppression key to the Unix time
    of the last notice; the configuration layer keeps the decimal text
    of that integer and reads it back with an integer default of 0.
    [current_time] is [int(time.time())]. *)
Definition is_rate_limited (last_notified : gmap string Z) (current_time : Z)
    (issue : Issue) : M bool :=
  key ← get_suppression_key issue;
  hours ← get_suppression_duration issue;
  if decide (hours = 0) then mret false
  else
    let last_seen := default 0 (last_notified !! key) in
    let suppression_time := 3600 * hours in
    let suppression_time := suppression_time + 1800 in
    let suppression_time_remaining := suppression_time - (current_time - last_seen) in
    if decide (suppression_time_remaining ≤ 0)%Z then mret false
    else
      log (LogSuppressing key (suppression_time_remaining / 3600 + 1));;
      mret true.

Definition rate_limit_notice (last_notified : gmap string Z) (current_time : Z)
    (issue : Issue) : M (gmap string Z) :=
  key ← get_suppression_key issue;
  hours ← get_suppression_duration issue;
  if decide (hours = 0) then mret last_notified
  else mret (<[key := current_time]> last_notified).

End issue.

(** The parameters that [get_suppression_key] overwrites before it
    formats the key of an issue of the given template: the volatile
    parameters of that template. *)
Definition volatile_parameters (template : string) : list string :=
  if decide (template = "TOO_MANY_UNMEASURED_RELAYS") then
    ["unmeasured"; "total"; "percentage"]
  else if decide (template = "BANDWIDTH_AUTHORITIES_OUT_OF_SYNC") then
    ["authorities"]
  else if decide (template = "LATENCY") then
    ["authority"; "time_taken"; "median_time"; "authority_times"]
  else if decide (template = "CLOCK_SKEW") then
    ["authority"; "difference"]
  else if decide (template = "FLAG_COUNT_DIFFERS") then
    ["consensus_count"; "vote_count"]
  else [].

(** ** The notification step of [main] *)

(** One call of [util.send]: the subject and the keyword arguments it
    is given, [None] standing for an argument that is not passed. *)
Record Mail : Type := {
  mail_subject : string;
  mail_body : string;
  mail_to : option (list string);
  mail_cc : option (list string);
  mail_bcc : option (list string);
}.

Definition EMAIL_SUBJECT : string := "Consensus issues".

Definition newline : string := String (ascii_of_nat 10) EmptyString.

(** [[f(x) for x in l]] where [f] may log or raise *)
Fixpoint map_M {A B} (f : A → M B) (l : list A) : M (list B) :=
  match l with
  | [] => mret []
  | x :: rest => y ← f x; ys ← map_M f rest; mret (y :: ys)
  end.

Section main.
Variable CONFIG : Config.

(** The first loop of [main]: stops at the first issue that is not rate
    limited. *)
Fixpoint all_suppressed (last_notified : gmap string Z) (current_time : Z)
    (issues : list Issue) : M bool :=
  match issues with
  | [] => mret true
  | issue :: rest =>
      limited ← is_rate_limited CONFIG last_notified current_time issue;
      if limited : bool then all_suppressed last_notified current_time rest
      else mret false
  end.

Definition destinations_update (destinations new : list (string * option Destination))
  : list (string * option Destination) :=
  foldl (fun acc kv => dict_set kv.1 kv.2 acc) destinations new.

Definition destination_label (entry : string * option Destination) : string :=
  match entry with
  | (authority, None) => authority +:+ " has no contact information"
  | (authority, Some destination) =>
      if bcc destination
      then authority +:+ " at " +:+ address destination +:+ " via bcc"
      else authority +:+ " at " +:+ address destination
  end.

Definition direct_addresses (destinations : list (string * option Destination))
  : list string :=
  omap (fun entry =>
          match entry.2 with
          | Some d => if bcc d then None else Some (address d)
          | None => None
          end) destinations.

Definition blind_addresses (destinations : list (string * option Destination))
  : list string :=
  omap (fun entry =>
          match entry.2 with
          | Some d => if bcc d then Some (address d) else None
          | None => None
          end) destinations.

(** Lines 262 to 302 of [main]: from the issues of the cycle to the
    updated [last_notified] store and the mails handed to [util.send].
    The clock is read as [current_time] throughout the step. The
    methods of [Issue] are memoised in the source, so a log line of
    theirs is emitted once per issue; this model evaluates them anew
    and may repeat it in [logged]. *)
Definition main_notify (last_notified : gmap string Z) (current_time : Z)
    (issues : list Issue) : M (gmap string Z * list Mail) :=
  is_all_suppressed ← all_suppressed last_notified current_time issues;
  if is_all_suppressed : bool then
    (if decide (issues = []) then log LogNoIssues
     else log (LogAllSuppressed (length issues)));;
    mret (last_notified, [])
  else
    state ← for_each issues (last_notified, [])
      (fun state issue =>
         store ← rate_limit_notice CONFIG state.1 current_time issue;
         new ← get_destinations CONFIG issue;
         mret (store, destinations_update state.2 new));
    let destinations := state.2 in
    let destination_labels := map destination_label destinations in
    log (LogSendingNotification (join ", " destination_labels));;
    texts ← map_M (Issue_str CONFIG) issues;
    let body := join newline texts in
    let cc := direct_addresses destinations in
    let bcc := blind_addresses destinations in
    let first := {| mail_subject := EMAIL_SUBJECT; mail_body := body;
                    mail_to := None; mail_cc := Some cc; mail_bcc := Some bcc |} in
    let body := join newline (map (fun text => "[consensus-health] " +:+ text) texts) in
    let second := {| mail_subject := "Announce or"; mail_body := body;
                     mail_to := Some ["tor-misc@commit.noreply.org"];
                     mail_cc := None; mail_bcc := None |} in
    mret (state.1, [first; second]).

End main.

(** The message of an issue, [issue.get_message()]. *)
Definition rendered_message (CONFIG : Config) (issue : Issue) : string :=
  match outcome (get_message CONFIG issue) with
  | Ok text => text
  | Raise _ => ""
  end.

(** The text of an issue in the body of a notification, [str(issue)]
    (a rendering never raises: [get_message] catches what does). *)
Definition rendered (CONFIG : Config) (issue : Issue) : string :=
  match outcome (Issue_str CONFIG issue) with
  | Ok text => text
  | Raise _ => ""
  end.

(** An issue survives suppression when the check answers that it is not
    rate limited. *)
Definition survives (CONFIG : Config) (last_notified : gmap string Z)
    (current_time : Z) (issue : Issue) : bool :=
  match outcome (is_rate_limited CONFIG last_notified current_time issue) with
  | Ok false => true
  | _ => false
  end.

(** ** Documents *)

(** [datetime.datetime], by its calendar fields *)
Record datetime : Type := {
  year : Z; month : Z; day : Z;
  hour : Z; minute : Z; second : Z; microsecond : Z;
}.

Definition is_leap (y : Z) : bool :=
  ((y mod 4 =? 0) && (negb (y mod 100 =? 0) || (y mod 400 =? 0)))%bool.

Definition days_before_year (y : Z) : Z :=
  let y := y - 1 in y * 365 + y / 4 - y / 100 + y / 400.

Definition days_before_month (y m : Z) : Z :=
  nth (Z.to_nat m) [0; 0; 31; 59; 90; 120; 151; 181; 212; 243; 273; 304; 334] 0
  + (if ((2 <? m) && is_leap y)%bool then 1 else 0).

Definition toordinal (d : datetime) : Z :=
  days_before_year (year d) + days_before_month (year d) (month d) + day d.

(** A [timedelta], in microseconds. *)
Definition timedelta_days (n : Z) : Z := n * 86400 * 1000000.

(** [a - b] on two datetimes *)
Definition datetime_sub (a b : datetime) : Z :=
  ((toordinal a - toordinal b) * 86400
   + (hour a * 3600 + minute a * 60 + second a)
   - (hour b * 3600 + minute b * 60 + second b)) * 1000000
  + (microsecond a - microsecond b).

Definition zero_pad (width : nat) (z : Z) : string :=
  let digits := pretty z in
  String.concat "" (replicate (width - String.length digits) "0") +:+ digits.

(** [d.strftime('%Y-%m-%d %H-%M-%S')] *)
Definition strftime (d : datetime) : string :=
  zero_pad 4 (year d) +:+ "-" +:+ zero_pad 2 (month d) +:+ "-" +:+ zero_pad 2 (day d)
  +:+ " " +:+ zero_pad 2 (hour d) +:+ "-" +:+ zero_pad 2 (minute d) +:+ "-"
  +:+ zero_pad 2 (second d).

(** An entry of the directory authority registry
    ([stem.directory.Authority]). *)
Module Authority.
Record t : Type := {
  nickname : string;
  address : string;
  dir_port : Z;
  fingerprint : string;
  v3ident : option string;
}.
End Authority.

(** A relay as one document lists it ([RouterStatusEntryV3]). *)
Record RouterStatusEntry : Type := {
  fingerprint : string;
  nickname : string;
  flags : list string;
}.

Record SharedRandomnessCommitment : Type := {
  identity : string;
  commit : string;
  reveal : option string;
}.

Record KeyCertificate : Type := { expires : datetime }.

Record DirectoryAuthority : Type := {
  key_certificate : option KeyCertificate;
  shared_randomness_commitments : list SharedRandomnessCommitment;
}.

(** A vote or a consensus ([NetworkStatusDocumentV3]). [routers] is the
    dict of the document's relays keyed by their fingerprint, given by
    its values in iteration order. *)
Record Document : Type := {
  valid_after : datetime;
  routers : list RouterStatusEntry;
  directory_authorities : list DirectoryAuthority;
}.

(** [fingerprint in document.routers] *)
Definition in_routers (fp : string) (document : Document) : bool :=
  bool_decide (fp ∈ map fingerprint (routers document)).

(** [document.routers[fingerprint]] *)
Definition routers_getitem (fp : string) (document : Document) : M RouterStatusEntry :=
  match List.find (fun desc => bool_decide (fingerprint desc = fp)) (routers document) with
  | Some desc => mret desc
  | None => raise (KeyError fp)
  end.

Definition BADEXIT : string := "BadExit".

(** What a rule reads besides the documents: the authority registry (a
    dict from nickname to entry, in iteration order) and the clock. *)
Record Env : Type := {
  DIRECTORY_AUTHORITIES : list (string * Authority.t);
  datetime_now : datetime;
  datetime_utcnow : datetime;
}.

(** The value a rule returns: [None], one [Issue] or a list of them. *)
Inductive checker_result : Type :=
| ReturnsNone
| ReturnsIssue (issue : Issue)
| ReturnsList (issues : list Issue).

Definition checker : Type :=
  Env → option Document → list (string * Document) → list (string * Document)
  → M checker_result.

(** [l[0]] *)
Definition first_item {A} (l : list A) : M A :=
  match l with
  | x :: _ => mret x
  | [] => raise IndexError
  end.

(** Reading attribute [name] of a value that may be [None]. *)
Definition attribute_of {A} (name : string) (o : option A) : M A :=
  match o with
  | Some x => mret x
  | None => raise (AttributeError name)
  end.

(** [d[key]] on a dict kept in iteration order *)
Definition dict_getitem {V} (key : string) (d : list (string * V)) : M V :=
  match dict_get key d with
  | Some v => mret v
  | None => raise (KeyError key)
  end.

Definition py_opt (o : option string) : pyvalue :=
  match o with
  | Some s => PyStr s
  | None => PyNone
  end.

(** ** The rule engine *)

(** Every rule has the signature [checker]: it is called as
    [rule(latest_consensus, consensuses, votes)] and reads the registry
    and the clock from its environment. *)

(** The body of the loop of [certificate_expiration] (lines 511 to
    521), for the vote of one authority. *)
Definition certificate_issue (current_time : datetime) (issues : list Issue)
    (authority : string) (vote : Document) : M (list Issue) :=
  (* votes should only have a single authority entry (the one that issued this vote) *)
  issuer ← first_item (directory_authorities vote);
  certificate ← attribute_of "expires" (key_certificate issuer);
  let cert_expiration := expires certificate in
  let expiration_label := authority +:+ " (" +:+ strftime cert_expiration +:+ ")" in
  if decide (datetime_sub cert_expiration current_time ≤ timedelta_days 7)%Z then
    mret (issues ++ [new_Issue WARNING "CERTIFICATE_ABOUT_TO_EXPIRE"
      [("duration", PyStr "week"); ("authority", PyStr expiration_label);
       ("to", PyList [authority])]])
  else if decide (datetime_sub cert_expiration current_time ≤ timedelta_days 14)%Z then
    mret (issues ++ [new_Issue WARNING "CERTIFICATE_ABOUT_TO_EXPIRE"
      [("duration", PyStr "two weeks"); ("authority", PyStr expiration_label);
       ("to", PyList [authority])]])
  else if decide (datetime_sub cert_expiration current_time ≤ timedelta_days 21)%Z then
    mret (issues ++ [new_Issue NOTICE "CERTIFICATE_ABOUT_TO_EXPIRE"
      [("duration", PyStr "three weeks"); ("authority", PyStr expiration_label);
       ("to", PyList [authority])]])
  else mret issues.

Definition certificate_expiration : checker :=
  fun env latest_consensus consensuses votes =>
  let current_time := datetime_now env in
  issues ← for_each votes []
    (fun issues entry => certificate_issue current_time issues entry.1 entry.2);
  mret (ReturnsList issues).

(** [set.intersection] and [set.union] applied to one or more sets *)
Definition set_intersection (sets : list (list string)) : list string :=
  match sets with
  | [] => []
  | first :: rest => foldl list_intersection first rest
  end.

Definition set_union (sets : list (list string)) : list string :=
  match sets with
  | [] => []
  | first :: rest => foldl list_union first rest
  end.

(** The dict [bad_exits] that [bad_exits_in_sync] builds first: the
    authorities voting the flag, each with the set of fingerprints it
    flags. *)
Definition bad_exit_votes (votes : list (string * Document))
  : list (string * list string) :=
  foldl (fun bad_exits entry =>
           let '(authority, vote) := entry in
           let flagged :=
             map fingerprint
                 (filter (fun desc => BADEXIT ∈ flags desc) (routers vote)) in
           match flagged with
           | [] => bad_exits
           | _ => dict_set authority (remove_dups flagged) bad_exits
           end)
        [] votes.

(** The loop over the voting authorities that do not flag the relay
    [fp] (lines 748 to 757): those that list the relay without the flag,
    and those that do not list it. *)
Definition bad_exit_sides (votes : list (string * Document)) (fp : string)
    (authorities : list string) : M (list string * list string) :=
  for_each authorities ([], [])
    (fun split authority =>
       let '(without_flag, not_in_vote) := split in
       vote ← dict_getitem authority votes;
       if in_routers fp vote
       then mret (without_flag ++ [authority], not_in_vote)
       else mret (without_flag, not_in_vote ++ [authority])).

(** The body of the loop over the relays the authorities disagree on
    (lines 746 to 782). *)
Definition bad_exit_issue (latest_consensus : option Document)
    (votes : list (string * Document)) (bad_exits : list (string * list string))
    (voting_authorities : list string) (issues : list Issue) (fp : string)
  : M (list Issue) :=
  let with_flag :=
    remove_dups (map fst (filter (fun entry => fp ∈ entry.2) bad_exits)) in
  split ← bad_exit_sides votes fp (list_difference voting_authorities with_flag);
  let '(without_flag, not_in_vote) := split in
  match without_flag with
  | [] => mret issues (* skip notice if the only disagreement is due to not having a vote *)
  | _ =>
    (* If this relay's missing from a consensus then don't bother. *)
    latest ← attribute_of "routers" latest_consensus;
    if negb (in_routers fp latest) then
      log (LogBadExitSkipped fp);; mret issues
    else
      let attr :=
        ["with flag: " +:+ join ", " with_flag]
        ++ match without_flag with
           | [] => []
           | _ => ["without flag: " +:+ join ", " without_flag]
           end
        ++ match not_in_vote with
           | [] => []
           | _ => ["not in vote: " +:+ join ", " not_in_vote]
           end in
      (* Notify whoever doesn't match the consensus, and as such are in the minority. *)
      entry ← routers_getitem fp latest;
      let has_flag_in_consensus := bool_decide (BADEXIT ∈ flags entry) in
      let notice_for := if has_flag_in_consensus then without_flag else with_flag in
      mret (issues ++ [new_Issue NOTICE "BADEXIT_OUT_OF_SYNC"
        [("fingerprint", PyStr fp); ("counts", PyStr (join ", " attr));
         ("to", PyList notice_for)]])
  end.

Definition bad_exits_in_sync : checker :=
  fun env latest_consensus consensuses votes =>
  let bad_exits := bad_exit_votes votes in
  match bad_exits with
  | [] => mret ReturnsNone
  | _ =>
    let voting_authorities := remove_dups (map fst bad_exits) in
    let agreed_bad_exits := set_intersection (map snd bad_exits) in
    let disagreed_bad_exits :=
      list_difference (set_union (map snd bad_exits)) agreed_bad_exits in
    issues ← for_each disagreed_bad_exits []
      (bad_exit_issue latest_consensus votes bad_exits voting_authorities);
    mret (ReturnsList issues)
  end.

(** [DIRECTORY_AUTHORITIES[authority].v3ident] *)
Definition v3ident_of (env : Env) (authority : string) : M (option string) :=
  entry ← dict_getitem authority (DIRECTORY_AUTHORITIES env);
  mret (Authority.v3ident entry).

(** [vote.directory_authorities[0].shared_randomness_commitments] *)
Definition commitments_of (vote : Document) : M (list SharedRandomnessCommitment) :=
  issuer ← first_item (directory_authorities vote);
  mret (shared_randomness_commitments issuer).

(** The list [issues] that [shared_random_commit_partitioning] has
    built when its last statement has run. *)
Definition shared_random_commit_issues (env : Env) (votes : list (string * Document))
  : M (list Issue) :=
  let issues := [] in
  self_commitments ← for_each votes [] (fun self_commitments entry =>
    let '(authority, vote) := entry in
    our_v3ident ← v3ident_of env authority;
    commitments ← commitments_of vote;
    our_commitment ← first_item
      (map commit
           (filter (fun c => Some (identity c) = our_v3ident) commitments));
    mret (dict_set our_v3ident our_commitment self_commitments));
  for_each votes issues (fun issues entry =>
    let '(authority, vote) := entry in
    commitments ← commitments_of vote;
    for_each commitments issues (fun issues commitment =>
      match dict_get (Some (identity commitment)) self_commitments with
      | None =>
          (* we didn't get a vote for this authority so we don't know its self-reported commitment *)
          mret issues
      | Some their_value =>
          if decide (commit commitment ≠ their_value) then
            mret (issues ++ [new_Issue WARNING "SHARED_RANDOM_COMMITMENT_MISMATCH"
              [("authority", PyStr authority);
               ("their_v3ident", PyStr (identity commitment));
               ("our_value", PyStr (commit commitment));
               ("their_value", PyStr their_value);
               ("to", PyList [authority])]])
          else mret issues
      end)).

(** The body of the function ends after the second loop: there is no
    [return] statement, so the caller receives [None]. *)
Definition shared_random_commit_partitioning : checker :=
  fun env latest_consensus consensuses votes =>
  let utc_hour := hour (datetime_utcnow env) in
  if decide (utc_hour < 8 ∨ 12 ≤ utc_hour) then mret ReturnsNone
  else
    shared_random_commit_issues env votes;;
    mret ReturnsNone.

(** The list [issues] that [shared_random_reveal_partitioning] has
    built when its last statement has run. *)
Definition shared_random_reveal_issues (env : Env) (votes : list (string * Document))
  : M (list Issue) :=
  state ← for_each votes ([], []) (fun state entry =>
    let '(issues, self_reveals) := state in
    let '(authority, vote) := entry in
    our_v3ident ← v3ident_of env authority;
    commitments ← commitments_of vote;
    let our_reveals :=
      map reveal (filter (fun c => Some (identity c) = our_v3ident) commitments) in
    if decide (our_reveals = []) then
      mret (issues ++ [new_Issue WARNING "SHARED_RANDOM_NO_REVEAL"
              [("authority", PyStr authority); ("to", PyList [authority])]],
            self_reveals)
    else if decide (1 < length our_reveals)%nat then
      mret (issues ++ [new_Issue WARNING "SHARED_RANDOM_MULTIPLE_REVEAL"
              [("authority", PyStr authority);
               ("count", PyInt (Z.of_nat (length our_reveals)));
               ("to", PyList [authority])]],
            self_reveals)
    else
      our_reveal ← first_item our_reveals;
      mret (issues, dict_set our_v3ident our_reveal self_reveals));
  let '(issues, self_reveals) := state in
  for_each votes issues (fun issues entry =>
    let '(authority, vote) := entry in
    commitments ← commitments_of vote;
    for_each self_reveals issues (fun issues known =>
      let '(v3ident, their_reveal) := known in
      let matches :=
        map reveal (filter (fun c => Some (identity c) = v3ident) commitments) in
      if decide (length matches = 0%nat) then
        mret (issues ++ [new_Issue WARNING "SHARED_RANDOM_REVEAL_MISSING"
          [("authority", PyStr authority); ("their_v3ident", py_opt v3ident);
           ("their_value", py_opt their_reveal); ("to", PyList [authority])]])
      else if decide (0 < length matches)%nat then
        mret (issues ++ [new_Issue WARNING "SHARED_RANDOM_REVEAL_DUPLICATED"
          [("authority", PyStr authority); ("their_v3ident", py_opt v3ident);
           ("to", PyList [authority])]])
      else
        first ← first_item matches;
        if decide (first ≠ their_reveal) then
          mret (issues ++ [new_Issue WARNING "SHARED_RANDOM_REVEAL_MISMATCH"
            [("authority", PyStr authority); ("their_v3ident", py_opt v3ident);
             ("our_value", py_opt first); ("their_value", py_opt their_reveal);
             ("to", PyList [authority])]])
        else mret issues)).

(** As above, the function ends without a [return] statement. *)
Definition shared_random_reveal_partitioning : checker :=
  fun env latest_consensus consensuses votes =>
  let utc_hour := hour (datetime_utcnow env) in
  if decide (utc_hour < 20) then mret ReturnsNone
  else
    shared_random_reveal_issues env votes;;
    mret ReturnsNone.

(** [datetime] comparison [a > b] *)
Definition datetime_gt (a b : datetime) : bool := bool_decide (0 < datetime_sub a b).

(** The consensus with the largest [valid_after], the first one among
    equals. *)
Definition latest_of (consensuses : list (string * Document)) : option Document :=
  fst (foldl (fun latest consensus =>
                match latest.2 with
                | None => (Some consensus, Some (valid_after consensus))
                | Some latest_valid_after =>
                    if datetime_gt (valid_after consensus) latest_valid_after
                    then (Some consensus, Some (valid_after consensus))
                    else latest
                end)
             (None, None) (map snd consensuses)).

(** [run_checks], over the tuple [checker_functions] of rules it
    evaluates. *)
Definition run_checks (checker_functions : list checker) (env : Env)
    (consensuses votes : list (string * Document)) : M (list Issue) :=
  let latest_consensus := latest_of consensuses in
  for_each checker_functions [] (fun all_issues check =>
    issues ← check env latest_consensus consensuses votes;
    let issues :=
      match issues with
      | ReturnsNone => []
      | ReturnsIssue issue => [issue]
      | ReturnsList issues => issues
      end in
    for_each issues all_issues (fun all_issues issue =>
      log (LogIssue issue);;
      mret (all_issues ++ [issue]))).

(** The rules of [checker_functions] embedded in this development, in
    the order of the source. *)
Definition checker_functions : list checker :=
  [certificate_expiration; bad_exits_in_sync;
   shared_random_commit_partitioning; shared_random_reveal_partitioning].

(** ** Fetching the documents *)

(** What one [downloader.query(...)] of [_get_documents] leads to:
    running it raises; or it yields a document that is stored before the
    date header of the reply fails to parse; or the [try] block
    completes. *)
Inductive query_reply : Type :=
| QueryFailed (download_url error : string)
| BadDateHeader (document : Document) (download_url error : string)
| Fetched (document : Document).

Definition authority_unavailable (label : string) (authority : Authority.t)
    (download_url error : string) : Issue :=
  new_Issue ERROR "AUTHORITY_UNAVAILABLE"
    [("fetch_type", PyStr label); ("authority", PyStr (Authority.nickname authority));
     ("url", PyStr download_url); ("error", PyStr error);
     ("to", PyList [Authority.nickname authority])].

(** The fetch loop of [_get_documents] (lines 958 to 976): the documents
    retrieved and the issues of the fetches that failed. The LATENCY and
    CLOCK_SKEW notices that the function adds for the consensus fetch
    compare and print floating-point durations; they are not part of
    this model. *)
Definition _get_documents (registry : list (string * Authority.t))
    (query : Authority.t → query_reply) (label : string)
  : list (string * Document) * list Issue :=
  foldl (fun state authority =>
           let '(documents, issues) := state in
           match Authority.v3ident authority with
           | None => (documents, issues) (* not a voting authority *)
           | Some _ =>
               match query authority with
               | Fetched document =>
                   (dict_set (Authority.nickname authority) document documents, issues)
               | BadDateHeader document download_url error =>
                   (dict_set (Authority.nickname authority) document documents,
                    issues ++ [authority_unavailable label authority download_url error])
               | QueryFailed download_url error =>
                   (documents,
                    issues ++ [authority_unavailable label authority download_url error])
               end
           end)
        ([], []) (map snd registry).

(** ** Vocabulary of the statements *)

#[global] Instance pyvalue_eq_dec : EqDecision pyvalue.
Proof. solve_decision. Defined.

(** An issue is well formed when its suppression key can be derived and
    the authorities it concerns can be iterated. *)
Definition well_formed (CONFIG : Config) (issue : Issue) : Prop :=
  (∃ key, outcome (get_suppression_key CONFIG issue) = Ok key)
  ∧ (∃ authorities, py_iter (_authorities issue) = Ok authorities).

(** An issue concerns an authority alone when its [to] list is that
    authority. *)
Definition concerns (authority : string) (issue : Issue) : Prop :=
  _authorities issue = PyList [authority].

#[global] Instance concerns_dec authority issue : Decision (concerns authority issue).
Proof. unfold concerns. apply _. Defined.

(** The certificate of the authority that issued a vote. *)
Definition own_certificate (vote : Document) : option KeyCertificate :=
  match directory_authorities vote with
  | issuer :: _ => key_certificate issuer
  | [] => None
  end.

(** The issue of a certificate that is about to expire. *)
Definition about_to_expire (runlevel : Runlevel) (duration authority : string)
    (certificate : KeyCertificate) : Issue :=
  new_Issue runlevel "CERTIFICATE_ABOUT_TO_EXPIRE"
    [("duration", PyStr duration);
     ("authority", PyStr (authority +:+ " (" +:+ strftime (expires certificate) +:+ ")"));
     ("to", PyList [authority])].

(** The tier of the issues [found] for a certificate: the narrowest
    window that holds the time left decides, and beyond three weeks
    there is no issue. *)
Definition expiry_tier (env : Env) (authority : string) (certificate : KeyCertificate)
    (found : list Issue) : Prop :=
  let remaining := datetime_sub (expires certificate) (datetime_now env) in
  (remaining ≤ timedelta_days 7 →
     found = [about_to_expire WARNING "week" authority certificate])
  ∧ (timedelta_days 7 < remaining ≤ timedelta_days 14 →
     found = [about_to_expire WARNING "two weeks" authority certificate])
  ∧ (timedelta_days 14 < remaining ≤ timedelta_days 21 →
     found = [about_to_expire NOTICE "three weeks" authority certificate])
  ∧ (timedelta_days 21 < remaining → found = []).

(** A vote flags a relay as a bad exit; it votes the flag when it flags
    some relay; it lists a relay when the relay is among its routers. *)
Definition flags_bad_exit (vote : Document) (fp : string) : Prop :=
  ∃ desc, desc ∈ routers vote ∧ fingerprint desc = fp ∧ BADEXIT ∈ flags desc.

Definition votes_bad_exit (vote : Document) : Prop :=
  ∃ fp, flags_bad_exit vote fp.

Definition lists_relay (document : Document) (fp : string) : Prop :=
  fp ∈ map fingerprint (routers document).

(** The consensus has the flag on its entry for the relay. *)
Definition consensus_flags (latest : Document) (fp : string) : Prop :=
  ∃ entry, outcome (routers_getitem fp latest) = Ok entry ∧ BADEXIT ∈ flags entry.

(** An authority is on the unflagged side of a relay when it votes the
    flag, lists the relay and does not flag it. *)
Definition unflagged_side (votes : list (string * Document)) (fp authority : string) : Prop :=
  ∃ vote, (authority, vote) ∈ votes
          ∧ votes_bad_exit vote ∧ lists_relay vote fp ∧ ¬ flags_bad_exit vote fp.

Definition flagged_side (votes : list (string * Document)) (fp authority : string) : Prop :=
  ∃ vote, (authority, vote) ∈ votes ∧ flags_bad_exit vote fp.

(** The entry of one vote in the dict [bad_exits]. *)
Definition bad_exit_entry (entry : string * Document) : option (string * list string) :=
  match map fingerprint (filter (fun desc => BADEXIT ∈ flags desc) (routers entry.2)) with
  | [] => None
  | flagged => Some (entry.1, remove_dups flagged)
  end.

(** What the loop of [bad_exits_in_sync] adds for the relay [fp]: an
    issue only if a voting authority lists the relay without the flag
    and the consensus has the relay, and then one issue that goes to the
    side the consensus does not take. *)
Definition bad_exit_report (latest : Document) (votes : list (string * Document))
    (fp : string) (added : list Issue) : Prop :=
  (∀ issue, issue ∈ added →
     _attr issue !! "fingerprint" = Some (PyStr fp)
     ∧ (∃ b, unflagged_side votes fp b) ∧ lists_relay latest fp)
  ∧ ((∃ b, unflagged_side votes fp b) → lists_relay latest fp →
     ∃ issue targets,
       added = [issue]
       ∧ _runlevel issue = NOTICE ∧ _template issue = "BADEXIT_OUT_OF_SYNC"
       ∧ _authorities issue = PyList targets
       ∧ (¬ consensus_flags latest fp → ∀ a, a ∈ targets ↔ flagged_side votes fp a)
       ∧ (consensus_flags latest fp → ∀ a, a ∈ targets ↔ unflagged_side votes fp a)).

(** ** Sample data

    Concrete configurations, issues and documents at which the
    properties below are evaluated. *)

Module Sample.

Definition config : Config := {|
  msg :=
    <["TOO_MANY_UNMEASURED_RELAYS" :=
        "As a bandwidth authority {authority} lacked a measurement for {unmeasured} of {total} relays ({percentage}%)"]>
    (<["AUTHORITY_UNAVAILABLE" :=
        "Unable to retrieve the {fetch_type} from {authority} ({url}): {error}"]>
    (<["MISSING_VOTES" :=
        "The consensuses published by the following authorities are missing votes: {authorities}"]>
    (<["CERTIFICATE_ABOUT_TO_EXPIRE" :=
        "The certificate of the following authority expires within the next {duration}: {authority}"]> ∅)));
  suppression := <["CERTIFICATE_ABOUT_TO_EXPIRE" := "daily"]> ∅;
  known_params := [];
  contact_address := <["moria1" := "moria1@example.org"]> (<["dizum" := "dizum@example.org"]> ∅);
  contact_via_bcc := ["dizum"];
|}.

(** The issue [unmeasured_relays] builds for an authority. *)
Definition unmeasured (authority : string) (unmeasured total percentage : Z) : Issue :=
  new_Issue NOTICE "TOO_MANY_UNMEASURED_RELAYS"
    [("authority", PyStr authority); ("unmeasured", PyInt unmeasured);
     ("total", PyInt total); ("percentage", PyInt percentage);
     ("to", PyList [authority])].

(** The issue [consensuses_have_same_votes] builds. *)
Definition missing_votes (authorities : list string) : Issue :=
  new_Issue NOTICE "MISSING_VOTES"
    [("authorities", PyStr (join ", " authorities)); ("to", PyList authorities)].

Definition missing_votes_key : string :=
  "The_consensuses_published_by_the_following_authorities_are_missing_votes:_moria1".

(** An issue [certificate_expiration] builds. *)
Definition expiring : Issue :=
  new_Issue NOTICE "CERTIFICATE_ABOUT_TO_EXPIRE"
    [("duration", PyStr "three weeks"); ("authority", PyStr "moria1 (2019-06-20 12-00-00)");
     ("to", PyList ["moria1"])].

Definition expiring_key : string :=
  "The_certificate_of_the_following_authority_expires_within_the_next_three_weeks:_moria1_(2019-06-20_12-00-00)".

Definition moria1 : Authority.t := {|
  Authority.nickname := "moria1";
  Authority.address := "128.31.0.39";
  Authority.dir_port := 9131;
  Authority.fingerprint := "9695DFC35FFEB861329B9F1AB04C46397020CE31";
  Authority.v3ident := Some "D586D18309DED4CD6D57C18FDB97EFA96D330566";
|}.

Definition unavailable : Issue :=
  authority_unavailable "consensus" moria1
    "http://128.31.0.39:9131/tor/status-vote/current/consensus.z" "timed out".

Definition registry : list (string * Authority.t) := [("moria1", moria1)].

Definition query (authority : Authority.t) : query_reply :=
  QueryFailed "http://128.31.0.39:9131/tor/status-vote/current/consensus.z" "timed out".

(** A cycle on the first of June 2019 at 9 h UTC, with a NOTICE that was
    notified 1000 seconds before and a fetch failure. *)
Definition current_time : Z := 1559379600.
Definition last_notified : gmap string Z := <[missing_votes_key := current_time - 1000]> ∅.
Definition cycle_issues : list Issue := [missing_votes ["moria1"]; unavailable].

(** Documents of three authorities. *)

Definition at_hour (y m d h : Z) : datetime :=
  {| year := y; month := m; day := d; hour := h; minute := 0; second := 0;
     microsecond := 0 |}.

Definition dizum : Authority.t := {|
  Authority.nickname := "dizum";
  Authority.address := "45.66.33.45";
  Authority.dir_port := 80;
  Authority.fingerprint := "7EA6EAD6FD83083C538F44038BBFA077587DD755";
  Authority.v3ident := Some "E8A9C45EDE6D711294FADF8E7951F4DE6CA56B58";
|}.

Definition gabelmoo : Authority.t := {|
  Authority.nickname := "gabelmoo";
  Authority.address := "131.188.40.189";
  Authority.dir_port := 80;
  Authority.fingerprint := "F2044413DAC2E02E3D6BCF4735A19BCA1DE97281";
  Authority.v3ident := Some "ED03BB616EB2F60BEC80151114BB25CEF515B226";
|}.

Definition authorities : list (string * Authority.t) :=
  [("moria1", moria1); ("dizum", dizum); ("gabelmoo", gabelmoo)].

(** The first of June 2019 at the given hour, local time and UTC alike. *)
Definition env_at (h : Z) : Env := {|
  DIRECTORY_AUTHORITIES := authorities;
  datetime_now := at_hour 2019 6 1 h;
  datetime_utcnow := at_hour 2019 6 1 h;
|}.

Definition relay (fp : string) (relay_flags : list string) : RouterStatusEntry :=
  {| fingerprint := fp; nickname := "relay"; flags := relay_flags |}.

Definition X : string := "A7569A83B5706AB1B1A9CB52EFF7D2D32E4553EB".
Definition Y : string := "0E300A0942899B995AE08CEF58062BCFEB51EEDF".

Definition commitment (v3 value : string) (revealed : option string)
  : SharedRandomnessCommitment :=
  {| identity := v3; commit := value; reveal := revealed |}.

Definition moria1_v3 : string := "D586D18309DED4CD6D57C18FDB97EFA96D330566".
Definition dizum_v3 : string := "E8A9C45EDE6D711294FADF8E7951F4DE6CA56B58".

Definition vote (relays : list RouterStatusEntry) (certificate_expires : datetime)
    (commitments : list SharedRandomnessCommitment) : Document := {|
  valid_after := at_hour 2019 6 1 9;
  routers := relays;
  directory_authorities :=
    [{| key_certificate := Some {| expires := certificate_expires |};
        shared_randomness_commitments := commitments |}];
|}.

Definition consensus : Document := {|
  valid_after := at_hour 2019 6 1 9;
  routers := [relay X ["Exit"; "Running"]];
  directory_authorities := [];
|}.

Definition consensuses : list (string * Document) := [("moria1", consensus)].

(** moria1 flags X as a bad exit; dizum and gabelmoo list X without the
    flag and flag no relay at all. The certificates expire in 5, 10 and
    20 days. *)
Definition moria1_vote : Document :=
  vote [relay X ["BadExit"; "Exit"]] (at_hour 2019 6 6 9) [].
Definition dizum_vote : Document := vote [relay X ["Exit"]] (at_hour 2019 6 11 9) [].
Definition gabelmoo_vote : Document := vote [relay X ["Exit"]] (at_hour 2019 6 21 9) [].

Definition votes_unvoted : list (string * Document) :=
  [("moria1", moria1_vote); ("dizum", dizum_vote); ("gabelmoo", gabelmoo_vote)].

(** The same, but gabelmoo votes the flag: it flags the relay Y. *)
Definition gabelmoo_voting : Document :=
  vote [relay X ["Exit"]; relay Y ["BadExit"]] (at_hour 2019 6 21 9) [].

Definition votes_voted : list (string * Document) :=
  [("moria1", moria1_vote); ("dizum", dizum_vote); ("gabelmoo", gabelmoo_voting)].

(** The votes above with the vote of dizum first and without its
    authority entry. *)
Definition votes_broken : list (string * Document) :=
  [("dizum", {| valid_after := at_hour 2019 6 1 9; routers := [relay X ["Exit"]];
                directory_authorities := [] |});
   ("moria1", moria1_vote); ("gabelmoo", gabelmoo_voting)].

(** The votes of the first list and one whose certificate expires in 30
    days. *)
Definition votes_expiring : list (string * Document) :=
  votes_unvoted ++ [("longclaw", vote [] (at_hour 2019 7 1 9) [])].

(** The vote of dizum reports a commitment of moria1 that differs from
    the one moria1 reports for itself. *)
Definition votes_commit : list (string * Document) :=
  [("moria1", vote [] (at_hour 2019 7 6 9)
      [commitment moria1_v3 "commit-moria1" None; commitment dizum_v3 "commit-dizum" None]);
   ("dizum", vote [] (at_hour 2019 7 11 9)
      [commitment moria1_v3 "another-commit" None; commitment dizum_v3 "commit-dizum" None])].

(** moria1 reveals once and dizum echoes that reveal once, with the same
    value; dizum has no reveal of its own. *)
Definition votes_reveal : list (string * Document) :=
  [("moria1", vote [] (at_hour 2019 7 6 9)
      [commitment moria1_v3 "commit-moria1" (Some "reveal-moria1")]);
   ("dizum", vote [] (at_hour 2019 7 11 9)
      [commitment moria1_v3 "commit-moria1" (Some "reveal-moria1")])].

(** moria1 and dizum reveal once each; the vote of dizum echoes the
    reveal of moria1 once, with another value, and the vote of moria1
    does not echo the reveal of dizum. *)
Definition votes_reveal_differs : list (string * Document) :=
  [("moria1", vote [] (at_hour 2019 7 6 9)
      [commitment moria1_v3 "commit-moria1" (Some "reveal-moria1")]);
   ("dizum", vote [] (at_hour 2019 7 11 9)
      [commitment moria1_v3 "commit-moria1" (Some "another-reveal");
       commitment dizum_v3 "commit-dizum" (Some "reveal-dizum")])].



End Sample.

(** * Further code of the checker *)

(** ** Further rules of the rule engine *)

Definition timedelta_hours (n : Z) : Z := n * 3600 * 1000000.

Definition missing_latest_consensus : checker :=
  fun env latest_consensus consensuses votes =>
  let current_time := datetime_now env in
  let stale_authorities :=
    foldl (fun stale_authorities entry =>
             let '(authority, consensus) := entry in
             if decide (timedelta_hours 1
                        < datetime_sub current_time (valid_after consensus))
             then stale_authorities ++ [authority]
             else stale_authorities)
          [] consensuses in
  match stale_authorities with
  | [] => mret ReturnsNone
  | _ =>
    let runlevel := if decide (3 < length stale_authorities)%nat then ERROR else WARNING in
    mret (ReturnsIssue (new_Issue runlevel "MISSING_LATEST_CONSENSUS"
      [("authorities", PyStr (join ", " stale_authorities));
       ("to", PyList stale_authorities)]))
  end.

(** The issue of [missing_authority_descriptor]; its [to] is the
    nickname itself, not a list. *)
Definition missing_authority_desc (authority : string) (peer : Authority.t) : Issue :=
  new_Issue WARNING "MISSING_AUTHORITY_DESC"
    [("authority", PyStr authority); ("peer", PyStr (Authority.nickname peer));
     ("to", PyStr authority)].

Definition missing_authority_descriptor : checker :=
  fun env latest_consensus consensuses votes =>
  let issues :=
    foldl (fun issues entry =>
             let '(authority, vote) := entry in
             foldl (fun issues peer =>
                      if in_routers (Authority.fingerprint peer) vote then issues
                      else issues ++ [missing_authority_desc authority peer])
                   issues (map snd (DIRECTORY_AUTHORITIES env)))
          [] votes in
  mret (ReturnsList issues).

(** [s.add(x)] and [s.remove(x)] on a set *)
Definition py_set_add (x : string) (s : list string) : list string :=
  if decide (x ∈ s) then s else s ++ [x].

Definition py_set_remove (x : string) (s : list string) : list string :=
  filter (fun y => y ≠ x) s.

Definition AUTHORITY : string := "Authority".

Definition has_authority_flag : checker :=
  fun env latest_consensus consensuses votes =>
  latest ← attribute_of "routers" latest_consensus;
  let seen_authorities :=
    foldl (fun seen_authorities desc =>
             if decide (AUTHORITY ∈ flags desc)
             then py_set_add (nickname desc) seen_authorities
             else seen_authorities)
          [] (routers latest) in
  let seen_authorities :=
    if decide ("tor26" ∈ seen_authorities)
    then py_set_remove "tor26" seen_authorities
    else seen_authorities in
  let known_authorities := remove_dups (map fst (DIRECTORY_AUTHORITIES env)) in
  let missing_authorities := list_difference known_authorities seen_authorities in
  let extra_authorities := list_difference seen_authorities known_authorities in
  let issues := [] in
  let issues :=
    match missing_authorities with
    | [] => issues
    | _ => issues ++ [new_Issue WARNING "MISSING_AUTHORITIES"
             [("authorities", PyStr (join ", " missing_authorities));
              ("to", PyList missing_authorities)]]
    end in
  let issues :=
    match extra_authorities with
    | [] => issues
    | _ => issues ++ [new_Issue NOTICE "EXTRA_AUTHORITIES"
             [("authorities", PyStr (join ", " extra_authorities));
              ("to", PyList extra_authorities)]]
    end in
  mret (ReturnsList issues).

(** The dict from flag to count that [has_similar_flag_counts] builds
    for the relays of a document
    ([flag_count[flag] = flag_count.setdefault(flag, 0) + 1]). *)
Definition count_flags (entries : list RouterStatusEntry) : list (string * Z) :=
  foldl (fun flag_count desc =>
           foldl (fun flag_count flag =>
                    dict_set flag (default 0 (dict_get flag flag_count) + 1) flag_count)
                 flag_count (flags desc))
        [] entries.

(** The comparisons [vote_count > count * 1.5] and
    [vote_count < count * 0.5] are written on the doubled integers; the
    products are exact in floating point for counts below 2^52. *)
Definition has_similar_flag_counts : checker :=
  fun env latest_consensus consensuses votes =>
  latest ← attribute_of "routers" latest_consensus;
  let flag_count := count_flags (routers latest) in
  let issues :=
    foldl (fun issues entry =>
             let '(authority, vote) := entry in
             let authority_flag_count := count_flags (routers vote) in
             foldl (fun issues item =>
                      let '(flag, count) := item in
                      if decide (flag ∈ ["BadExit"; "Running"; "HSDir"; "StaleDesc"])
                      then issues
                      else
                        let vote_count := default 0 (dict_get flag authority_flag_count) in
                        if decide (3 * count < 2 * vote_count ∨ 2 * vote_count < count)
                        then issues ++ [new_Issue NOTICE "FLAG_COUNT_DIFFERS"
                               [("authority", PyStr authority); ("flag", PyStr flag);
                                ("consensus_count", PyInt count);
                                ("vote_count", PyInt vote_count);
                                ("to", PyList [authority])]]
                        else issues)
                   issues flag_count)
          [] votes in
  mret (ReturnsList issues).

(** A signature of a consensus ([DocumentSignature]). *)
Module DocumentSignature.
Record t : Type := { identity : string }.
End DocumentSignature.

(** [if authority.v3ident]: neither [None] nor the empty string *)
Definition voting_identity (authority : Authority.t) : option string :=
  match Authority.v3ident authority with
  | Some (String c rest) => Some (String c rest)
  | _ => None
  end.

(** Lines 561 to 566 of [has_all_signatures]: the nickname of the first
    authority of the registry with the given identity, and the identity
    itself when there is none. *)
Definition signer_name (registry : list (string * Authority.t))
    (missing_signature : string) : string :=
  match List.find (fun authority =>
                     bool_decide (Authority.v3ident authority = Some missing_signature))
                  (map snd registry) with
  | Some authority => Authority.nickname authority
  | None => missing_signature
  end.

(** [has_all_signatures] reads one attribute of each consensus, its
    [signatures]: the consensuses are given by these. *)
Definition has_all_signatures (env : Env)
    (consensuses : list (string * list DocumentSignature.t)) : M checker_result :=
  let voting_authorities :=
    remove_dups (omap voting_identity (map snd (DIRECTORY_AUTHORITIES env))) in
  let issues :=
    foldl (fun issues entry =>
             let '(consensus_of, signatures) := entry in
             let signing_authorities :=
               remove_dups (map DocumentSignature.identity signatures) in
             let missing_authorities :=
               foldl (fun missing_authorities missing_signature =>
                        py_set_add (signer_name (DIRECTORY_AUTHORITIES env) missing_signature)
                                   missing_authorities)
                     [] (list_difference voting_authorities signing_authorities) in
             match missing_authorities with
             | [] => issues
             | _ => issues ++ [new_Issue NOTICE "MISSING_SIGNATURE"
                      [("consensus_of", PyStr consensus_of);
                       ("authorities", PyStr (join ", " missing_authorities));
                       ("to", PyList missing_authorities)]]
             end)
          [] consensuses in
  mret (ReturnsList issues).

(** ** Vocabulary of the further statements *)

(** The destination of an authority in the contact configuration:
    [None] when no address is configured for it. *)
Definition contact_of (CONFIG : Config) (authority : string) : option Destination :=
  match contact_address CONFIG !! authority with
  | Some address =>
      Some {| address := address; bcc := bool_decide (authority ∈ contact_via_bcc CONFIG) |}
  | None => None
  end.

(** An authority is concerned by a list of issues when it is among the
    authorities one of them iterates. *)
Definition concerned_by (issues : list Issue) (authority : string) : Prop :=
  ∃ issue authorities,
    issue ∈ issues ∧ py_iter (_authorities issue) = Ok authorities
    ∧ authority ∈ authorities.

(** The issues that a value returned by a rule stands for. *)
Definition returned_issues (result : checker_result) : list Issue :=
  match result with
  | ReturnsNone => []
  | ReturnsIssue issue => [issue]
  | ReturnsList issues => issues
  end.

(** A consensus is stale when it became valid more than an hour before
    the rule runs. *)
Definition stale (env : Env) (consensus : Document) : Prop :=
  timedelta_hours 1 < datetime_sub (datetime_now env) (valid_after consensus).

#[global] Instance stale_dec env consensus : Decision (stale env consensus).
Proof. unfold stale. apply _. Defined.

(** An authority that [has_authority_flag] takes as seen: a relay of
    the consensus carries the Authority flag under its nickname, and the
    nickname is not tor26. *)
Definition flagged_authority (latest : Document) (authority : string) : Prop :=
  authority ≠ "tor26"
  ∧ ∃ desc, desc ∈ routers latest ∧ AUTHORITY ∈ flags desc ∧ nickname desc = authority.

(** How often a flag occurs on the relays of a document. *)
Definition occurrences (flag : string) (entries : list RouterStatusEntry) : Z :=
  Z.of_nat (length (filter (fun f => f = flag) (flat_map flags entries))).

(** A voting identity of the registry that is not among the signatures
    of a consensus. *)
Definition unsigned_identity (registry : list (string * Authority.t))
    (signatures : list DocumentSignature.t) (identity : string) : Prop :=
  (∃ authority, authority ∈ registry.*2 ∧ voting_identity authority = Some identity)
  ∧ identity ∉ map DocumentSignature.identity signatures.

(** The commitments of a vote that carry the identity of the authority
    that issued it, as the shared-random rules select them: there are
    none to select from when the registry lacks the authority or the
    vote has no authority entry. *)
Definition own_commitments (env : Env) (entry : string * Document)
  : option (list SharedRandomnessCommitment) :=
  match dict_get entry.1 (DIRECTORY_AUTHORITIES env), directory_authorities entry.2 with
  | Some registered, issuer :: _ =>
      Some (filter (fun c => Some (identity c) = Authority.v3ident registered)
                   (shared_randomness_commitments issuer))
  | _, _ => None
  end.

(** What the shared-random rules raise on a vote they cannot read. *)
Definition unreadable_vote (env : Env) (entry : string * Document) : exn :=
  match dict_get entry.1 (DIRECTORY_AUTHORITIES env) with
  | None => KeyError entry.1
  | Some _ => IndexError
  end.

(** The document that a reply leaves in the dict of [_get_documents]: a
    reply whose date header fails to parse has stored its document
    before the failure. *)
Definition fetched_document (reply : query_reply) : option Document :=
  match reply with
  | Fetched document => Some document
  | BadDateHeader document _ _ => Some document
  | QueryFailed _ _ => None
  end.

(** The issue that the fetch from an authority adds, if any. *)
Definition fetch_failure (label : string) (query : Authority.t → query_reply)
    (authority : Authority.t) : option Issue :=
  match Authority.v3ident authority with
  | None => None
  | Some _ =>
      match query authority with
      | Fetched _ => None
      | BadDateHeader _ download_url error =>
          Some (authority_unavailable label authority download_url error)
      | QueryFailed download_url error =>
          Some (authority_unavailable label authority download_url error)
      end
  end.

#[global] Instance lists_relay_dec document fp : Decision (lists_relay document fp).
Proof. unfold lists_relay. apply _. Defined.

(** * Properties *)

(** ** The logging monad *)

Lemma outcome_bind {A B} (m : M A) (k : A → M B) :
  outcome (m ≫= k) =
  match outcome m with
  | Ok a => outcome (k a)
  | Raise e => Raise e
  end.
Proof. unfold mbind, M_bind. destruct (outcome m); reflexivity. Qed.

Lemma logged_bind {A B} (m : M A) (k : A → M B) :
  logged (m ≫= k) =
  match outcome m with
  | Ok a => logged m ++ logged (k a)
  | Raise e => logged m
  end.
Proof. unfold mbind, M_bind. destruct (outcome m); reflexivity. Qed.

(** ** Suppression keys *)

Lemma dict_update_lookup_agree (a b : gmap string pyvalue)
    (blanked : list (string * pyvalue)) :
  (∀ k, k ∉ blanked.*1 → a !! k = b !! k) →
  dict_update a blanked = dict_update b blanked.
Proof.
  revert a b. induction blanked as [|[k v] blanked IH]; intros a b Hagree.
  - apply map_eq. intros k. apply Hagree. simpl. apply not_elem_of_nil.
  - simpl. apply IH. intros k' Hk'. simpl.
    destruct (decide (k = k')) as [->|Hne].
    + by rewrite !lookup_insert_eq.
    + rewrite !lookup_insert_ne by done. apply Hagree.
      simpl. intros Hin. apply elem_of_cons in Hin as [->|Hin]; done.
Qed.

Lemma format_key_agree CONFIG (a b : Issue) (blanked : list (string * pyvalue)) :
  _template a = _template b →
  (∀ k, k ∉ blanked.*1 → _attr a !! k = _attr b !! k) →
  format_key CONFIG a blanked = format_key CONFIG b blanked.
Proof.
  intros Ht Hagree. unfold format_key.
  by rewrite Ht, (dict_update_lookup_agree _ _ _ Hagree).
Qed.

Lemma get_message_agree CONFIG (a b : Issue) :
  _template a = _template b → _attr a = _attr b →
  get_message CONFIG a = get_message CONFIG b.
Proof. intros Ht Ha. unfold get_message. by rewrite Ht, Ha. Qed.

(** C7. The suppression key of an issue depends on its template and on
    its stable parameters only: two issues of one template whose
    parameters agree outside the volatile parameters of that template
    (for TOO_MANY_UNMEASURED_RELAYS: outside unmeasured, total and
    percentage) have the same key, whatever their severity, and deriving
    the key again from a fresh issue with the same stable parameters
    gives the same result. *)
Theorem suppression_key_stable CONFIG (a b : Issue) :
  _template a = _template b →
  (∀ k, k ∉ volatile_parameters (_template a) → _attr a !! k = _attr b !! k) →
  get_suppression_key CONFIG a = get_suppression_key CONFIG b.
Proof.
  intros Ht Hagree. unfold get_suppression_key, volatile_parameters in *.
  rewrite <- Ht.
  repeat case_decide; try (by apply format_key_agree).
  rewrite (get_message_agree CONFIG a b Ht); [done|].
  apply map_eq. intros k. apply Hagree, not_elem_of_nil.
Qed.

Lemma suppression_key_stable_witness :
  _template (Sample.unmeasured "moria1" 5 100 5)
    = _template (Sample.unmeasured "moria1" 40 200 20)
  ∧ (∀ k, k ∉ volatile_parameters (_template (Sample.unmeasured "moria1" 5 100 5)) →
          _attr (Sample.unmeasured "moria1" 5 100 5) !! k
          = _attr (Sample.unmeasured "moria1" 40 200 20) !! k)
  ∧ get_suppression_key Sample.config (Sample.unmeasured "moria1" 5 100 5)
    = get_suppression_key Sample.config (Sample.unmeasured "moria1" 40 200 20).
Proof.
  assert (Hagree : ∀ k,
    k ∉ volatile_parameters (_template (Sample.unmeasured "moria1" 5 100 5)) →
    _attr (Sample.unmeasured "moria1" 5 100 5) !! k
    = _attr (Sample.unmeasured "moria1" 40 200 20) !! k).
  { intros k Hk. vm_compute in Hk. simpl.
    rewrite !lookup_insert.
    repeat case_decide; subst; try reflexivity;
      exfalso; apply Hk; repeat constructor. }
  split; [reflexivity|]. split; [exact Hagree|].
  exact (suppression_key_stable Sample.config
           (Sample.unmeasured "moria1" 5 100 5) (Sample.unmeasured "moria1" 40 200 20)
           eq_refl Hagree).
Defined.

(** ** Suppression durations and the rate limit *)

Lemma get_suppression_duration_total CONFIG (self : Issue) :
  ∃ hours, outcome (get_suppression_duration CONFIG self) = Ok hours.
Proof.
  unfold get_suppression_duration.
  destruct (suppression CONFIG !! _template self) as [d|]; simpl.
  - destruct (py_int d); simpl; [eauto|]. destruct (get_runlevel self); eauto.
  - destruct (get_runlevel self); eauto.
Qed.

(** The answer of [is_rate_limited] once the key and the duration of
    the issue are known. *)
Lemma is_rate_limited_outcome CONFIG store now (issue : Issue) key hours :
  outcome (get_suppression_key CONFIG issue) = Ok key →
  outcome (get_suppression_duration CONFIG issue) = Ok hours →
  outcome (is_rate_limited CONFIG store now issue) =
  Ok (bool_decide (hours ≠ 0 ∧ now - default 0 (store !! key) < 3600 * hours + 1800)).
Proof.
  intros Hkey Hhours. unfold is_rate_limited.
  rewrite outcome_bind, Hkey, outcome_bind, Hhours.
  destruct (decide (hours = 0)) as [->|Hne].
  - by rewrite bool_decide_eq_false_2 by tauto.
  - case_decide.
    + by rewrite bool_decide_eq_false_2 by lia.
    + by rewrite bool_decide_eq_true_2 by (split; [done | lia]).
Qed.


Lemma rate_limit_notice_outcome CONFIG store now (issue : Issue) key hours :
  outcome (get_suppression_key CONFIG issue) = Ok key →
  outcome (get_suppression_duration CONFIG issue) = Ok hours →
  outcome (rate_limit_notice CONFIG store now issue) =
  Ok (if decide (hours = 0) then store else <[key := now]> store).
Proof.
  intros Hkey Hhours. unfold rate_limit_notice.
  rewrite outcome_bind, Hkey, outcome_bind, Hhours. by case_decide.
Qed.





(** C5, the claim as stated fails: the duration configured for
    CERTIFICATE_ABOUT_TO_EXPIRE is not a number, and the issue is reported as
    suppressed all the same, for the day a NOTICE is suppressed. *)
Lemma unparseable_duration_still_suppresses :
  suppression Sample.config !! _template Sample.expiring = Some "daily"
  ∧ py_int "daily" = None
  ∧ outcome (is_rate_limited Sample.config
               (<[Sample.expiring_key := Sample.current_time - 1000]> ∅)
               Sample.current_time Sample.expiring) = Ok true.
Proof. vm_compute. repeat split. Qed.

(** C5, amended. When the duration configured for the template of an
    issue is not a number, the anomaly is logged and the duration of the
    issue is the default of its severity: 24 hours for a NOTICE, 4 for a
    WARNING, none for an ERROR. The suppression check then answers as it
    does for any issue of that duration, and its log has the anomaly. *)
Theorem unparseable_duration_falls_back CONFIG (self : Issue) (configured : string) :
  suppression CONFIG !! _template self = Some configured →
  py_int configured = None →
  let hours := match _runlevel self with NOTICE => 24 | WARNING => 4 | ERROR => 0 end in
  get_suppression_duration CONFIG self
    = mkM [LogNonNumericSuppression (_template self) configured] (Ok hours)
  ∧ ∀ store now key,
      outcome (get_suppression_key CONFIG self) = Ok key →
      outcome (is_rate_limited CONFIG store now self)
        = Ok (bool_decide (hours ≠ 0 ∧ now - default 0 (store !! key) < 3600 * hours + 1800))
      ∧ LogNonNumericSuppression (_template self) configured
          ∈ logged (is_rate_limited CONFIG store now self).
Proof.
  intros Hconfigured Hint hours.
  assert (Hduration : get_suppression_duration CONFIG self
    = mkM [LogNonNumericSuppression (_template self) configured] (Ok hours)).
  { unfold get_suppression_duration, get_runlevel, hours.
    rewrite Hconfigured, Hint. by destruct (_runlevel self). }
  split; [done|]. intros store now key Hkey. split.
  - apply is_rate_limited_outcome; [done|]. by rewrite Hduration.
  - unfold is_rate_limited. rewrite logged_bind, Hkey.
    apply elem_of_app. right.
    rewrite logged_bind, Hduration. simpl.
    case_decide; simpl; [|case_decide; simpl]; apply elem_of_cons; by left.
Qed.

Lemma unparseable_duration_falls_back_witness :
  suppression Sample.config !! _template Sample.expiring = Some "daily"
  ∧ py_int "daily" = None
  ∧ get_suppression_duration Sample.config Sample.expiring
    = mkM [LogNonNumericSuppression "CERTIFICATE_ABOUT_TO_EXPIRE" "daily"] (Ok 24).
Proof.
  split; [reflexivity|]. split; [reflexivity|].
  exact (proj1 (unparseable_duration_falls_back Sample.config
                  Sample.expiring "daily" eq_refl eq_refl)).
Defined.

(** ** The notification step *)

Lemma get_message_total CONFIG (issue : Issue) :
  ∃ text, outcome (get_message CONFIG issue) = Ok text.
Proof.
  unfold get_message. destruct (msg CONFIG !! _template issue); simpl; [|eauto].
  destruct (py_format _ _); simpl; eauto.
Qed.

Lemma Issue_str_rendered CONFIG (issue : Issue) :
  outcome (Issue_str CONFIG issue) = Ok (rendered CONFIG issue).
Proof.
  unfold rendered. unfold Issue_str. rewrite outcome_bind.
  by destruct (get_message_total CONFIG issue) as [text ->].
Qed.

Lemma map_M_rendered CONFIG (issues : list Issue) :
  outcome (map_M (Issue_str CONFIG) issues) = Ok (map (rendered CONFIG) issues).
Proof.
  induction issues as [|issue issues IH]; simpl; [done|].
  by rewrite outcome_bind, Issue_str_rendered, outcome_bind, IH.
Qed.

Lemma is_rate_limited_total CONFIG store now (issue : Issue) :
  well_formed CONFIG issue →
  ∃ limited, outcome (is_rate_limited CONFIG store now issue) = Ok limited.
Proof.
  intros [[key Hkey] _]. destruct (get_suppression_duration_total CONFIG issue) as [hours Hhours].
  rewrite (is_rate_limited_outcome _ _ _ _ _ _ Hkey Hhours). eauto.
Qed.

Lemma all_suppressed_false CONFIG store now (issues : list Issue) :
  Forall (well_formed CONFIG) issues →
  Exists (fun issue => outcome (is_rate_limited CONFIG store now issue) = Ok false) issues →
  outcome (all_suppressed CONFIG store now issues) = Ok false.
Proof.
  induction 1 as [|issue issues Hwf _ IH]; intros Hex; [by apply Exists_nil in Hex|].
  simpl. rewrite outcome_bind.
  destruct (is_rate_limited_total CONFIG store now issue Hwf) as [[] Hlimited];
    rewrite Hlimited; [|done].
  apply IH. apply Exists_cons in Hex as [Hhere|Hlater]; [congruence | done].
Qed.

Lemma all_suppressed_never_true CONFIG store now (issues : list Issue) :
  Exists (fun issue => outcome (is_rate_limited CONFIG store now issue) = Ok false) issues →
  outcome (all_suppressed CONFIG store now issues) ≠ Ok true.
Proof.
  induction issues as [|issue issues IH]; intros Hex; [by apply Exists_nil in Hex|].
  simpl. rewrite outcome_bind.
  destruct (outcome (is_rate_limited CONFIG store now issue)) as [[]|e] eqn:Hlimited;
    [|done..].
  apply IH. apply Exists_cons in Hex as [Hhere|Hlater]; [congruence | done].
Qed.

Lemma notify_loop_total CONFIG now (issues : list Issue) state :
  Forall (well_formed CONFIG) issues →
  ∃ state',
    outcome (for_each issues state (fun state issue =>
      store ← rate_limit_notice CONFIG state.1 now issue;
      new ← get_destinations CONFIG issue;
      mret (store, destinations_update state.2 new))) = Ok state'.
Proof.
  intros Hwf. revert state.
  induction Hwf as [|issue issues [[key Hkey] [authorities Hiter]] _ IH]; intros state;
    simpl; [eauto|].
  rewrite outcome_bind.
  destruct (get_suppression_duration_total CONFIG issue) as [hours Hhours].
  rewrite outcome_bind, (rate_limit_notice_outcome _ _ _ _ _ _ Hkey Hhours).
  rewrite outcome_bind. unfold get_destinations at 1.
  rewrite outcome_bind. unfold lift at 1. simpl. rewrite Hiter. simpl.
  apply IH.
Qed.

(** C1, the claim as stated fails: the NOTICE of the sample cycle is
    suppressed and the fetch failure is not, and the body of the
    notification lists both rather than the surviving issue alone. *)
Lemma notification_lists_suppressed_issues :
  survives Sample.config Sample.last_notified Sample.current_time
    (Sample.missing_votes ["moria1"]) = false
  ∧ survives Sample.config Sample.last_notified Sample.current_time Sample.unavailable = true
  ∧ ∃ store first second,
      outcome (main_notify Sample.config Sample.last_notified Sample.current_time
                 Sample.cycle_issues) = Ok (store, [first; second])
      ∧ mail_body first
        = join newline [rendered Sample.config (Sample.missing_votes ["moria1"]);
                        rendered Sample.config Sample.unavailable]
      ∧ mail_body first
        ≠ join newline (map (rendered Sample.config)
            (filter (fun issue => survives Sample.config Sample.last_notified
                                    Sample.current_time issue = true)
                    Sample.cycle_issues)).
Proof.
  split; [by vm_compute|]. split; [by vm_compute|].
  eexists _, _, _. split; [vm_compute; reflexivity|].
  split; [by vm_compute|]. by vm_compute.
Qed.

(** C1, amended. In a cycle in which at least one issue survives
    suppression (and whose issues are well formed), a notification is
    sent and its body is the rendered text of every issue of the cycle,
    one per line and in order, the suppressed issues included:
    suppression decides whether the notification is sent, not which
    issues it lists. *)
Theorem notification_lists_every_issue CONFIG (store : gmap string Z) (now : Z)
    (issues : list Issue) :
  Forall (well_formed CONFIG) issues →
  Exists (fun issue => survives CONFIG store now issue = true) issues →
  ∃ store' first second,
    outcome (main_notify CONFIG store now issues) = Ok (store', [first; second])
    ∧ mail_body first = join newline (map (rendered CONFIG) issues)
    ∧ mail_body second
      = join newline (map (fun issue => "[consensus-health] " +:+ rendered CONFIG issue) issues).
Proof.
  intros Hwf Hsurvives.
  assert (Hfalse : outcome (all_suppressed CONFIG store now issues) = Ok false).
  { apply all_suppressed_false; [done|].
    eapply Exists_impl; [exact Hsurvives|]. intros issue. unfold survives.
    by destruct (outcome _) as [[]|]. }
  destruct (notify_loop_total CONFIG now issues (store, []) Hwf) as [state Hstate].
  exists state.1. eexists _, _.
  unfold main_notify. rewrite outcome_bind, Hfalse.
  rewrite outcome_bind, Hstate. rewrite outcome_bind. simpl.
  rewrite outcome_bind, map_M_rendered. simpl.
  split; [reflexivity|]. split; [reflexivity|].
  by rewrite map_map.
Qed.

Lemma notification_lists_every_issue_witness :
  Forall (well_formed Sample.config) Sample.cycle_issues
  ∧ Exists (fun issue => survives Sample.config Sample.last_notified Sample.current_time
                           issue = true) Sample.cycle_issues
  ∧ ∃ store' first second,
      outcome (main_notify Sample.config Sample.last_notified Sample.current_time
                 Sample.cycle_issues) = Ok (store', [first; second])
      ∧ mail_body first = join newline (map (rendered Sample.config) Sample.cycle_issues)
      ∧ mail_body second
        = join newline (map (fun issue => "[consensus-health] " +:+ rendered Sample.config issue)
                            Sample.cycle_issues).
Proof.
  assert (Hwf : Forall (well_formed Sample.config) Sample.cycle_issues).
  { repeat constructor; eexists; vm_compute; reflexivity. }
  assert (Hsurvives : Exists (fun issue =>
            survives Sample.config Sample.last_notified Sample.current_time issue = true)
            Sample.cycle_issues).
  { apply Exists_cons_tl, Exists_cons_hd. vm_compute. reflexivity. }
  split; [exact Hwf|]. split; [exact Hsurvives|].
  exact (notification_lists_every_issue Sample.config Sample.last_notified
           Sample.current_time Sample.cycle_issues Hwf Hsurvives).
Defined.

(** ** Fetch failures *)

Lemma fetch_issues_unavailable registry query label (issue : Issue) :
  issue ∈ (_get_documents registry query label).2 →
  ∃ authority download_url error,
    issue = authority_unavailable label authority download_url error.
Proof.
  unfold _get_documents.
  assert (Hinv : ∀ authorities state,
    Forall (fun issue => ∃ authority download_url error,
              issue = authority_unavailable label authority download_url error) state.2 →
    Forall (fun issue => ∃ authority download_url error,
              issue = authority_unavailable label authority download_url error)
      (foldl (fun state authority =>
           let '(documents, issues) := state in
           match Authority.v3ident authority with
           | None => (documents, issues)
           | Some _ =>
               match query authority with
               | Fetched document =>
                   (dict_set (Authority.nickname authority) document documents, issues)
               | BadDateHeader document download_url error =>
                   (dict_set (Authority.nickname authority) document documents,
                    issues ++ [authority_unavailable label authority download_url error])
               | QueryFailed download_url error =>
                   (documents,
                    issues ++ [authority_unavailable label authority download_url error])
               end
           end) state authorities).2).
  { induction authorities as [|authority authorities IH]; intros [documents issues] Hstate;
      simpl; [done|].
    apply IH. destruct (Authority.v3ident authority); [|done].
    destruct (query authority); simpl in *; [| |done];
      (apply Forall_app; split; [done|]); apply Forall_singleton; eauto. }
  intros Hin. specialize (Hinv (map snd registry) ([], []) (Forall_nil_2 _)).
  exact (proj1 (Forall_forall _ _) Hinv issue Hin).
Qed.

Lemma authority_unavailable_key CONFIG label authority download_url error :
  outcome (get_suppression_key CONFIG
             (authority_unavailable label authority download_url error))
  = Ok (replace_space (rendered_message CONFIG
             (authority_unavailable label authority download_url error))).
Proof.
  unfold get_suppression_key, rendered_message.
  change (_template (authority_unavailable label authority download_url error))
    with "AUTHORITY_UNAVAILABLE".
  repeat (rewrite decide_False by discriminate).
  rewrite outcome_bind.
  by destruct (get_message_total CONFIG
    (authority_unavailable label authority download_url error)) as [text ->].
Qed.

(** C10. Every issue that the fetch loop reports has the template
    AUTHORITY_UNAVAILABLE and the severity ERROR; when no suppression
    duration is configured for that template its duration is 0, the
    suppression check answers that it is not suppressed, recording its
    notice leaves the store as it is, and a cycle that has it among its
    issues is never found to be all suppressed. *)
Theorem fetch_failures_never_suppressed CONFIG registry query label
    (store : gmap string Z) (now : Z) (issue : Issue) :
  issue ∈ (_get_documents registry query label).2 →
  suppression CONFIG !! "AUTHORITY_UNAVAILABLE" = None →
  _template issue = "AUTHORITY_UNAVAILABLE"
  ∧ _runlevel issue = ERROR
  ∧ outcome (get_suppression_duration CONFIG issue) = Ok 0
  ∧ outcome (is_rate_limited CONFIG store now issue) = Ok false
  ∧ outcome (rate_limit_notice CONFIG store now issue) = Ok store
  ∧ ∀ issues, issue ∈ issues →
      outcome (all_suppressed CONFIG store now issues) ≠ Ok true.
Proof.
  intros Hin Hnone.
  destruct (fetch_issues_unavailable _ _ _ _ Hin) as (authority & url & error & ->).
  assert (Hzero : outcome (get_suppression_duration CONFIG
                    (authority_unavailable label authority url error)) = Ok 0).
  { unfold get_suppression_duration.
    change (_template (authority_unavailable label authority url error))
      with "AUTHORITY_UNAVAILABLE".
    by rewrite Hnone. }
  pose proof (authority_unavailable_key CONFIG label authority url error) as Hkey.
  assert (Hfree : outcome (is_rate_limited CONFIG store now
                    (authority_unavailable label authority url error)) = Ok false).
  { rewrite (is_rate_limited_outcome _ _ _ _ _ _ Hkey Hzero).
    by rewrite bool_decide_eq_false_2 by tauto. }
  repeat split; [done.. | |].
  - by rewrite (rate_limit_notice_outcome _ _ _ _ _ _ Hkey Hzero).
  - intros issues Hissues. apply all_suppressed_never_true.
    apply Exists_exists. eauto.
Qed.

Lemma fetch_failures_never_suppressed_witness :
  Sample.unavailable ∈ (_get_documents Sample.registry Sample.query "consensus").2
  ∧ suppression Sample.config !! "AUTHORITY_UNAVAILABLE" = None
  ∧ outcome (is_rate_limited Sample.config Sample.last_notified Sample.current_time
               Sample.unavailable) = Ok false
  ∧ outcome (rate_limit_notice Sample.config Sample.last_notified Sample.current_time
               Sample.unavailable) = Ok Sample.last_notified.
Proof.
  assert (Hin : Sample.unavailable
                  ∈ (_get_documents Sample.registry Sample.query "consensus").2)
    by (vm_compute; left).
  split; [exact Hin|]. split; [reflexivity|].
  pose proof (fetch_failures_never_suppressed Sample.config Sample.registry Sample.query
                "consensus" Sample.last_notified Sample.current_time Sample.unavailable
                Hin eq_refl) as H.
  split; [apply H | apply H].
Defined.

(** ** The rule engine *)

Lemma bind_raise {A B} (m : M A) (k : A → M B) e :
  outcome m = Raise e → m ≫= k = mkM (logged m) (Raise e).
Proof. intros Hm. unfold mbind, M_bind. by rewrite Hm. Qed.

Lemma bind_ext {A B} (m : M A) (k k' : A → M B) :
  (∀ a, outcome m = Ok a → k a = k' a) → m ≫= k = m ≫= k'.
Proof.
  intros Hk. unfold mbind, M_bind.
  destruct (outcome m) as [a|e]; [|done]. by rewrite (Hk a).
Qed.

(** Collecting the issues a rule returned never raises. *)
Lemma collect_issues_total (issues all_issues : list Issue) :
  outcome (for_each issues all_issues (fun all_issues issue =>
             log (LogIssue issue);; mret (all_issues ++ [issue])))
  = Ok (all_issues ++ issues).
Proof.
  revert all_issues. induction issues as [|issue issues IH]; intros all_issues;
    cbn [for_each].
  - by rewrite app_nil_r.
  - rewrite outcome_bind, outcome_bind. simpl. rewrite IH. by rewrite <- app_assoc.
Qed.

(** C2, the claim as stated fails: the vote of dizum has no authority
    entry, [certificate_expiration] raises on it, and [run_checks] raises
    with it. The rule [bad_exits_in_sync], which comes later and finds
    an issue in these votes, does not get to report it, and no issue
    stands for the failed rule. *)
Lemma rule_exception_aborts_run_checks :
  outcome (certificate_expiration (Sample.env_at 14) (latest_of Sample.consensuses)
             Sample.consensuses Sample.votes_broken) = Raise IndexError
  ∧ (∃ issue, outcome (bad_exits_in_sync (Sample.env_at 14) (latest_of Sample.consensuses)
                         Sample.consensuses Sample.votes_broken) = Ok (ReturnsList [issue]))
  ∧ outcome (run_checks checker_functions (Sample.env_at 14) Sample.consensuses
               Sample.votes_broken) = Raise IndexError
  ∧ ¬ ∃ issues, outcome (run_checks checker_functions (Sample.env_at 14)
                           Sample.consensuses Sample.votes_broken) = Ok issues.
Proof.
  split; [by vm_compute|]. split; [eexists; by vm_compute|].
  assert (Hraise : outcome (run_checks checker_functions (Sample.env_at 14)
            Sample.consensuses Sample.votes_broken) = Raise IndexError) by (by vm_compute).
  split; [exact Hraise|]. intros [issues Hok]. congruence.
Qed.

(** C2, amended. When a rule raises an exception, and the rules before
    it returned, the exception propagates out of [run_checks]: no issue
    is returned, neither for the failed rule nor from the rules before
    it, and the rules after it are not evaluated (the run is the same
    whatever they are). *)
Theorem rule_exception_propagates (before after : list checker) (failing : checker)
    (env : Env) (consensuses votes : list (string * Document)) (e : exn) :
  Forall (fun check : checker =>
            ∃ result, outcome (check env (latest_of consensuses) consensuses votes)
                      = Ok result) before →
  outcome (failing env (latest_of consensuses) consensuses votes) = Raise e →
  outcome (run_checks (before ++ failing :: after) env consensuses votes) = Raise e
  ∧ run_checks (before ++ failing :: after) env consensuses votes
    = run_checks (before ++ [failing]) env consensuses votes.
Proof.
  intros Hbefore Hfailing. unfold run_checks.
  set (body := fun (all_issues : list Issue) (check : checker) => _).
  generalize (@nil Issue) as all_issues.
  induction Hbefore as [|check before [result Hresult] _ IH]; intros all_issues;
    cbn [for_each app].
  - rewrite !(bind_raise (body all_issues failing) _ e);
      [done|unfold body; by rewrite outcome_bind, Hfailing..].
  - split.
    + rewrite outcome_bind. unfold body at 1.
      rewrite outcome_bind, Hresult. cbv beta iota zeta.
      rewrite collect_issues_total. apply IH.
    + apply bind_ext. intros all_issues' _. apply IH.
Qed.

Lemma rule_exception_propagates_witness :
  Forall (fun check : checker =>
            ∃ result, outcome (check (Sample.env_at 14) (latest_of Sample.consensuses)
                                 Sample.consensuses Sample.votes_broken) = Ok result)
         [bad_exits_in_sync]
  ∧ outcome (certificate_expiration (Sample.env_at 14) (latest_of Sample.consensuses)
               Sample.consensuses Sample.votes_broken) = Raise IndexError
  ∧ outcome (run_checks ([bad_exits_in_sync] ++ certificate_expiration
                           :: [shared_random_commit_partitioning])
               (Sample.env_at 14) Sample.consensuses Sample.votes_broken)
    = Raise IndexError.
Proof.
  assert (Hbefore : Forall (fun check : checker =>
            ∃ result, outcome (check (Sample.env_at 14) (latest_of Sample.consensuses)
                                 Sample.consensuses Sample.votes_broken) = Ok result)
            [bad_exits_in_sync]).
  { apply Forall_singleton. eexists. vm_compute. reflexivity. }
  assert (Hfailing : outcome (certificate_expiration (Sample.env_at 14)
            (latest_of Sample.consensuses) Sample.consensuses Sample.votes_broken)
            = Raise IndexError) by reflexivity.
  split; [exact Hbefore|]. split; [exact Hfailing|].
  exact (proj1 (rule_exception_propagates [bad_exits_in_sync]
                  [shared_random_commit_partitioning] certificate_expiration
                  (Sample.env_at 14) Sample.consensuses Sample.votes_broken IndexError
                  Hbefore Hfailing)).
Defined.

(** ** The shared-random rules *)

(** Whatever its arguments, a call of the commit rule that returns,
    returns [None]. *)
Lemma shared_random_commit_partitioning_none env latest consensuses votes result :
  outcome (shared_random_commit_partitioning env latest consensuses votes) = Ok result →
  result = ReturnsNone.
Proof.
  unfold shared_random_commit_partitioning. case_decide; simpl; [congruence|].
  rewrite outcome_bind. destruct (outcome (shared_random_commit_issues env votes));
    simpl; congruence.
Qed.

Lemma shared_random_reveal_partitioning_none env latest consensuses votes result :
  outcome (shared_random_reveal_partitioning env latest consensuses votes) = Ok result →
  result = ReturnsNone.
Proof.
  unfold shared_random_reveal_partitioning. case_decide; simpl; [congruence|].
  rewrite outcome_bind. destruct (outcome (shared_random_reveal_issues env votes));
    simpl; congruence.
Qed.

(** A property of the accumulator that every step of a loop keeps holds
    when the loop returns. *)
Lemma for_each_invariant {A S} (P : S → Prop) (body : S → A → M S) (l : list A) :
  (∀ acc x acc', P acc → outcome (body acc x) = Ok acc' → P acc') →
  ∀ acc acc', P acc → outcome (for_each l acc body) = Ok acc' → P acc'.
Proof.
  intros Hstep. induction l as [|x l IH]; intros acc acc' Hacc; cbn [for_each].
  - intros [= <-]. exact Hacc.
  - rewrite outcome_bind.
    destruct (outcome (body acc x)) as [acc1|e] eqn:Hbody; [|done].
    apply IH. by apply (Hstep acc x).
Qed.

(** No input makes the reveal rule build a reveal-mismatch issue: the
    branch that would is taken only when the number of echoes is neither
    zero nor positive. *)
Lemma reveal_mismatch_unreachable env votes (issues : list Issue) :
  outcome (shared_random_reveal_issues env votes) = Ok issues →
  Forall (fun issue => _template issue ≠ "SHARED_RANDOM_REVEAL_MISMATCH") issues.
Proof.
  unfold shared_random_reveal_issues. rewrite outcome_bind.
  set (unreported := fun issue => _template issue ≠ "SHARED_RANDOM_REVEAL_MISMATCH").
  destruct (outcome (for_each votes _ _)) as [[found self_reveals]|e] eqn:Hfirst; [|done].
  assert (Hfound : Forall unreported found).
  { revert Hfirst.
    apply (for_each_invariant
             (fun state : list Issue * list (option string * option string) =>
                Forall unreported state.1)); [|constructor].
    intros [acc reveals] [authority vote] [acc' reveals'] Hacc. simpl in Hacc.
    rewrite outcome_bind. destruct (outcome (v3ident_of env authority)); [|done].
    rewrite outcome_bind. destruct (outcome (commitments_of vote)); [|done].
    repeat case_decide; cbn [outcome mret M_ret].
    - intros [= <- <-]. simpl. apply Forall_app. split; [done|].
      by apply Forall_singleton.
    - intros [= <- <-]. simpl. apply Forall_app. split; [done|].
      by apply Forall_singleton.
    - rewrite outcome_bind. destruct (outcome (first_item _)); [|done].
      by intros [= <- <-]. }
  apply (for_each_invariant (Forall unreported)); [|exact Hfound].
  intros acc [authority vote] acc' Hacc.
  rewrite outcome_bind. destruct (outcome (commitments_of vote)); [|done].
  apply (for_each_invariant (Forall unreported)); [|exact Hacc].
  intros acc1 [v3ident their_reveal] acc1' Hacc1.
  repeat case_decide; cbn [outcome mret M_ret].
  - intros [= <-]. apply Forall_app. split; [done|]. by apply Forall_singleton.
  - intros [= <-]. apply Forall_app. split; [done|]. by apply Forall_singleton.
  - lia.
Qed.

(** C3, the code at the failing input. At 9 h UTC, with the vote of
    dizum reporting a commitment of moria1 that differs from the one
    moria1 reports for itself, the rule builds the list of the one
    WARNING mismatch issue and then returns [None]: [run_checks] gets no
    issue from it. At 14 h it returns [None] as well, and so it does
    whenever it returns. *)
Theorem commit_mismatch_is_dropped :
  (∃ issue,
     outcome (shared_random_commit_issues (Sample.env_at 9) Sample.votes_commit) = Ok [issue]
     ∧ _runlevel issue = WARNING
     ∧ _template issue = "SHARED_RANDOM_COMMITMENT_MISMATCH"
     ∧ _authorities issue = PyList ["dizum"])
  ∧ outcome (shared_random_commit_partitioning (Sample.env_at 9)
               (latest_of Sample.consensuses) Sample.consensuses Sample.votes_commit)
    = Ok ReturnsNone
  ∧ outcome (run_checks [shared_random_commit_partitioning] (Sample.env_at 9)
               Sample.consensuses Sample.votes_commit) = Ok []
  ∧ outcome (shared_random_commit_partitioning (Sample.env_at 14)
               (latest_of Sample.consensuses) Sample.consensuses Sample.votes_commit)
    = Ok ReturnsNone
  ∧ ∀ env latest consensuses votes result,
      outcome (shared_random_commit_partitioning env latest consensuses votes) = Ok result →
      result = ReturnsNone.
Proof.
  split; [eexists; by vm_compute|]. split; [by vm_compute|]. split; [by vm_compute|].
  split; [by vm_compute|]. apply shared_random_commit_partitioning_none.
Qed.

(** C4, the code at the failing inputs, at 21 h UTC. In the first,
    moria1 has one reveal in its vote, the vote of dizum echoes it once
    with the same value, and dizum has no reveal of its own: the list
    the rule builds has the no-reveal issue of dizum and, for the reveal
    of moria1, a reveal-duplicated issue for each of the two votes
    although each has it exactly once. In the second, the vote of dizum
    echoes the reveal of moria1 once with another value, and the list
    has a reveal-duplicated issue where a reveal-mismatch issue is due
    (on no input does the rule build a reveal-mismatch issue). In both
    the rule then returns [None], as it does whenever it returns, so
    that [run_checks] gets no issue from it. *)
Theorem reveal_issues_are_dropped :
  (∃ issues,
     outcome (shared_random_reveal_issues (Sample.env_at 21) Sample.votes_reveal)
       = Ok issues
     ∧ map (fun issue => (_runlevel issue, _template issue, _authorities issue)) issues
       = [(WARNING, "SHARED_RANDOM_NO_REVEAL", PyList ["dizum"]);
          (WARNING, "SHARED_RANDOM_REVEAL_DUPLICATED", PyList ["moria1"]);
          (WARNING, "SHARED_RANDOM_REVEAL_DUPLICATED", PyList ["dizum"])])
  ∧ outcome (shared_random_reveal_partitioning (Sample.env_at 21)
               (latest_of Sample.consensuses) Sample.consensuses Sample.votes_reveal)
    = Ok ReturnsNone
  ∧ outcome (run_checks [shared_random_reveal_partitioning] (Sample.env_at 21)
               Sample.consensuses Sample.votes_reveal) = Ok []
  ∧ (∃ issues,
       outcome (shared_random_reveal_issues (Sample.env_at 21) Sample.votes_reveal_differs)
         = Ok issues
       ∧ map (fun issue => (_template issue, _authorities issue,
                            _attr issue !! "their_v3ident")) issues
         = [("SHARED_RANDOM_REVEAL_DUPLICATED", PyList ["moria1"],
             Some (PyStr Sample.moria1_v3));
            ("SHARED_RANDOM_REVEAL_MISSING", PyList ["moria1"],
             Some (PyStr Sample.dizum_v3));
            ("SHARED_RANDOM_REVEAL_DUPLICATED", PyList ["dizum"],
             Some (PyStr Sample.moria1_v3));
            ("SHARED_RANDOM_REVEAL_DUPLICATED", PyList ["dizum"],
             Some (PyStr Sample.dizum_v3))])
  ∧ outcome (run_checks [shared_random_reveal_partitioning] (Sample.env_at 21)
               Sample.consensuses Sample.votes_reveal_differs) = Ok []
  ∧ (∀ env votes issues,
       outcome (shared_random_reveal_issues env votes) = Ok issues →
       Forall (fun issue => _template issue ≠ "SHARED_RANDOM_REVEAL_MISMATCH") issues)
  ∧ ∀ env latest consensuses votes result,
      outcome (shared_random_reveal_partitioning env latest consensuses votes) = Ok result →
      result = ReturnsNone.
Proof.
  split; [eexists; by vm_compute|]. split; [by vm_compute|]. split; [by vm_compute|].
  split; [eexists; by vm_compute|]. split; [by vm_compute|].
  split; [apply reveal_mismatch_unreachable|].
  apply shared_random_reveal_partitioning_none.
Qed.

(** ** Certificate expiry *)

Lemma new_Issue_concerns authority runlevel template first second :
  concerns authority
    (new_Issue runlevel template [first; second; ("to", PyList [authority])]).
Proof.
  unfold concerns, new_Issue, dict_update. cbn [_authorities foldl fst snd].
  by rewrite lookup_insert_eq.
Qed.

(** What the loop of [certificate_expiration] adds for one vote. *)
Lemma certificate_expiration_step env (issues : list Issue) authority vote certificate :
  own_certificate vote = Some certificate →
  ∃ added,
    outcome (certificate_issue (datetime_now env) issues authority vote)
      = Ok (issues ++ added)
    ∧ Forall (concerns authority) added
    ∧ expiry_tier env authority certificate added.
Proof.
  intros Hown. unfold own_certificate in Hown. unfold expiry_tier, certificate_issue.
  set (remaining := datetime_sub (expires certificate) (datetime_now env)).
  destruct (directory_authorities vote) as [|issuer others]; [done|].
  rewrite outcome_bind. cbn [first_item outcome mret M_ret].
  rewrite outcome_bind, Hown. cbn [attribute_of outcome mret M_ret]. cbv zeta.
  fold remaining.
  unfold timedelta_days in *.
  repeat case_decide.
  - eexists. split; [reflexivity|].
    split; [apply Forall_singleton, new_Issue_concerns|].
    repeat split; intros; first [done | lia].
  - eexists. split; [reflexivity|].
    split; [apply Forall_singleton, new_Issue_concerns|].
    repeat split; intros; first [done | lia].
  - eexists. split; [reflexivity|].
    split; [apply Forall_singleton, new_Issue_concerns|].
    repeat split; intros; first [done | lia].
  - exists []. split; [by rewrite app_nil_r|]. split; [constructor|].
    repeat split; intros; first [done | lia].
Qed.

Lemma filter_concerns_all authority (issues : list Issue) :
  Forall (concerns authority) issues → filter (concerns authority) issues = issues.
Proof.
  induction 1 as [|issue issues Hissue _ IH]; [done|].
  by rewrite filter_cons_True, IH.
Qed.

Lemma filter_concerns_other authority other (issues : list Issue) :
  authority ≠ other →
  Forall (concerns other) issues → filter (concerns authority) issues = [].
Proof.
  intros Hne. induction 1 as [|issue issues Hissue _ IH]; [done|].
  rewrite filter_cons_False; [done|].
  unfold concerns in *. rewrite Hissue. congruence.
Qed.

(** C8. For every vote of the document set (each vote carrying the
    certificate of the authority that issued it), the issues that
    [certificate_expiration] reports for the authority of the vote are
    decided by the time left to the expiry of that certificate, the
    narrowest window first: one WARNING labelled week within 7 days, one
    WARNING labelled two weeks within 14 days, one NOTICE labelled three
    weeks within 21 days, and no issue beyond 21 days. *)
Theorem certificate_expiration_tiers (env : Env) (latest_consensus : option Document)
    (consensuses votes : list (string * Document)) (authority : string)
    (vote : Document) (certificate : KeyCertificate) :
  NoDup votes.*1 →
  Forall (fun entry => is_Some (own_certificate entry.2)) votes →
  (authority, vote) ∈ votes →
  own_certificate vote = Some certificate →
  let remaining := datetime_sub (expires certificate) (datetime_now env) in
  ∃ issues,
    outcome (certificate_expiration env latest_consensus consensuses votes)
      = Ok (ReturnsList issues)
    ∧ (remaining ≤ timedelta_days 7 →
         filter (concerns authority) issues
         = [about_to_expire WARNING "week" authority certificate])
    ∧ (timedelta_days 7 < remaining ≤ timedelta_days 14 →
         filter (concerns authority) issues
         = [about_to_expire WARNING "two weeks" authority certificate])
    ∧ (timedelta_days 14 < remaining ≤ timedelta_days 21 →
         filter (concerns authority) issues
         = [about_to_expire NOTICE "three weeks" authority certificate])
    ∧ (timedelta_days 21 < remaining → filter (concerns authority) issues = []).
Proof.
  intros Hnodup Hcerts Hin Hown remaining.
  unfold certificate_expiration.
  set (body := fun (issues : list Issue) (entry : string * Document) => _).
  assert (Hloop : ∀ votes issues,
    NoDup votes.*1 →
    Forall (fun entry => is_Some (own_certificate entry.2)) votes →
    ∃ added,
      outcome (for_each votes issues body) = Ok (issues ++ added)
      ∧ (authority ∉ votes.*1 → filter (concerns authority) added = [])
      ∧ ((authority, vote) ∈ votes →
           expiry_tier env authority certificate (filter (concerns authority) added))).
  { clear Hnodup Hcerts Hin votes.
    induction votes as [|[other vote'] votes IH]; intros issues Hnodup Hcerts.
    - exists []. split; [by rewrite app_nil_r|]. split; [done|].
      intros Hin. by apply elem_of_nil in Hin.
    - apply NoDup_cons in Hnodup as [Hfresh Hnodup].
      apply Forall_cons in Hcerts as [[certificate' Hown'] Hcerts].
      destruct (certificate_expiration_step env issues other vote' certificate' Hown')
        as (added & Hstep & Hconcerns & Htier).
      destruct (IH (issues ++ added) Hnodup Hcerts) as (more & Hrest & Habsent & Hpresent).
      exists (added ++ more). cbn [for_each].
      rewrite outcome_bind.
      unfold body at 1. cbn [fst snd].
      rewrite Hstep, Hrest, <- app_assoc. split; [done|].
      rewrite filter_app. split.
      + intros Hnotin. apply not_elem_of_cons in Hnotin as [Hne Hnotin].
        rewrite (filter_concerns_other authority other added Hne Hconcerns).
        by rewrite Habsent.
      + intros Hhere. apply elem_of_cons in Hhere as [Heq|Hlater].
        * injection Heq as Hother Hvote. subst other vote'.
          simpl in Hown'. assert (certificate' = certificate) as -> by congruence.
          rewrite (filter_concerns_all authority added Hconcerns).
          by rewrite Habsent, app_nil_r.
        * assert (authority ≠ other) as Hne.
          { intros ->. apply Hfresh. apply list_elem_of_fmap. by exists (other, vote). }
          rewrite (filter_concerns_other authority other added Hne Hconcerns).
          by apply Hpresent. }
  destruct (Hloop votes [] Hnodup Hcerts) as (added & Hout & _ & Htier).
  exists added. rewrite outcome_bind, Hout. split; [done|].
  apply Htier, Hin.
Qed.

Lemma certificate_expiration_tiers_witness :
  NoDup Sample.votes_expiring.*1
  ∧ Forall (fun entry => is_Some (own_certificate entry.2)) Sample.votes_expiring
  ∧ ("dizum", Sample.dizum_vote) ∈ Sample.votes_expiring
  ∧ own_certificate Sample.dizum_vote = Some {| expires := Sample.at_hour 2019 6 11 9 |}
  ∧ ∃ issues,
      outcome (certificate_expiration (Sample.env_at 9) (Some Sample.consensus)
                 Sample.consensuses Sample.votes_expiring) = Ok (ReturnsList issues)
      ∧ filter (concerns "dizum") issues
        = [about_to_expire WARNING "two weeks" "dizum"
             {| expires := Sample.at_hour 2019 6 11 9 |}].
Proof.
  assert (Hnodup : NoDup Sample.votes_expiring.*1)
    by (apply (bool_decide_unpack _); by vm_compute).
  assert (Hcerts : Forall (fun entry => is_Some (own_certificate entry.2))
                     Sample.votes_expiring)
    by (repeat constructor; by eexists).
  assert (Hin : ("dizum", Sample.dizum_vote) ∈ Sample.votes_expiring) by (right; left).
  split; [exact Hnodup|]. split; [exact Hcerts|]. split; [exact Hin|].
  split; [reflexivity|].
  destruct (certificate_expiration_tiers (Sample.env_at 9) (Some Sample.consensus)
              Sample.consensuses Sample.votes_expiring "dizum" Sample.dizum_vote
              {| expires := Sample.at_hour 2019 6 11 9 |} Hnodup Hcerts Hin eq_refl)
    as (issues & Hout & _ & Htwo & _).
  exists issues. split; [exact Hout|]. apply Htwo. by vm_compute.
Defined.

(** The rule on the votes of the sample, whose certificates expire in 5,
    10, 20 and 30 days. *)
Lemma certificate_expiration_example :
  outcome (certificate_expiration (Sample.env_at 9) (Some Sample.consensus)
             Sample.consensuses Sample.votes_expiring)
  = Ok (ReturnsList
      [about_to_expire WARNING "week" "moria1" {| expires := Sample.at_hour 2019 6 6 9 |};
       about_to_expire WARNING "two weeks" "dizum" {| expires := Sample.at_hour 2019 6 11 9 |};
       about_to_expire NOTICE "three weeks" "gabelmoo"
         {| expires := Sample.at_hour 2019 6 21 9 |}]).
Proof. by vm_compute. Qed.

(** ** Agreement on bad exits *)

Section dicts.
Context {K V : Type} `{EqDecision K}.

Lemma dict_set_fresh (key : K) (v : V) (d : list (K * V)) :
  key ∉ d.*1 → dict_set key v d = d ++ [(key, v)].
Proof.
  induction d as [|[k w] d IH]; intros Hfresh; simpl; [done|].
  simpl in Hfresh. apply not_elem_of_cons in Hfresh as [Hne Hfresh].
  rewrite decide_False by done. by rewrite IH.
Qed.

Lemma dict_get_elem (key : K) (v : V) (d : list (K * V)) :
  NoDup d.*1 → (key, v) ∈ d → dict_get key d = Some v.
Proof.
  induction d as [|[k w] d IH]; intros Hnodup Hin; [by apply elem_of_nil in Hin|].
  simpl in Hnodup. apply NoDup_cons in Hnodup as [Hfresh Hnodup]. simpl.
  apply elem_of_cons in Hin as [Heq|Hin].
  - injection Heq as -> ->. by rewrite decide_True.
  - rewrite decide_False; [by apply IH|].
    intros ->. apply Hfresh, list_elem_of_fmap. by exists (key, v).
Qed.

End dicts.

Lemma elem_of_foldl_union (x : string) (sets : list (list string)) (first : list string) :
  x ∈ foldl list_union first sets ↔ x ∈ first ∨ ∃ s, s ∈ sets ∧ x ∈ s.
Proof.
  revert first. induction sets as [|s sets IH]; intros first; simpl.
  - split; [by left|]. intros [H|(s & Hs & _)]; [done|by apply elem_of_nil in Hs].
  - rewrite IH, list_elem_of_union. split.
    + intros [[H|H]|(s' & Hs' & Hx)]; [by left| |].
      * right. exists s. split; [by left|done].
      * right. exists s'. split; [by right|done].
    + intros [H|(s' & Hs' & Hx)]; [by left; left|].
      apply elem_of_cons in Hs' as [->|Hs']; [by left; right|].
      right. by exists s'.
Qed.

Lemma elem_of_foldl_intersection (x : string) (sets : list (list string))
    (first : list string) :
  x ∈ foldl list_intersection first sets ↔ x ∈ first ∧ ∀ s, s ∈ sets → x ∈ s.
Proof.
  revert first. induction sets as [|s sets IH]; intros first; simpl.
  - split; [|by intros [? _]]. intros H. split; [done|].
    intros s Hs. by apply elem_of_nil in Hs.
  - rewrite IH, list_elem_of_intersection. split.
    + intros [[H1 H2] H3]. split; [done|]. intros s' Hs'.
      apply elem_of_cons in Hs' as [->|Hs']; [done|by apply H3].
    + intros [H1 H2]. split; [split; [done|apply H2; by left]|].
      intros s' Hs'. apply H2. by right.
Qed.

Lemma elem_of_set_union (x : string) (sets : list (list string)) :
  x ∈ set_union sets ↔ ∃ s, s ∈ sets ∧ x ∈ s.
Proof.
  destruct sets as [|first sets]; simpl.
  - split; [intros H; by apply elem_of_nil in H|].
    intros (s & Hs & _). by apply elem_of_nil in Hs.
  - rewrite elem_of_foldl_union. split.
    + intros [H|(s & Hs & Hx)]; [exists first; split; [by left|done]|].
      exists s. split; [by right|done].
    + intros (s & Hs & Hx). apply elem_of_cons in Hs as [->|Hs]; [by left|].
      right. by exists s.
Qed.

Lemma elem_of_set_intersection (x : string) (sets : list (list string)) :
  x ∈ set_intersection sets ↔ sets ≠ [] ∧ ∀ s, s ∈ sets → x ∈ s.
Proof.
  destruct sets as [|first sets]; simpl.
  - split; [intros H; by apply elem_of_nil in H|]. by intros [? _].
  - rewrite elem_of_foldl_intersection. split.
    + intros [H1 H2]. split; [done|]. intros s Hs.
      apply elem_of_cons in Hs as [->|Hs]; [done|by apply H2].
    + intros [_ H]. split; [apply H; by left|]. intros s Hs. apply H. by right.
Qed.

(** A loop whose body appends to the list it accumulates. *)
Lemma for_each_appending {A B} (Q : A → list B → Prop) (body : list B → A → M (list B))
    (l : list A) :
  (∀ x acc, x ∈ l → ∃ added, outcome (body acc x) = Ok (acc ++ added) ∧ Q x added) →
  ∀ acc, ∃ addeds,
    outcome (for_each l acc body) = Ok (acc ++ concat addeds) ∧ Forall2 Q l addeds.
Proof.
  induction l as [|x l IH]; intros Hbody acc.
  - exists []. simpl. by rewrite app_nil_r.
  - destruct (Hbody x acc) as (added & Hx & HQ); [by left|].
    destruct (IH (fun y acc Hy => Hbody y acc (list_elem_of_further _ _ _ Hy)) (acc ++ added))
      as (addeds & Hrest & HQs).
    exists (added :: addeds). cbn [for_each].
    rewrite outcome_bind, Hx, Hrest. simpl. rewrite <- app_assoc.
    split; [done|by constructor].
Qed.

Lemma elem_of_flagged (vote : Document) (fp : string) :
  fp ∈ map fingerprint (filter (fun desc => BADEXIT ∈ flags desc) (routers vote))
  ↔ flags_bad_exit vote fp.
Proof.
  unfold flags_bad_exit. rewrite list_elem_of_fmap. split.
  - intros (desc & -> & Hdesc). apply list_elem_of_filter in Hdesc as [Hflag Hdesc].
    by exists desc.
  - intros (desc & Hdesc & <- & Hflag). exists desc. split; [done|].
    by apply list_elem_of_filter.
Qed.

Lemma bad_exit_entry_Some authority vote other flagged :
  bad_exit_entry (authority, vote) = Some (other, flagged) →
  other = authority ∧ votes_bad_exit vote ∧ ∀ fp, fp ∈ flagged ↔ flags_bad_exit vote fp.
Proof.
  unfold bad_exit_entry. cbn [fst snd].
  destruct (map fingerprint _) as [|fp0 rest] eqn:Hflagged; [done|].
  intros Heq.
  assert (other = authority ∧ flagged = remove_dups (fp0 :: rest)) as [-> ->]
    by (split; congruence).
  split; [done|]. split.
  - exists fp0. apply elem_of_flagged. rewrite Hflagged. by left.
  - intros fp. by rewrite elem_of_remove_dups, <- Hflagged, elem_of_flagged.
Qed.

Lemma bad_exit_entry_votes authority vote :
  votes_bad_exit vote →
  ∃ flagged, bad_exit_entry (authority, vote) = Some (authority, flagged)
             ∧ ∀ fp, fp ∈ flagged ↔ flags_bad_exit vote fp.
Proof.
  intros [fp0 Hfp0]. apply elem_of_flagged in Hfp0.
  unfold bad_exit_entry. cbn [fst snd].
  destruct (map fingerprint _) as [|fp1 rest] eqn:Hflagged;
    [by apply elem_of_nil in Hfp0|].
  eexists. split; [done|].
  intros fp. by rewrite elem_of_remove_dups, <- Hflagged, elem_of_flagged.
Qed.

Lemma bad_exit_votes_omap (votes : list (string * Document)) :
  NoDup votes.*1 → bad_exit_votes votes = omap bad_exit_entry votes.
Proof.
  unfold bad_exit_votes.
  set (step := fun (bad_exits : list (string * list string)) (entry : string * Document) => _).
  assert (Hgen : ∀ votes acc,
    NoDup votes.*1 → (∀ a, a ∈ acc.*1 → a ∉ votes.*1) →
    foldl step acc votes = acc ++ omap bad_exit_entry votes).
  { clear votes. induction votes as [|[authority vote] votes IH]; intros acc Hnodup Hdisjoint.
    - simpl. by rewrite app_nil_r.
    - simpl in Hnodup. apply NoDup_cons in Hnodup as [Hfresh Hnodup].
      cbn [foldl omap list_omap]. unfold step at 2, bad_exit_entry. cbn [fst snd].
      destruct (map fingerprint _) as [|fp0 rest] eqn:Hflagged.
      + apply IH; [done|]. intros a Ha Hin. apply (Hdisjoint a Ha). simpl. by right.
      + rewrite dict_set_fresh.
        * rewrite IH; [by rewrite <- app_assoc|done|].
          intros a Ha. rewrite fmap_app in Ha. apply elem_of_app in Ha as [Ha|Ha].
          -- intros Hin. apply (Hdisjoint a Ha). simpl. by right.
          -- simpl in Ha. apply list_elem_of_singleton in Ha as ->. done.
        * intros Hin. apply (Hdisjoint authority Hin). simpl. by left. }
  intros Hnodup. rewrite Hgen; [done..|]. intros a Ha. by apply elem_of_nil in Ha.
Qed.

Section bad_exits.
Variable votes : list (string * Document).
Hypothesis votes_nodup : NoDup votes.*1.

Lemma vote_unique authority (vote vote' : Document) :
  (authority, vote) ∈ votes → (authority, vote') ∈ votes → vote = vote'.
Proof.
  intros Hin Hin'.
  pose proof (dict_get_elem _ _ _ votes_nodup Hin) as H.
  pose proof (dict_get_elem _ _ _ votes_nodup Hin') as H'. congruence.
Qed.

Lemma elem_of_bad_exits authority flagged :
  (authority, flagged) ∈ omap bad_exit_entry votes ↔
  ∃ vote, (authority, vote) ∈ votes ∧ bad_exit_entry (authority, vote) = Some (authority, flagged).
Proof.
  rewrite list_elem_of_omap. split.
  - intros ([other vote] & Hin & Hentry).
    destruct (bad_exit_entry_Some _ _ _ _ Hentry) as (-> & _). by exists vote.
  - intros (vote & Hin & Hentry). by exists (authority, vote).
Qed.

(** The authorities that vote the flag. *)
Lemma elem_of_voting (authority : string) :
  authority ∈ remove_dups (omap bad_exit_entry votes).*1 ↔
  ∃ vote, (authority, vote) ∈ votes ∧ votes_bad_exit vote.
Proof.
  rewrite elem_of_remove_dups, list_elem_of_fmap. split.
  - intros ([other flagged] & -> & Hin). simpl.
    apply elem_of_bad_exits in Hin as (vote & Hin & Hentry).
    exists vote. split; [done|]. by destruct (bad_exit_entry_Some _ _ _ _ Hentry) as (_ & ? & _).
  - intros (vote & Hin & Hvotes).
    destruct (bad_exit_entry_votes authority vote Hvotes) as (flagged & Hentry & _).
    exists (authority, flagged). split; [done|]. apply elem_of_bad_exits. by exists vote.
Qed.

(** The authorities that flag the relay [fp]. *)
Lemma elem_of_with_flag (fp authority : string) :
  authority ∈ remove_dups
    (map fst (filter (fun entry => fp ∈ entry.2) (omap bad_exit_entry votes))) ↔
  flagged_side votes fp authority.
Proof.
  unfold flagged_side. rewrite elem_of_remove_dups, list_elem_of_fmap. split.
  - intros ([other flagged] & -> & Hin). simpl.
    apply list_elem_of_filter in Hin as [Hfp Hin]. simpl in Hfp.
    apply elem_of_bad_exits in Hin as (vote & Hin & Hentry).
    exists vote. split; [done|].
    destruct (bad_exit_entry_Some _ _ _ _ Hentry) as (_ & _ & Hflagged). by apply Hflagged.
  - intros (vote & Hin & Hflags).
    destruct (bad_exit_entry_votes authority vote) as (flagged & Hentry & Hflagged);
      [by exists fp|].
    exists (authority, flagged). split; [done|]. apply list_elem_of_filter. split.
    + simpl. by apply Hflagged.
    + apply elem_of_bad_exits. by exists vote.
Qed.

Lemma flagged_sets_forward (flagged : list string) :
  flagged ∈ (omap bad_exit_entry votes).*2 →
  ∃ authority vote, (authority, vote) ∈ votes ∧ votes_bad_exit vote
                    ∧ ∀ fp, fp ∈ flagged ↔ flags_bad_exit vote fp.
Proof.
  rewrite list_elem_of_fmap. intros ([authority flagged'] & -> & Hin). simpl.
  apply elem_of_bad_exits in Hin as (vote & Hin & Hentry).
  exists authority, vote. split; [done|].
  by destruct (bad_exit_entry_Some _ _ _ _ Hentry) as (_ & ? & ?).
Qed.

Lemma flagged_sets_backward authority vote :
  (authority, vote) ∈ votes → votes_bad_exit vote →
  ∃ flagged, flagged ∈ (omap bad_exit_entry votes).*2
             ∧ ∀ fp, fp ∈ flagged ↔ flags_bad_exit vote fp.
Proof.
  intros Hin Hvotes.
  destruct (bad_exit_entry_votes authority vote Hvotes) as (flagged & Hentry & Hflagged).
  exists flagged. split; [|done]. apply list_elem_of_fmap.
  exists (authority, flagged). split; [done|]. apply elem_of_bad_exits. by exists vote.
Qed.

(** The relays on which the authorities that vote the flag disagree. *)
Lemma elem_of_disagreed (fp : string) :
  fp ∈ list_difference (set_union (omap bad_exit_entry votes).*2)
                       (set_intersection (omap bad_exit_entry votes).*2) ↔
  (∃ authority, flagged_side votes fp authority)
  ∧ ∃ authority vote, (authority, vote) ∈ votes ∧ votes_bad_exit vote
                      ∧ ¬ flags_bad_exit vote fp.
Proof.
  rewrite list_elem_of_difference, elem_of_set_union, elem_of_set_intersection. split.
  - intros [(flagged & Hflagged & Hfp) Hnot]. split.
    + destruct (flagged_sets_forward _ Hflagged) as (authority & vote & Hin & _ & Hiff).
      exists authority, vote. split; [done|]. by apply Hiff.
    + assert (Hex : Exists (fun flagged => fp ∉ flagged) (omap bad_exit_entry votes).*2).
      { apply not_Forall_Exists; [apply _|]. intros Hall. apply Hnot. split.
        - intros Hnil. rewrite Hnil in Hflagged. by apply elem_of_nil in Hflagged.
        - by apply Forall_forall. }
      apply Exists_exists in Hex as (flagged' & Hflagged' & Hnotin).
      destruct (flagged_sets_forward _ Hflagged') as (authority & vote & Hin & Hvotes & Hiff).
      exists authority, vote. split; [done|]. split; [done|].
      intros Hflags. by apply Hnotin, Hiff.
  - intros [(authority & vote & Hin & Hflags) (authority' & vote' & Hin' & Hvotes' & Hnot)].
    split.
    + destruct (flagged_sets_backward authority vote Hin) as (flagged & Hflagged & Hiff);
        [by exists fp|].
      exists flagged. split; [done|]. by apply Hiff.
    + intros [_ Hall].
      destruct (flagged_sets_backward authority' vote' Hin' Hvotes')
        as (flagged & Hflagged & Hiff).
      by apply Hnot, Hiff, Hall.
Qed.

End bad_exits.

Lemma elem_of_concat {A} (x : A) (ls : list (list A)) :
  x ∈ concat ls ↔ ∃ l, l ∈ ls ∧ x ∈ l.
Proof.
  induction ls as [|l ls IH]; simpl.
  - split; [intros H; by apply elem_of_nil in H|].
    intros (l & Hl & _). by apply elem_of_nil in Hl.
  - rewrite elem_of_app, IH. split.
    + intros [H|(l' & Hl' & Hx)]; [exists l; split; [by left|done]|].
      exists l'. split; [by right|done].
    + intros (l' & Hl' & Hx). apply elem_of_cons in Hl' as [->|Hl']; [by left|].
      right. by exists l'.
Qed.

Lemma Forall2_elem_l {A B} (Q : A → B → Prop) (l : list A) (k : list B) (x : A) :
  Forall2 Q l k → x ∈ l → ∃ y, y ∈ k ∧ Q x y.
Proof.
  induction 1 as [|x' y' l k HQ _ IH]; intros Hx; [by apply elem_of_nil in Hx|].
  apply elem_of_cons in Hx as [->|Hx].
  - exists y'. split; [by left|done].
  - destruct (IH Hx) as (y & Hy & HQy). exists y. split; [by right|done].
Qed.

Lemma Forall2_elem_r {A B} (Q : A → B → Prop) (l : list A) (k : list B) (y : B) :
  Forall2 Q l k → y ∈ k → ∃ x, x ∈ l ∧ Q x y.
Proof.
  induction 1 as [|x' y' l k HQ _ IH]; intros Hy; [by apply elem_of_nil in Hy|].
  apply elem_of_cons in Hy as [->|Hy].
  - exists x'. split; [by left|done].
  - destruct (IH Hy) as (x & Hx & HQx). exists x. split; [by right|done].
Qed.

Lemma in_routers_lists (fp : string) (document : Document) :
  in_routers fp document = true ↔ lists_relay document fp.
Proof. apply bool_decide_eq_true. Qed.

Lemma routers_getitem_total (fp : string) (document : Document) :
  lists_relay document fp → ∃ entry, outcome (routers_getitem fp document) = Ok entry.
Proof.
  unfold lists_relay, routers_getitem. intros Hin.
  destruct (List.find _ _) as [entry|] eqn:Hfind; [by exists entry|].
  apply list_elem_of_fmap in Hin as (desc & -> & Hdesc).
  apply list_elem_of_In in Hdesc.
  pose proof (find_none _ _ Hfind desc Hdesc) as Hfalse. simpl in Hfalse.
  by rewrite bool_decide_eq_true_2 in Hfalse.
Qed.

Section bad_exit_rule.
Variable votes : list (string * Document).
Variable latest : Document.
Hypothesis votes_nodup : NoDup votes.*1.

Lemma bad_exit_sides_outcome (fp : string) (authorities : list string) :
  (∀ a, a ∈ authorities → ∃ vote, (a, vote) ∈ votes) →
  ∃ without_flag not_in_vote,
    outcome (bad_exit_sides votes fp authorities) = Ok (without_flag, not_in_vote)
    ∧ ∀ a, a ∈ without_flag ↔
           a ∈ authorities ∧ ∃ vote, (a, vote) ∈ votes ∧ lists_relay vote fp.
Proof.
  unfold bad_exit_sides.
  set (body := fun (split : list string * list string) (authority : string) => _).
  assert (Hgen : ∀ authorities without_flag not_in_vote,
    (∀ a, a ∈ authorities → ∃ vote, (a, vote) ∈ votes) →
    ∃ more_without more_not,
      outcome (for_each authorities (without_flag, not_in_vote) body)
        = Ok (without_flag ++ more_without, not_in_vote ++ more_not)
      ∧ ∀ a, a ∈ more_without ↔
             a ∈ authorities ∧ ∃ vote, (a, vote) ∈ votes ∧ lists_relay vote fp).
  { clear authorities.
    induction authorities as [|authority authorities IH];
      intros without_flag not_in_vote Hvotes.
    - exists [], []. simpl. rewrite !app_nil_r. split; [done|].
      intros a. split; [intros H; by apply elem_of_nil in H|].
      intros [H _]. by apply elem_of_nil in H.
    - destruct (Hvotes authority) as [vote Hvote]; [by left|].
      assert (Hrest : ∀ a, a ∈ authorities → ∃ vote, (a, vote) ∈ votes)
        by (intros a Ha; apply Hvotes; by right).
      cbn [for_each]. rewrite outcome_bind. unfold body at 1.
      rewrite outcome_bind. unfold dict_getitem.
      rewrite (dict_get_elem _ _ _ votes_nodup Hvote). cbn [outcome mret M_ret].
      destruct (in_routers fp vote) eqn:Hlists; cbn [outcome mret M_ret].
      + destruct (IH (without_flag ++ [authority]) not_in_vote Hrest)
          as (more_without & more_not & Hout & Hiff).
        exists (authority :: more_without), more_not. rewrite Hout, <- app_assoc.
        split; [done|]. intros a. rewrite !elem_of_cons, Hiff. split.
        * intros [->|[Ha Hex]]; [|by auto].
          split; [by left|]. exists vote. split; [done|]. by apply in_routers_lists.
        * intros [[->|Ha] Hex]; [by left|by right].
      + destruct (IH without_flag (not_in_vote ++ [authority]) Hrest)
          as (more_without & more_not & Hout & Hiff).
        exists more_without, (authority :: more_not). rewrite Hout, <- app_assoc.
        split; [done|]. intros a. rewrite elem_of_cons, Hiff. split.
        * intros [Ha Hex]. by auto.
        * intros [[->|Ha] Hex]; [|done].
          destruct Hex as (vote' & Hvote' & Hlists').
          rewrite (vote_unique votes votes_nodup _ _ _ Hvote' Hvote) in Hlists'.
          apply in_routers_lists in Hlists'. congruence. }
  intros Hvotes. destruct (Hgen authorities [] [] Hvotes) as (w & n & Hout & Hiff).
  by exists w, n.
Qed.

Lemma without_flag_unflagged (fp : string) (without_flag : list string) :
  (∀ a, a ∈ without_flag ↔
        a ∈ list_difference (remove_dups (omap bad_exit_entry votes).*1)
              (remove_dups (map fst (filter (fun entry => fp ∈ entry.2)
                                            (omap bad_exit_entry votes))))
        ∧ ∃ vote, (a, vote) ∈ votes ∧ lists_relay vote fp) →
  ∀ a, a ∈ without_flag ↔ unflagged_side votes fp a.
Proof.
  intros Hiff a. rewrite Hiff, list_elem_of_difference.
  rewrite (elem_of_voting votes), (elem_of_with_flag votes).
  unfold unflagged_side, flagged_side. split.
  - intros [[(vote & Hvote & Hvotes) Hnot] (vote' & Hvote' & Hlists)].
    rewrite (vote_unique votes votes_nodup _ _ _ Hvote' Hvote) in Hlists.
    exists vote. repeat split; [done..|]. intros Hflags. apply Hnot. by exists vote.
  - intros (vote & Hvote & Hvotes & Hlists & Hnot). split; [split|].
    + by exists vote.
    + intros (vote' & Hvote' & Hflags).
      by rewrite (vote_unique votes votes_nodup _ _ _ Hvote' Hvote) in Hflags.
    + by exists vote.
Qed.

Lemma bad_exit_issue_outcome (issues : list Issue) (fp : string) :
  ∃ added,
    outcome (bad_exit_issue (Some latest) votes (omap bad_exit_entry votes)
               (remove_dups (omap bad_exit_entry votes).*1) issues fp)
      = Ok (issues ++ added)
    ∧ bad_exit_report latest votes fp added.
Proof.
  unfold bad_exit_issue.
  set (with_flag := remove_dups (map fst (filter (fun entry => fp ∈ entry.2)
                                   (omap bad_exit_entry votes)))).
  destruct (bad_exit_sides_outcome fp
              (list_difference (remove_dups (omap bad_exit_entry votes).*1) with_flag))
    as (without_flag & not_in_vote & Hsides & Hiff).
  { intros a Ha. apply list_elem_of_difference in Ha as [Ha _].
    apply (elem_of_voting votes) in Ha as (vote & Hvote & _). by exists vote. }
  pose proof (without_flag_unflagged fp without_flag Hiff) as Hwithout.
  rewrite outcome_bind, Hsides. cbv beta iota.
  destruct without_flag as [|first others].
  { exists []. rewrite app_nil_r. split; [done|]. split.
    - intros issue Hissue. by apply elem_of_nil in Hissue.
    - intros [b Hb] _. apply Hwithout in Hb. by apply elem_of_nil in Hb. }
  rewrite outcome_bind. cbn [attribute_of outcome mret M_ret].
  destruct (in_routers fp latest) eqn:Hlists; cbn [negb].
  2:{ exists []. rewrite app_nil_r. split; [by rewrite outcome_bind|]. split.
      - intros issue Hissue. by apply elem_of_nil in Hissue.
      - intros _ Hlatest. apply in_routers_lists in Hlatest. congruence. }
  apply in_routers_lists in Hlists.
  destruct (routers_getitem_total fp latest Hlists) as [entry Hentry].
  rewrite outcome_bind, Hentry. cbv zeta. cbn [outcome mret M_ret].
  eexists [_]. split; [reflexivity|]. split.
  - intros issue Hissue. apply list_elem_of_singleton in Hissue as ->.
    split; [|split; [|done]].
    + unfold new_Issue, dict_update. cbn [_attr foldl fst snd].
      rewrite lookup_insert_ne by done. rewrite lookup_insert_ne by done.
      by rewrite lookup_insert_eq.
    + exists first. apply Hwithout. by left.
  - intros _ _. eexists _, _. split; [reflexivity|]. split; [done|]. split; [done|].
    split.
    { unfold new_Issue, dict_update. cbn [_authorities foldl fst snd].
      by rewrite lookup_insert_eq. }
    assert (Hflags : consensus_flags latest fp ↔ BADEXIT ∈ flags entry).
    { unfold consensus_flags. rewrite Hentry. split.
      - by intros (entry' & [= <-] & Hflag).
      - intros Hflag. by exists entry. }
    split.
    + intros Hnot. rewrite bool_decide_eq_false_2 by (by rewrite <- Hflags).
      intros a. apply (elem_of_with_flag votes).
    + intros Hyes. rewrite bool_decide_eq_true_2 by (by rewrite <- Hflags).
      exact Hwithout.
Qed.

End bad_exit_rule.

(** C9, the claim as stated fails: moria1 flags X, dizum and gabelmoo
    list X without the flag, the consensus has X without the flag, and
    no issue is reported: dizum and gabelmoo flag no relay at all, so
    they are not among the authorities that vote the flag. *)
Lemma bad_exit_disagreement_of_non_voters :
  flags_bad_exit Sample.moria1_vote Sample.X
  ∧ (lists_relay Sample.dizum_vote Sample.X ∧ ¬ flags_bad_exit Sample.dizum_vote Sample.X)
  ∧ (lists_relay Sample.gabelmoo_vote Sample.X
     ∧ ¬ flags_bad_exit Sample.gabelmoo_vote Sample.X)
  ∧ (lists_relay Sample.consensus Sample.X ∧ ¬ consensus_flags Sample.consensus Sample.X)
  ∧ outcome (bad_exits_in_sync (Sample.env_at 14) (Some Sample.consensus)
               Sample.consensuses Sample.votes_unvoted) = Ok (ReturnsList []).
Proof.
  repeat split.
  - apply elem_of_flagged, (bool_decide_unpack _). by vm_compute.
  - unfold lists_relay. apply (bool_decide_unpack _). by vm_compute.
  - rewrite <- elem_of_flagged. apply (bool_decide_unpack _). by vm_compute.
  - unfold lists_relay. apply (bool_decide_unpack _). by vm_compute.
  - rewrite <- elem_of_flagged. apply (bool_decide_unpack _). by vm_compute.
  - unfold lists_relay. apply (bool_decide_unpack _). by vm_compute.
  - intros (entry & Hentry & Hflag). vm_compute in Hentry. injection Hentry as <-.
    revert Hflag. apply (bool_decide_unpack _). by vm_compute.
Qed.

(** C9, amended. The authorities compared are those that vote the
    BadExit flag, that is, flag at least one relay. When some authority
    flags X, some authority that votes the flag lists X without it, and
    the latest consensus has X, the check reports a NOTICE issue for X
    that goes to the authorities flagging X if the consensus does not
    flag X, and to the voting authorities listing X without the flag if
    it does. Every issue reported is of this kind: no issue is reported
    for a relay that the consensus does not have, nor for one that no
    voting authority lists without the flag. *)
Theorem bad_exits_in_sync_minority (env : Env) (latest : Document)
    (consensuses votes : list (string * Document)) :
  NoDup votes.*1 →
  ∃ issues,
    (outcome (bad_exits_in_sync env (Some latest) consensuses votes) = Ok (ReturnsList issues)
     ∨ (outcome (bad_exits_in_sync env (Some latest) consensuses votes) = Ok ReturnsNone
        ∧ issues = []))
    ∧ (∀ fp,
         (∃ a, flagged_side votes fp a) → (∃ b, unflagged_side votes fp b) →
         lists_relay latest fp →
         ∃ issue targets,
           issue ∈ issues
           ∧ _runlevel issue = NOTICE ∧ _template issue = "BADEXIT_OUT_OF_SYNC"
           ∧ _attr issue !! "fingerprint" = Some (PyStr fp)
           ∧ _authorities issue = PyList targets
           ∧ (¬ consensus_flags latest fp → ∀ a, a ∈ targets ↔ flagged_side votes fp a)
           ∧ (consensus_flags latest fp → ∀ a, a ∈ targets ↔ unflagged_side votes fp a))
    ∧ (∀ issue, issue ∈ issues →
         ∃ fp, _attr issue !! "fingerprint" = Some (PyStr fp)
               ∧ (∃ a, flagged_side votes fp a) ∧ (∃ b, unflagged_side votes fp b)
               ∧ lists_relay latest fp).
Proof.
  intros Hnodup. unfold bad_exits_in_sync. rewrite (bad_exit_votes_omap votes Hnodup).
  destruct (omap bad_exit_entry votes) as [|first rest] eqn:Hbad.
  - exists []. split; [by right|]. split.
    + intros fp [a Ha] _ _. apply (elem_of_with_flag votes) in Ha.
      rewrite Hbad in Ha. by apply elem_of_nil in Ha.
    + intros issue Hissue. by apply elem_of_nil in Hissue.
  - rewrite <- Hbad.
    destruct (for_each_appending (bad_exit_report latest votes)
                (bad_exit_issue (Some latest) votes (omap bad_exit_entry votes)
                   (remove_dups (omap bad_exit_entry votes).*1))
                (list_difference (set_union (omap bad_exit_entry votes).*2)
                                 (set_intersection (omap bad_exit_entry votes).*2))
                (fun fp acc _ => bad_exit_issue_outcome votes latest Hnodup acc fp) [])
      as (addeds & Hout & Hreports).
    exists (concat addeds). split.
    { left. rewrite outcome_bind.
      match goal with
      | |- context [outcome (for_each ?l ?acc ?body)] =>
          replace (outcome (for_each l acc body)) with (Ok (@nil Issue ++ concat addeds))
            by (symmetry; exact Hout)
      end. done. }
    split.
    + intros fp Hflagged Hunflagged Hlatest.
      assert (Hfp : fp ∈ list_difference (set_union (omap bad_exit_entry votes).*2)
                                         (set_intersection (omap bad_exit_entry votes).*2)).
      { apply (elem_of_disagreed votes). split; [done|].
        destruct Hunflagged as (b & vote & Hvote & Hvotes & _ & Hnot). by exists b, vote. }
      destruct (Forall2_elem_l _ _ _ _ Hreports Hfp) as (added & Hadded & Hattr & Hreport).
      destruct (Hreport Hunflagged Hlatest)
        as (issue & targets & -> & Hlevel & Htemplate & Hto & Hno & Hyes).
      exists issue, targets. split; [apply elem_of_concat; exists [issue]; split; [done|by left]|].
      repeat split; [done..|apply (Hattr issue); by left|done|apply Hno|apply Hno|
                     apply Hyes|apply Hyes]; done.
    + intros issue Hissue. apply elem_of_concat in Hissue as (added & Hadded & Hin).
      destruct (Forall2_elem_r _ _ _ _ Hreports Hadded) as (fp & Hfp & Hattr & _).
      destruct (Hattr issue Hin) as (Hfingerprint & Hunflagged & Hlatest).
      apply (elem_of_disagreed votes) in Hfp as [Hflagged _]. by exists fp.
Qed.

Lemma bad_exits_in_sync_minority_witness :
  NoDup Sample.votes_voted.*1
  ∧ ∃ issue targets,
      outcome (bad_exits_in_sync (Sample.env_at 14) (Some Sample.consensus)
                 Sample.consensuses Sample.votes_voted) = Ok (ReturnsList [issue])
      ∧ _runlevel issue = NOTICE
      ∧ _authorities issue = PyList targets
      ∧ ∀ a, a ∈ targets ↔ flagged_side Sample.votes_voted Sample.X a.
Proof.
  assert (Hnodup : NoDup Sample.votes_voted.*1)
    by (apply (bool_decide_unpack _); by vm_compute).
  split; [exact Hnodup|].
  destruct (bad_exits_in_sync_minority (Sample.env_at 14) Sample.consensus
              Sample.consensuses Sample.votes_voted Hnodup)
    as (issues & Hout & Hreported & _).
  destruct (Hreported Sample.X) as (issue & targets & Hin & Hlevel & _ & _ & Hto & Hno & _).
  - exists "moria1", Sample.moria1_vote. split; [by left|].
    apply elem_of_flagged, (bool_decide_unpack _). by vm_compute.
  - exists "gabelmoo", Sample.gabelmoo_voting. split; [by do 2 right; left|].
    split; [exists Sample.Y|split].
    + apply elem_of_flagged, (bool_decide_unpack _). by vm_compute.
    + unfold lists_relay. apply (bool_decide_unpack _). by vm_compute.
    + rewrite <- elem_of_flagged. apply (bool_decide_unpack _). by vm_compute.
  - unfold lists_relay. apply (bool_decide_unpack _). by vm_compute.
  - exists issue, targets.
    assert (Hnot : ¬ consensus_flags Sample.consensus Sample.X).
    { intros (entry & Hentry & Hflag). vm_compute in Hentry. injection Hentry as <-.
      revert Hflag. apply (bool_decide_unpack _). by vm_compute. }
    destruct Hout as [Hout|[Hout _]]; [|by vm_compute in Hout].
    assert (Hone : ∃ one, outcome (bad_exits_in_sync (Sample.env_at 14)
              (Some Sample.consensus) Sample.consensuses Sample.votes_voted)
              = Ok (ReturnsList [one])) by (eexists; by vm_compute).
    destruct Hone as [one Hone]. rewrite Hone in Hout. injection Hout as <-.
    apply list_elem_of_singleton in Hin as ->.
    split; [exact Hone|]. split; [done|]. split; [done|]. by apply Hno.
Defined.

(** The rule on the votes of the sample in which gabelmoo votes the
    flag: one NOTICE, for moria1. *)
Lemma bad_exits_in_sync_example :
  ∃ issue,
    outcome (bad_exits_in_sync (Sample.env_at 14) (Some Sample.consensus)
               Sample.consensuses Sample.votes_voted) = Ok (ReturnsList [issue])
    ∧ _runlevel issue = NOTICE
    ∧ _authorities issue = PyList ["moria1"]
    ∧ _attr issue !! "counts" = Some (PyStr "with flag: moria1, without flag: gabelmoo").
Proof. eexists. by vm_compute. Qed.

(** * Further properties *)

(** ** Suppression keys and the rate limit *)

Lemma replace_space_chars (s : string) : " " ∉ chars (replace_space s).
Proof.
  induction s as [|c s IH]; simpl; [apply not_elem_of_nil|].
  apply not_elem_of_cons. split; [|done].
  destruct (Ascii.eqb c " ") eqn:Hc; [done|].
  intros [= Heq]. apply Ascii.eqb_neq in Hc. congruence.
Qed.

Lemma format_key_replaced CONFIG (issue : Issue) blanked key :
  outcome (format_key CONFIG issue blanked) = Ok key → ∃ text, key = replace_space text.
Proof.
  unfold format_key. rewrite outcome_bind.
  destruct (outcome (getitem _ _)) as [fmt|]; [|done].
  rewrite outcome_bind. destruct (outcome (lift _)) as [text|]; [|done].
  intros [= <-]. by exists text.
Qed.

(** X1. A suppression key never contains a space, whatever the template
    and the parameters of the issue: every branch of
    [get_suppression_key] ends by replacing the spaces of the text it
    formatted. *)
Theorem suppression_key_has_no_space CONFIG (issue : Issue) (key : string) :
  outcome (get_suppression_key CONFIG issue) = Ok key → " " ∉ chars key.
Proof.
  intros Hkey.
  assert (∃ text, key = replace_space text) as [text ->]; [|apply replace_space_chars].
  revert Hkey. unfold get_suppression_key.
  repeat case_decide; try apply format_key_replaced.
  rewrite outcome_bind. destruct (outcome (get_message CONFIG issue)) as [text|]; [|done].
  intros [= <-]. by exists text.
Qed.

Lemma suppression_key_has_no_space_witness :
  outcome (get_suppression_key Sample.config (Sample.missing_votes ["moria1"]))
    = Ok Sample.missing_votes_key
  ∧ " " ∉ chars Sample.missing_votes_key.
Proof.
  assert (Hkey : outcome (get_suppression_key Sample.config (Sample.missing_votes ["moria1"]))
                 = Ok Sample.missing_votes_key) by reflexivity.
  split; [exact Hkey|].
  exact (suppression_key_has_no_space Sample.config _ _ Hkey).
Defined.

(** X2. When the template of an issue has no message configured, the
    key of a template whose parameters are blanked (the five templates
    with volatile parameters) cannot be derived: [get_suppression_key]
    raises [KeyError]. For every other template the key is the empty
    string and the missing message is logged, as [get_message] does. *)
Theorem suppression_key_without_message CONFIG (issue : Issue) :
  msg CONFIG !! _template issue = None →
  (volatile_parameters (_template issue) ≠ [] →
     outcome (get_suppression_key CONFIG issue) = Raise (KeyError (_template issue)))
  ∧ (volatile_parameters (_template issue) = [] →
     get_suppression_key CONFIG issue = mkM [LogMissingMsg (_template issue)] (Ok "")).
Proof.
  intros Hmsg.
  assert (Hformat : ∀ blanked,
    outcome (format_key CONFIG issue blanked) = Raise (KeyError (_template issue))).
  { intros blanked. unfold format_key, getitem. by rewrite outcome_bind, Hmsg. }
  unfold get_suppression_key, volatile_parameters.
  repeat case_decide; (split; [intros Hne|intros Hnil]); try done; try apply Hformat.
  unfold get_message. by rewrite Hmsg.
Qed.

Lemma suppression_key_without_message_witness :
  msg Sample.config !! "FLAG_COUNT_DIFFERS" = None
  ∧ outcome (get_suppression_key Sample.config
               (new_Issue NOTICE "FLAG_COUNT_DIFFERS"
                  [("authority", PyStr "moria1"); ("flag", PyStr "Guard");
                   ("consensus_count", PyInt 100); ("vote_count", PyInt 20);
                   ("to", PyList ["moria1"])]))
    = Raise (KeyError "FLAG_COUNT_DIFFERS").
Proof.
  split; [reflexivity|].
  refine (proj1 (suppression_key_without_message Sample.config
                   (new_Issue NOTICE "FLAG_COUNT_DIFFERS"
                      [("authority", PyStr "moria1"); ("flag", PyStr "Guard");
                       ("consensus_count", PyInt 100); ("vote_count", PyInt 20);
                       ("to", PyList ["moria1"])]) eq_refl) _).
  by vm_compute.
Defined.

(** X3. Recording a notice and checking the rate limit compose through
    the key: after [rate_limit_notice] has recorded an issue of non-zero
    duration at time [noticed], [is_rate_limited] answers, for any issue
    with the same key and the non-zero duration [hours], that it is
    suppressed exactly while less than [3600 * hours + 1800] seconds
    have passed since [noticed]. *)
Theorem notice_then_rate_limited CONFIG (store : gmap string Z) (noticed : Z)
    (recorded checked : Issue) (key : string) (recorded_hours hours : Z) :
  outcome (get_suppression_key CONFIG recorded) = Ok key →
  outcome (get_suppression_key CONFIG checked) = Ok key →
  outcome (get_suppression_duration CONFIG recorded) = Ok recorded_hours →
  outcome (get_suppression_duration CONFIG checked) = Ok hours →
  recorded_hours ≠ 0 → hours ≠ 0 →
  ∃ store',
    outcome (rate_limit_notice CONFIG store noticed recorded) = Ok store'
    ∧ ∀ now, outcome (is_rate_limited CONFIG store' now checked)
             = Ok (bool_decide (now - noticed < 3600 * hours + 1800)).
Proof.
  intros Hrecorded Hchecked Hrecorded_hours Hhours Hne Hne'.
  exists (<[key := noticed]> store). split.
  - rewrite (rate_limit_notice_outcome _ _ _ _ _ _ Hrecorded Hrecorded_hours).
    by rewrite decide_False.
  - intros now. rewrite (is_rate_limited_outcome _ _ _ _ _ _ Hchecked Hhours).
    rewrite lookup_insert_eq. simpl. f_equal. apply bool_decide_ext. tauto.
Qed.

Lemma notice_then_rate_limited_witness :
  ∃ store',
    outcome (rate_limit_notice Sample.config ∅ Sample.current_time
               (Sample.unmeasured "moria1" 5 100 5)) = Ok store'
    ∧ outcome (is_rate_limited Sample.config store' (Sample.current_time + 3600)
                 (Sample.unmeasured "moria1" 40 200 20)) = Ok true.
Proof.
  destruct (notice_then_rate_limited Sample.config ∅ Sample.current_time
              (Sample.unmeasured "moria1" 5 100 5) (Sample.unmeasured "moria1" 40 200 20)
              "As_a_bandwidth_authority_moria1_lacked_a_measurement_for_0_of_0_relays_(0%)"
              24 24 eq_refl eq_refl eq_refl eq_refl ltac:(done) ltac:(done))
    as (store' & Hnotice & Hcheck).
  exists store'. split; [exact Hnotice|]. by rewrite Hcheck.
Defined.

(** X4. Recording a notice leaves the rate limit of every issue with
    another key as it was: the check of such an issue gives the same
    answer and the same log on the store before and after. *)
Theorem notice_frames_other_keys CONFIG (store store' : gmap string Z) (noticed now : Z)
    (recorded other : Issue) (key other_key : string) :
  outcome (get_suppression_key CONFIG recorded) = Ok key →
  outcome (get_suppression_key CONFIG other) = Ok other_key →
  key ≠ other_key →
  outcome (rate_limit_notice CONFIG store noticed recorded) = Ok store' →
  is_rate_limited CONFIG store' now other = is_rate_limited CONFIG store now other.
Proof.
  intros Hkey Hother Hne Hnotice.
  destruct (get_suppression_duration_total CONFIG recorded) as [hours Hhours].
  rewrite (rate_limit_notice_outcome _ _ _ _ _ _ Hkey Hhours) in Hnotice.
  injection Hnotice as <-. case_decide; [done|].
  unfold is_rate_limited, mbind, M_bind. rewrite Hother.
  destruct (outcome (get_suppression_duration CONFIG other)); [|done].
  by rewrite lookup_insert_ne.
Qed.

Lemma notice_frames_other_keys_witness :
  ∃ store',
    outcome (rate_limit_notice Sample.config Sample.last_notified Sample.current_time
               Sample.expiring) = Ok store'
    ∧ is_rate_limited Sample.config store' Sample.current_time
        (Sample.missing_votes ["moria1"])
      = is_rate_limited Sample.config Sample.last_notified Sample.current_time
          (Sample.missing_votes ["moria1"]).
Proof.
  eexists. split; [reflexivity|].
  apply (notice_frames_other_keys Sample.config Sample.last_notified _ Sample.current_time
           Sample.current_time Sample.expiring (Sample.missing_votes ["moria1"])
           Sample.expiring_key Sample.missing_votes_key);
    [reflexivity | reflexivity | by vm_compute | reflexivity].
Defined.

(** ** Destinations *)

Section dict_facts.
Context {K V : Type} `{EqDecision K}.

Lemma dict_set_keys (key k : K) (v : V) (d : list (K * V)) :
  k ∈ (dict_set key v d).*1 ↔ k = key ∨ k ∈ d.*1.
Proof.
  induction d as [|[k' w] d IH]; simpl.
  - rewrite list_elem_of_singleton. split; [by left|]. intros [?|H]; [done|].
    by apply elem_of_nil in H.
  - case_decide as Hk; simpl; rewrite !elem_of_cons.
    + subst. tauto.
    + rewrite IH. tauto.
Qed.

Lemma dict_set_entries (key : K) (v : V) (d : list (K * V)) (entry : K * V) :
  entry ∈ dict_set key v d → entry = (key, v) ∨ entry ∈ d.
Proof.
  induction d as [|[k' w] d IH]; simpl.
  - rewrite list_elem_of_singleton. by left.
  - case_decide as Hk; rewrite !elem_of_cons.
    + subst. intros [->|?]; [by left|by right; right].
    + intros [->|Hin]; [by right; left|].
      destruct (IH Hin); [by left|by right; right].
Qed.

Lemma dict_set_NoDup (key : K) (v : V) (d : list (K * V)) :
  NoDup d.*1 → NoDup (dict_set key v d).*1.
Proof.
  induction d as [|[k' w] d IH]; simpl; intros Hnodup.
  - apply NoDup_singleton.
  - apply NoDup_cons in Hnodup as [Hfresh Hnodup].
    case_decide as Hk; simpl; apply NoDup_cons.
    + done.
    + split; [|by apply IH]. rewrite dict_set_keys. intros [->|?]; done.
Qed.

Lemma dict_get_set_eq (key : K) (v : V) (d : list (K * V)) :
  dict_get key (dict_set key v d) = Some v.
Proof.
  induction d as [|[k' w] d IH]; simpl.
  - by rewrite decide_True.
  - case_decide as Hk; simpl.
    + by rewrite decide_True.
    + by rewrite decide_False.
Qed.

Lemma dict_get_set_ne (key k : K) (v : V) (d : list (K * V)) :
  key ≠ k → dict_get k (dict_set key v d) = dict_get k d.
Proof.
  intros Hne. induction d as [|[k' w] d IH]; simpl.
  - by rewrite decide_False.
  - case_decide as Hk; simpl.
    + subst. by rewrite !decide_False.
    + case_decide; [done|apply IH].
Qed.

Lemma dict_get_keys (k : K) (d : list (K * V)) :
  k ∈ d.*1 ↔ is_Some (dict_get k d).
Proof.
  induction d as [|[k' w] d IH]; simpl.
  - split; [intros H0; by apply elem_of_nil in H0|by intros [? ?]].
  - rewrite elem_of_cons. case_decide as Hk.
    + subst. split; [by eexists|by left].
    + rewrite IH. split; [intros [?|?]; [congruence|done]|by right].
Qed.

End dict_facts.

(** The dict that the loop of [get_destinations] builds over the
    authorities it iterates. *)
Lemma destinations_fold CONFIG (authorities : list string)
    (start : list (string * option Destination)) :
  NoDup start.*1 →
  (∀ a, a ∈ start.*1 → dict_get a start = Some (contact_of CONFIG a)) →
  let destinations :=
    foldl (fun destinations authority =>
             match contact_address CONFIG !! authority with
             | Some address =>
                 let is_via_bcc := bool_decide (authority ∈ contact_via_bcc CONFIG) in
                 dict_set authority (Some {| address := address; bcc := is_via_bcc |})
                          destinations
             | None => dict_set authority None destinations
             end) start authorities in
  NoDup destinations.*1
  ∧ (∀ a, a ∈ destinations.*1 ↔ a ∈ start.*1 ∨ a ∈ authorities)
  ∧ (∀ a, a ∈ destinations.*1 → dict_get a destinations = Some (contact_of CONFIG a)).
Proof.
  revert start. induction authorities as [|authority authorities IH];
    intros start Hnodup Hstart; simpl.
  - split; [done|]. split; [|done]. intros a. split; [by left|].
    intros [?|H]; [done|by apply elem_of_nil in H].
  - set (next := match contact_address CONFIG !! authority with
                 | Some address => _ | None => _ end).
    assert (Hnext : next = dict_set authority (contact_of CONFIG authority) start).
    { unfold next, contact_of. by destruct (contact_address CONFIG !! authority). }
    destruct (IH next) as (Hnd & Hkeys & Hvalues).
    + rewrite Hnext. by apply dict_set_NoDup.
    + rewrite Hnext. intros a Ha. destruct (decide (authority = a)) as [->|Hne].
      * by rewrite dict_get_set_eq.
      * rewrite dict_get_set_ne by done. apply Hstart.
        apply dict_set_keys in Ha as [?|?]; [congruence|done].
    + split; [done|]. split; [|done]. intros a. rewrite Hkeys, Hnext, dict_set_keys.
      rewrite elem_of_cons. tauto.
Qed.

(** X5. For an issue whose [to] is a list, [get_destinations] returns a
    dict that has every authority of the list as a key, once, and no
    other key; the value is the configured address with its bcc flag,
    and [None] for an authority without a configured address, which is
    kept rather than dropped. *)
Theorem get_destinations_covers_authorities CONFIG (issue : Issue)
    (authorities : list string) :
  _authorities issue = PyList authorities →
  ∃ destinations,
    outcome (get_destinations CONFIG issue) = Ok destinations
    ∧ NoDup destinations.*1
    ∧ (∀ a, a ∈ destinations.*1 ↔ a ∈ authorities)
    ∧ (∀ a, a ∈ authorities → dict_get a destinations = Some (contact_of CONFIG a)).
Proof.
  intros Hto. unfold get_destinations. rewrite outcome_bind, Hto. simpl.
  eexists. split; [reflexivity|].
  destruct (destinations_fold CONFIG authorities []) as (Hnodup & Hkeys & Hvalues).
  - constructor.
  - intros a Ha. by apply elem_of_nil in Ha.
  - split; [exact Hnodup|]. split.
    + intros a. rewrite Hkeys. split; [intros [H|?]; [by apply elem_of_nil in H|done]|by right].
    + intros a Ha. apply Hvalues, Hkeys. by right.
Qed.

Lemma get_destinations_covers_authorities_witness :
  ∃ destinations,
    outcome (get_destinations Sample.config (Sample.missing_votes ["moria1"; "longclaw"]))
      = Ok destinations
    ∧ dict_get "moria1" destinations
      = Some (Some {| address := "moria1@example.org"; bcc := false |})
    ∧ dict_get "longclaw" destinations = Some None.
Proof.
  destruct (get_destinations_covers_authorities Sample.config
              (Sample.missing_votes ["moria1"; "longclaw"]) ["moria1"; "longclaw"] eq_refl)
    as (destinations & Hout & _ & _ & Hvalues).
  exists destinations. split; [exact Hout|]. split.
  - rewrite (Hvalues "moria1") by (by left). reflexivity.
  - rewrite (Hvalues "longclaw") by (by right; left). reflexivity.
Defined.

(** ** Further rules *)

(** A loop that appends to its accumulator is a [flat_map]. *)
Lemma foldl_appending {A B} (g : A → list B) (l : list A) (start : list B) :
  foldl (fun acc x => acc ++ g x) start l = start ++ flat_map g l.
Proof.
  revert start. induction l as [|x l IH]; intros start; simpl.
  - by rewrite app_nil_r.
  - by rewrite IH, app_assoc.
Qed.

Lemma foldl_ext_in {A B} (f g : B → A → B) (l : list A) (start : B) :
  (∀ acc x, x ∈ l → f acc x = g acc x) → foldl f start l = foldl g start l.
Proof.
  revert start. induction l as [|x l IH]; intros start Hfg; simpl; [done|].
  rewrite Hfg by (by left). apply IH. intros acc y Hy. apply Hfg. by right.
Qed.

Lemma map_is_fmap {A B} (f : A → B) (l : list A) : map f l = f <$> l.
Proof. induction l as [|x l IH]; simpl; [done|by rewrite IH]. Qed.

Lemma missing_authority_descriptor_issues env latest consensuses votes :
  outcome (missing_authority_descriptor env latest consensuses votes)
  = Ok (ReturnsList
      (flat_map (fun entry : string * Document =>
         flat_map (fun peer =>
                     if in_routers (Authority.fingerprint peer) entry.2 then []
                     else [missing_authority_desc entry.1 peer])
                  (map snd (DIRECTORY_AUTHORITIES env)))
         votes)).
Proof.
  unfold missing_authority_descriptor. simpl. do 2 f_equal.
  etrans; [|apply (foldl_appending _ votes [])].
  apply foldl_ext_in. intros acc [authority vote] _. cbn [fst snd].
  etrans; [|apply foldl_appending]. apply foldl_ext_in. intros acc' peer _.
  destruct (in_routers _ _); [by rewrite app_nil_r|done].
Qed.

Lemma missing_authority_descriptor_elem env latest consensuses votes :
  ∃ issues,
    outcome (missing_authority_descriptor env latest consensuses votes)
      = Ok (ReturnsList issues)
    ∧ (∀ issue, issue ∈ issues ↔
         ∃ authority vote peer,
           (authority, vote) ∈ votes ∧ peer ∈ (DIRECTORY_AUTHORITIES env).*2
           ∧ ¬ lists_relay vote (Authority.fingerprint peer)
           ∧ issue = missing_authority_desc authority peer).
Proof.
  eexists. split; [apply missing_authority_descriptor_issues|].
  intros issue. rewrite list_elem_of_In, in_flat_map. split.
  - intros ([authority vote] & Hvote & Hissue). apply in_flat_map in Hissue
      as (peer & Hpeer & Hissue). simpl in Hissue.
    exists authority, vote, peer. apply list_elem_of_In in Hvote, Hpeer.
    destruct (in_routers _ _) eqn:Hlists; [done|].
    destruct Hissue as [<-|[]]. repeat split; [done..|].
    rewrite <- in_routers_lists. congruence.
  - intros (authority & vote & peer & Hvote & Hpeer & Hnot & ->).
    exists (authority, vote). split; [by apply list_elem_of_In|].
    apply in_flat_map. exists peer. split; [by apply list_elem_of_In|]. simpl.
    destruct (in_routers _ _) eqn:Hlists; [|by left].
    by apply in_routers_lists in Hlists.
Qed.

Lemma unlisted_peers (authority : string) (vote : Document) (peers : list Authority.t) :
  flat_map (fun peer =>
              if in_routers (Authority.fingerprint peer) vote then []
              else [missing_authority_desc authority peer]) peers
  = map (missing_authority_desc authority)
        (filter (fun peer => ¬ lists_relay vote (Authority.fingerprint peer)) peers).
Proof.
  induction peers as [|peer peers IH]; simpl; [done|].
  rewrite filter_cons, IH.
  destruct (in_routers (Authority.fingerprint peer) vote) eqn:Hlists.
  - apply in_routers_lists in Hlists. by rewrite decide_False by tauto.
  - rewrite decide_True; [done|]. rewrite <- in_routers_lists. congruence.
Qed.

(** X6. [missing_authority_descriptor] never raises and returns, vote by
    vote in the order of the votes and peer by peer in the order of the
    registry, exactly one WARNING for every registry authority whose
    fingerprint the vote does not list, and nothing else; so it reports
    nothing exactly when every vote lists every authority of the
    registry. *)
Theorem missing_authority_descriptor_pairs env latest consensuses votes :
  ∃ issues,
    outcome (missing_authority_descriptor env latest consensuses votes)
      = Ok (ReturnsList issues)
    ∧ issues
      = flat_map (fun entry : string * Document =>
                    map (missing_authority_desc entry.1)
                        (filter (fun peer =>
                                   ¬ lists_relay entry.2 (Authority.fingerprint peer))
                                (DIRECTORY_AUTHORITIES env).*2))
                 votes
    ∧ (∀ issue, issue ∈ issues ↔
         ∃ authority vote peer,
           (authority, vote) ∈ votes ∧ peer ∈ (DIRECTORY_AUTHORITIES env).*2
           ∧ ¬ lists_relay vote (Authority.fingerprint peer)
           ∧ issue = missing_authority_desc authority peer)
    ∧ (issues = [] ↔
         ∀ authority vote peer,
           (authority, vote) ∈ votes → peer ∈ (DIRECTORY_AUTHORITIES env).*2 →
           lists_relay vote (Authority.fingerprint peer)).
Proof.
  destruct (missing_authority_descriptor_elem env latest consensuses votes)
    as (issues & Hout & Hiff).
  exists issues. split; [done|]. split; [|split; [exact Hiff|split]].
  - rewrite missing_authority_descriptor_issues in Hout. injection Hout as <-.
    rewrite <- (map_is_fmap snd (DIRECTORY_AUTHORITIES env)).
    clear Hiff. induction votes as [|[authority vote] votes IH]; simpl; [done|].
    by rewrite unlisted_peers, IH.
  - intros Hnil authority vote peer Hvote Hpeer.
    destruct (in_routers (Authority.fingerprint peer) vote) eqn:Hlists;
      [by apply in_routers_lists|].
    assert (Hnot : ¬ lists_relay vote (Authority.fingerprint peer))
      by (rewrite <- in_routers_lists; congruence).
    assert (Hin : missing_authority_desc authority peer ∈ issues)
      by (apply Hiff; by exists authority, vote, peer).
    rewrite Hnil in Hin. by apply elem_of_nil in Hin.
  - intros Hall. destruct issues as [|issue rest] eqn:Hissues; [done|].
    assert (Hin : issue ∈ issue :: rest) by (by left).
    apply Hiff in Hin as (authority & vote & peer & Hvote & Hpeer & Hnot & _).
    by destruct Hnot; apply (Hall authority).
Qed.

(** X7. The issues of [missing_authority_descriptor] are built with
    [to = authority], a string where the other rules pass a list, and
    [get_destinations] iterates a string by its characters: the
    destinations of such an issue are keyed by the characters of the
    nickname of the authority, each with the contact configured for that
    character, not by the nickname. *)
Theorem missing_authority_descriptor_destinations CONFIG env latest consensuses votes
    (issues : list Issue) (issue : Issue) :
  outcome (missing_authority_descriptor env latest consensuses votes)
    = Ok (ReturnsList issues) →
  issue ∈ issues →
  ∃ authority destinations,
    authority ∈ votes.*1
    ∧ outcome (get_destinations CONFIG issue) = Ok destinations
    ∧ (∀ k, k ∈ destinations.*1 ↔ k ∈ chars authority)
    ∧ (∀ k, k ∈ destinations.*1 → dict_get k destinations = Some (contact_of CONFIG k)).
Proof.
  intros Hout Hin.
  destruct (missing_authority_descriptor_elem env latest consensuses votes)
    as (issues' & Hout' & Hiff).
  rewrite Hout in Hout'. injection Hout' as <-.
  apply Hiff in Hin as (authority & vote & peer & Hvote & _ & _ & ->).
  exists authority. unfold get_destinations. rewrite outcome_bind.
  assert (Hto : _authorities (missing_authority_desc authority peer) = PyStr authority).
  { unfold missing_authority_desc, new_Issue, dict_update. cbn [_authorities foldl fst snd].
    by rewrite lookup_insert_eq. }
  rewrite Hto. simpl. eexists. split; [|split; [reflexivity|]].
  { apply list_elem_of_fmap. by exists (authority, vote). }
  destruct (destinations_fold CONFIG (chars authority) []) as (_ & Hkeys & Hvalues).
  - constructor.
  - intros a Ha. by apply elem_of_nil in Ha.
  - split; [|exact Hvalues]. intros k. rewrite Hkeys. split; [|by right].
    intros [H|?]; [by apply elem_of_nil in H|done].
Qed.

Lemma missing_authority_descriptor_destinations_witness :
  ∃ authority destinations,
    authority ∈ Sample.votes_unvoted.*1
    ∧ outcome (get_destinations Sample.config
                 (missing_authority_desc "moria1" Sample.moria1)) = Ok destinations
    ∧ (∀ k, k ∈ destinations.*1 ↔ k ∈ chars authority)
    ∧ (∀ k, k ∈ destinations.*1 →
         dict_get k destinations = Some (contact_of Sample.config k)).
Proof.
  eapply (missing_authority_descriptor_destinations Sample.config (Sample.env_at 12) None
            Sample.consensuses Sample.votes_unvoted).
  - reflexivity.
  - vm_compute. left.
Defined.

Lemma stale_authorities_filter env (consensuses : list (string * Document))
    (start : list string) :
  foldl (fun stale_authorities entry =>
           let '(authority, consensus) := entry in
           if decide (timedelta_hours 1
                      < datetime_sub (datetime_now env) (valid_after consensus))
           then stale_authorities ++ [authority]
           else stale_authorities)
        start consensuses
  = start ++ (filter (fun entry : string * Document => stale env entry.2) consensuses).*1.
Proof.
  revert start. induction consensuses as [|[authority consensus] rest IH];
    intros start; simpl.
  - by rewrite app_nil_r.
  - rewrite IH, filter_cons. unfold stale at 2. simpl.
    destruct (decide _); [|done]. by rewrite <- app_assoc.
Qed.

(** X8. [missing_latest_consensus] never raises. It reports nothing when
    no consensus is more than an hour old; otherwise it reports one
    issue, addressed to the authorities of the stale consensuses in the
    order of the fetch, which is an ERROR when more than three are stale
    and a WARNING for one to three. *)
Theorem missing_latest_consensus_severity env latest consensuses votes :
  let stale_authorities :=
    (filter (fun entry : string * Document => stale env entry.2) consensuses).*1 in
  (stale_authorities = [] →
     missing_latest_consensus env latest consensuses votes = mret ReturnsNone)
  ∧ (stale_authorities ≠ [] →
     ∃ issue,
       missing_latest_consensus env latest consensuses votes = mret (ReturnsIssue issue)
       ∧ _template issue = "MISSING_LATEST_CONSENSUS"
       ∧ _authorities issue = PyList stale_authorities
       ∧ _attr issue !! "authorities" = Some (PyStr (join ", " stale_authorities))
       ∧ _runlevel issue
         = if decide (3 < length stale_authorities)%nat then ERROR else WARNING).
Proof.
  intros stale_authorities. unfold missing_latest_consensus.
  cbv zeta.
  match goal with |- context [foldl ?f [] consensuses] =>
    replace (foldl f [] consensuses) with stale_authorities
      by (symmetry; exact (stale_authorities_filter env consensuses []))
  end.
  split.
  - by intros ->.
  - intros Hne. destruct stale_authorities as [|authority rest] eqn:Hstale; [done|].
    eexists. split; [reflexivity|]. repeat split.
Qed.

(** ** The rule engine *)

Lemma latest_fold (documents : list Document) (latest : Document) :
  ∃ found,
    fst (foldl (fun latest consensus =>
                  match latest.2 with
                  | None => (Some consensus, Some (valid_after consensus))
                  | Some latest_valid_after =>
                      if datetime_gt (valid_after consensus) latest_valid_after
                      then (Some consensus, Some (valid_after consensus))
                      else latest
                  end)
               (Some latest, Some (valid_after latest)) documents) = Some found
    ∧ (∀ c, c ∈ latest :: documents →
         datetime_sub (valid_after c) (valid_after found) ≤ 0)
    ∧ ∃ before after,
        latest :: documents = before ++ found :: after
        ∧ ∀ c, c ∈ before → datetime_sub (valid_after c) (valid_after found) < 0.
Proof.
  revert latest. induction documents as [|d ds IH]; intros latest.
  - exists latest. split; [done|]. split.
    + intros c ->%list_elem_of_singleton. unfold datetime_sub. lia.
    + exists [], []. split; [done|]. intros c Hc. by apply elem_of_nil in Hc.
  - cbn [foldl snd]. unfold datetime_gt at 2. case_bool_decide as Hgt.
    + destruct (IH d) as (found & Hfound & Hmax & before & after & Hsplit & Hbefore).
      exists found. split; [done|]. split.
      * intros c [->|Hc]%elem_of_cons; [|by apply Hmax].
        specialize (Hmax d (ltac:(by left))). unfold datetime_sub in *. lia.
      * exists (latest :: before), after. split; [by rewrite Hsplit|].
        intros c [->|Hc]%elem_of_cons; [|by apply Hbefore].
        specialize (Hmax d (ltac:(by left))). unfold datetime_sub in *. lia.
    + destruct (IH latest) as (found & Hfound & Hmax & before & after & Hsplit & Hbefore).
      exists found. split; [done|]. split.
      * intros c [->|[->|Hc]%elem_of_cons]%elem_of_cons.
        -- apply Hmax. by left.
        -- specialize (Hmax latest (ltac:(by left))). unfold datetime_sub in *. lia.
        -- apply Hmax. by right.
      * destruct before as [|b before].
        -- injection Hsplit as <- <-. exists [], (d :: ds). split; [done|].
           intros c Hc. by apply elem_of_nil in Hc.
        -- injection Hsplit as <- ->. exists (latest :: d :: before), after.
           split; [done|].
           intros c [->|[->|Hc]%elem_of_cons]%elem_of_cons.
           ++ apply Hbefore. by left.
           ++ specialize (Hbefore latest (ltac:(by left))).
              unfold datetime_sub in *. lia.
           ++ apply Hbefore. by right.
Qed.

(** X9. The consensus that [run_checks] hands to the rules as
    [latest_consensus]: there is none exactly when no consensus was
    fetched; otherwise it is one of the fetched consensuses, none of
    them has a later [valid_after], and every consensus fetched before
    it has a strictly earlier one (among equals the first one wins). *)
Theorem latest_of_maximal (consensuses : list (string * Document)) :
  (consensuses = [] ↔ latest_of consensuses = None)
  ∧ (consensuses ≠ [] →
     ∃ latest before after,
       latest_of consensuses = Some latest
       ∧ consensuses.*2 = before ++ latest :: after
       ∧ (∀ c, c ∈ before → datetime_sub (valid_after c) (valid_after latest) < 0)
       ∧ (∀ c, c ∈ after → datetime_sub (valid_after c) (valid_after latest) ≤ 0)).
Proof.
  destruct consensuses as [|[authority first] rest].
  - split; [done|]. by intros [].
  - unfold latest_of. cbn [map foldl snd].
    destruct (latest_fold (map snd rest) first)
      as (found & Hfound & Hmax & before & after & Hsplit & Hbefore).
    split.
    + split; [done|]. intros Hnone. rewrite Hfound in Hnone. done.
    + intros _. exists found, before, after. split; [exact Hfound|].
      split; [by rewrite fmap_cons, <- map_is_fmap|]. split; [exact Hbefore|].
      intros c Hc. apply Hmax. rewrite Hsplit. apply elem_of_app. right. by right.
Qed.

Lemma log_issues_appends (issues all_issues : list Issue) :
  outcome (for_each issues all_issues (fun all_issues issue =>
             log (LogIssue issue);; mret (all_issues ++ [issue])))
  = Ok (all_issues ++ issues).
Proof.
  revert all_issues. induction issues as [|issue rest IH]; intros all_issues;
    cbn [for_each].
  - by rewrite app_nil_r.
  - rewrite outcome_bind. simpl. rewrite IH. by rewrite <- app_assoc.
Qed.

Lemma run_checks_loop (rules : list checker) env latest consensuses votes
    (results : list checker_result) (all_issues : list Issue) :
  Forall2 (fun (check : checker) result =>
             outcome (check env latest consensuses votes) = Ok result)
          rules results →
  outcome (for_each rules all_issues (fun all_issues check =>
    issues ← check env latest consensuses votes;
    let issues :=
      match issues with
      | ReturnsNone => []
      | ReturnsIssue issue => [issue]
      | ReturnsList issues => issues
      end in
    for_each issues all_issues (fun all_issues issue =>
      log (LogIssue issue);;
      mret (all_issues ++ [issue]))))
  = Ok (all_issues ++ flat_map returned_issues results).
Proof.
  intros Hall. revert all_issues.
  induction Hall as [|check result rules results Hcheck Hall IH]; intros all_issues;
    cbn [for_each flat_map].
  - by rewrite app_nil_r.
  - rewrite outcome_bind. rewrite outcome_bind, Hcheck. cbv zeta.
    fold (returned_issues result). rewrite log_issues_appends.
    rewrite IH. by rewrite <- app_assoc.
Qed.

(** X10. When every rule of the tuple returns, [run_checks] returns the
    issues of the rules in the order of the tuple, each rule's issues in
    the order the rule gave them (one issue, a list of them, or none). *)
Theorem run_checks_collects (rules : list checker) env consensuses votes
    (results : list checker_result) :
  Forall2 (fun (check : checker) result =>
             outcome (check env (latest_of consensuses) consensuses votes) = Ok result)
          rules results →
  outcome (run_checks rules env consensuses votes)
  = Ok (flat_map returned_issues results).
Proof.
  intros Hall.
  exact (run_checks_loop rules env (latest_of consensuses) consensuses votes
           results [] Hall).
Qed.

Lemma run_checks_collects_witness :
  outcome (run_checks [missing_latest_consensus; missing_authority_descriptor]
             (Sample.env_at 12) Sample.consensuses Sample.votes_voted)
  = Ok (flat_map returned_issues
          [ReturnsIssue (new_Issue WARNING "MISSING_LATEST_CONSENSUS"
             [("authorities", PyStr "moria1"); ("to", PyList ["moria1"])]);
           ReturnsList (flat_map (fun authority =>
                          map (missing_authority_desc authority)
                              [Sample.moria1; Sample.dizum; Sample.gabelmoo])
                          ["moria1"; "dizum"; "gabelmoo"])]).
Proof.
  apply (run_checks_collects [missing_latest_consensus; missing_authority_descriptor]).
  constructor; [vm_compute; reflexivity|].
  constructor; [vm_compute; reflexivity|]. constructor.
Defined.

(** ** The notification step of [main] *)




Lemma destinations_update_spec CONFIG
    (destinations new : list (string * option Destination)) :
  NoDup destinations.*1 →
  (∀ a, a ∈ destinations.*1 → dict_get a destinations = Some (contact_of CONFIG a)) →
  (∀ a v, (a, v) ∈ new → v = contact_of CONFIG a) →
  let updated := destinations_update destinations new in
  NoDup updated.*1
  ∧ (∀ a, a ∈ updated.*1 ↔ a ∈ destinations.*1 ∨ a ∈ new.*1)
  ∧ (∀ a, a ∈ updated.*1 → dict_get a updated = Some (contact_of CONFIG a)).
Proof.
  revert destinations. induction new as [|[authority v] new IH];
    intros destinations Hnodup Hvalues Hnew; simpl.
  - split; [done|]. split; [|done]. intros a. split; [by left|].
    intros [?|H]; [done|by apply elem_of_nil in H].
  - unfold destinations_update. cbn [foldl fst snd].
    assert (Hv : v = contact_of CONFIG authority) by (apply Hnew; by left).
    destruct (IH (dict_set authority v destinations)) as (Hnd & Hkeys & Hvals).
    + by apply dict_set_NoDup.
    + intros a Ha. destruct (decide (authority = a)) as [->|Hne].
      * by rewrite dict_get_set_eq, Hv.
      * rewrite dict_get_set_ne by done. apply Hvalues.
        apply dict_set_keys in Ha as [?|?]; [congruence|done].
    + intros a w Hin. apply Hnew. by right.
    + split; [exact Hnd|]. split; [|exact Hvals].
      intros a. unfold destinations_update in Hkeys. rewrite Hkeys, dict_set_keys.
      rewrite elem_of_cons. tauto.
Qed.

(** The second loop of [main]: the store and the destinations it leaves. *)
Lemma notify_loop_spec CONFIG now (issues : list Issue)
    (state : gmap string Z * list (string * option Destination)) :
  Forall (well_formed CONFIG) issues →
  NoDup state.2.*1 →
  (∀ a, a ∈ state.2.*1 → dict_get a state.2 = Some (contact_of CONFIG a)) →
  ∃ store' destinations,
    outcome (for_each issues state (fun state issue =>
      store ← rate_limit_notice CONFIG state.1 now issue;
      new ← get_destinations CONFIG issue;
      mret (store, destinations_update state.2 new))) = Ok (store', destinations)
    ∧ NoDup destinations.*1
    ∧ (∀ a, a ∈ destinations.*1 ↔ a ∈ state.2.*1 ∨ concerned_by issues a)
    ∧ (∀ a, a ∈ destinations.*1 → dict_get a destinations = Some (contact_of CONFIG a))
    ∧ (∀ key, state.1 !! key = Some now → store' !! key = Some now)
    ∧ (∀ key issue hours,
         issue ∈ issues → outcome (get_suppression_key CONFIG issue) = Ok key →
         outcome (get_suppression_duration CONFIG issue) = Ok hours → hours ≠ 0 →
         store' !! key = Some now)
    ∧ (∀ key,
         (∀ issue hours,
            issue ∈ issues → outcome (get_suppression_key CONFIG issue) = Ok key →
            outcome (get_suppression_duration CONFIG issue) = Ok hours → hours = 0) →
         store' !! key = state.1 !! key).
Proof.
  intros Hwf. revert state.
  induction Hwf as [|issue issues [[key Hkey] [authorities Hiter]] _ IH];
    intros [store destinations] Hnodup Hvalues; cbn [for_each fst snd] in *.
  - exists store, destinations. split; [done|]. split; [done|]. split.
    { intros a. split; [by left|]. intros [?|(issue & ? & Hin & _)]; [done|].
      by apply elem_of_nil in Hin. }
    split; [done|]. split; [done|]. split; [|done].
    intros ? issue ? Hin. by apply elem_of_nil in Hin.
  - destruct (get_suppression_duration_total CONFIG issue) as [hours Hhours].
    rewrite outcome_bind.
    rewrite outcome_bind, (rate_limit_notice_outcome _ _ _ _ _ _ Hkey Hhours).
    rewrite outcome_bind. unfold get_destinations at 1.
    rewrite outcome_bind. unfold lift at 1. simpl. rewrite Hiter. cbn [outcome fst snd].
    destruct (destinations_fold CONFIG authorities []) as (Hnew_nd & Hnew_keys & Hnew_vals).
    { constructor. }
    { intros a Ha. by apply elem_of_nil in Ha. }
    cbv zeta in Hnew_nd, Hnew_keys, Hnew_vals |- *.
    set (new := foldl _ [] authorities) in *.
    destruct (destinations_update_spec CONFIG destinations new Hnodup Hvalues)
      as (Hup_nd & Hup_keys & Hup_vals).
    { intros a v Hin.
      assert (Hget : dict_get a new = Some v) by (by apply dict_get_elem).
      rewrite Hnew_vals in Hget; [congruence|].
      apply list_elem_of_fmap. by exists (a, v). }
    set (store1 := if decide (hours = 0) then store else <[key := now]> store).
    destruct (IH (store1, destinations_update destinations new))
      as (store' & destinations' & Hout & Hnd & Hkeys & Hvals & Hmono & Hset & Hframe);
      [done..|]. cbn [fst snd] in *.
    exists store', destinations'. split; [exact Hout|]. split; [exact Hnd|].
    split; [|split; [exact Hvals|]].
    { intros a. rewrite Hkeys, Hup_keys, Hnew_keys. split.
      - intros [[?|[H|Ha]]|(issue' & l & Hin & Hl & Ha)].
        + by left.
        + by apply elem_of_nil in H.
        + right. exists issue, authorities. split; [by left|done].
        + right. exists issue', l. split; [by right|done].
      - intros [?|(issue' & l & [->|Hin]%elem_of_cons & Hl & Ha)].
        + by left; left.
        + left. right. right. congruence.
        + right. by exists issue', l. }
    assert (Hstep : ∀ k, store !! k = Some now → store1 !! k = Some now).
    { intros k Hk. unfold store1. case_decide; [done|].
      destruct (decide (key = k)) as [->|Hne];
        [by rewrite lookup_insert_eq|by rewrite lookup_insert_ne]. }
    split; [by intros k Hk; apply Hmono, Hstep|]. split.
    + intros k issue' h [->|Hin]%elem_of_cons Hk Hh Hne.
      * apply Hmono. unfold store1.
        assert (h = hours) as -> by congruence.
        assert (k = key) as -> by congruence.
        rewrite decide_False by done. by rewrite lookup_insert_eq.
      * by apply (Hset k issue' h).
    + intros k Hnone. rewrite Hframe.
      * unfold store1. case_decide; [done|].
        rewrite lookup_insert_ne; [done|]. intros ->.
        by specialize (Hnone issue hours (ltac:(by left)) Hkey Hhours).
      * intros issue' h Hin. apply Hnone. by right.
Qed.

Lemma main_notify_sent CONFIG (store : gmap string Z) (now : Z) (issues : list Issue)
    (state : gmap string Z * list (string * option Destination)) :
  outcome (all_suppressed CONFIG store now issues) = Ok false →
  outcome (for_each issues (store, []) (fun state issue =>
    store ← rate_limit_notice CONFIG state.1 now issue;
    new ← get_destinations CONFIG issue;
    mret (store, destinations_update state.2 new))) = Ok state →
  outcome (main_notify CONFIG store now issues)
  = Ok (state.1,
        [{| mail_subject := EMAIL_SUBJECT;
            mail_body := join newline (map (rendered CONFIG) issues);
            mail_to := None;
            mail_cc := Some (direct_addresses state.2);
            mail_bcc := Some (blind_addresses state.2) |};
         {| mail_subject := "Announce or";
            mail_body := join newline (map (fun text => "[consensus-health] " +:+ text)
                                           (map (rendered CONFIG) issues));
            mail_to := Some ["tor-misc@commit.noreply.org"];
            mail_cc := None; mail_bcc := None |}]).
Proof.
  intros Hfalse Hstate. unfold main_notify. rewrite outcome_bind, Hfalse.
  rewrite outcome_bind, Hstate. rewrite outcome_bind. simpl.
  by rewrite outcome_bind, map_M_rendered.
Qed.

Lemma survivor_not_suppressed CONFIG store now (issues : list Issue) :
  Forall (well_formed CONFIG) issues →
  Exists (fun issue => survives CONFIG store now issue = true) issues →
  outcome (all_suppressed CONFIG store now issues) = Ok false.
Proof.
  intros Hwf Hsurvives. apply all_suppressed_false; [done|].
  eapply Exists_impl; [exact Hsurvives|]. intros issue. unfold survives.
  by destruct (outcome _) as [[]|].
Qed.

(** X12. What a notification leaves in the [last_notified] store, for a
    cycle of well formed issues of which one survives suppression: the
    current time under the suppression key of every issue of non-zero
    duration, suppressed or not, and every other key as it was. An issue
    of positive duration is therefore rate limited right after. *)
Theorem notification_records_every_notice CONFIG (store : gmap string Z) (now : Z)
    (issues : list Issue) :
  Forall (well_formed CONFIG) issues →
  Exists (fun issue => survives CONFIG store now issue = true) issues →
  ∃ store' mails,
    outcome (main_notify CONFIG store now issues) = Ok (store', mails)
    ∧ (∀ key issue hours,
         issue ∈ issues → outcome (get_suppression_key CONFIG issue) = Ok key →
         outcome (get_suppression_duration CONFIG issue) = Ok hours → hours ≠ 0 →
         store' !! key = Some now)
    ∧ (∀ key,
         (∀ issue hours,
            issue ∈ issues → outcome (get_suppression_key CONFIG issue) = Ok key →
            outcome (get_suppression_duration CONFIG issue) = Ok hours → hours = 0) →
         store' !! key = store !! key)
    ∧ (∀ issue hours,
         issue ∈ issues →
         outcome (get_suppression_duration CONFIG issue) = Ok hours → 0 < hours →
         outcome (is_rate_limited CONFIG store' now issue) = Ok true).
Proof.
  intros Hwf Hsurvives.
  destruct (notify_loop_spec CONFIG now issues (store, []) Hwf)
    as (store' & destinations & Hout & _ & _ & _ & _ & Hset & Hframe).
  { constructor. }
  { intros a Ha. by apply elem_of_nil in Ha. }
  exists store'. eexists. split.
  { rewrite (main_notify_sent CONFIG store now issues (store', destinations));
      [reflexivity| |done]. by apply survivor_not_suppressed. }
  split; [exact Hset|]. split; [exact Hframe|].
  intros issue hours Hin Hhours Hpos.
  assert (Hissue : well_formed CONFIG issue)
    by (by eapply (proj1 (Forall_forall _ _)) in Hwf).
  destruct Hissue as [[key Hkey] _].
  rewrite (is_rate_limited_outcome _ _ _ _ _ _ Hkey Hhours).
  rewrite (Hset key issue hours Hin Hkey Hhours) by lia. simpl.
  f_equal. apply bool_decide_eq_true. lia.
Qed.

Lemma notification_records_every_notice_witness :
  ∃ store' mails,
    outcome (main_notify Sample.config Sample.last_notified Sample.current_time
               Sample.cycle_issues) = Ok (store', mails)
    ∧ store' !! Sample.missing_votes_key = Some Sample.current_time
    ∧ store' !! "another key" = None
    ∧ outcome (is_rate_limited Sample.config store' Sample.current_time
                 (Sample.missing_votes ["moria1"])) = Ok true.
Proof.
  assert (Hwf : Forall (well_formed Sample.config) Sample.cycle_issues).
  { repeat constructor; eexists; vm_compute; reflexivity. }
  assert (Hsurvives : Exists (fun issue =>
            survives Sample.config Sample.last_notified Sample.current_time issue = true)
            Sample.cycle_issues).
  { apply Exists_cons_tl, Exists_cons_hd. vm_compute. reflexivity. }
  destruct (notification_records_every_notice Sample.config Sample.last_notified
              Sample.current_time Sample.cycle_issues Hwf Hsurvives)
    as (store' & mails & Hout & Hset & Hframe & Hlimited).
  exists store', mails. split; [exact Hout|]. split; [|split].
  - apply (Hset _ (Sample.missing_votes ["moria1"]) 24).
    + by left.
    + vm_compute. reflexivity.
    + vm_compute. reflexivity.
    + lia.
  - rewrite Hframe; [vm_compute; reflexivity|].
    intros issue hours
      [->|[->|Hin%elem_of_nil]%elem_of_cons]%elem_of_cons Hkey Hhours; [| |done].
    + vm_compute in Hkey. discriminate Hkey.
    + vm_compute in Hhours. congruence.
  - apply (Hlimited _ 24).
    + by left.
    + vm_compute. reflexivity.
    + lia.
Defined.

(** X13. Who a notification is sent to, for a cycle of well formed
    issues of which one survives suppression. The first mail names no
    recipient; its copies go to the configured address of each authority
    that an issue of the cycle concerns, suppressed issues included, and
    to nobody else, as a blind copy when the authority is configured for
    that and as a plain copy otherwise. The second mail goes to the
    announcement address alone. *)
Theorem notification_recipients CONFIG (store : gmap string Z) (now : Z)
    (issues : list Issue) :
  Forall (well_formed CONFIG) issues →
  Exists (fun issue => survives CONFIG store now issue = true) issues →
  ∃ store' first second cc bcc,
    outcome (main_notify CONFIG store now issues) = Ok (store', [first; second])
    ∧ mail_to first = None ∧ mail_cc first = Some cc ∧ mail_bcc first = Some bcc
    ∧ (∀ addr, addr ∈ cc ↔
         ∃ authority, concerned_by issues authority
           ∧ contact_of CONFIG authority = Some {| address := addr; bcc := false |})
    ∧ (∀ addr, addr ∈ bcc ↔
         ∃ authority, concerned_by issues authority
           ∧ contact_of CONFIG authority = Some {| address := addr; bcc := true |})
    ∧ mail_to second = Some ["tor-misc@commit.noreply.org"]
    ∧ mail_cc second = None ∧ mail_bcc second = None.
Proof.
  intros Hwf Hsurvives.
  destruct (notify_loop_spec CONFIG now issues (store, []) Hwf)
    as (store' & destinations & Hout & Hnd & Hkeys & Hvals & _).
  { constructor. }
  { intros a Ha. by apply elem_of_nil in Ha. }
  cbn [fst snd] in *.
  assert (Hentry : ∀ a v, (a, v) ∈ destinations ↔
            concerned_by issues a ∧ v = contact_of CONFIG a).
  { intros a v. split.
    - intros Hin. assert (Ha : a ∈ destinations.*1)
        by (apply list_elem_of_fmap; by exists (a, v)).
      split.
      + apply Hkeys in Ha as [H|?]; [by apply elem_of_nil in H|done].
      + apply Hvals in Ha. rewrite (dict_get_elem a v destinations Hnd Hin) in Ha.
        congruence.
    - intros [Ha ->]. assert (Hin : a ∈ destinations.*1) by (apply Hkeys; by right).
      pose proof (Hvals a Hin) as Hget.
      apply list_elem_of_fmap in Hin as ([a' v] & -> & Hin). cbn [fst] in *.
      rewrite (dict_get_elem a' v destinations Hnd Hin) in Hget. congruence. }
  exists store'. eexists _, _, (direct_addresses destinations), (blind_addresses destinations).
  split.
  { rewrite (main_notify_sent CONFIG store now issues (store', destinations));
      [reflexivity| |done]. by apply survivor_not_suppressed. }
  cbn [mail_to mail_cc mail_bcc]. repeat split; try done.
  - unfold direct_addresses. intros ([a v] & Hin & Hsome)%list_elem_of_omap.
    apply Hentry in Hin as [Ha ->]. exists a. split; [done|]. cbn [snd] in Hsome.
    destruct (contact_of CONFIG a) as [[contact []]|]; simpl in Hsome; congruence.
  - intros (a & Ha & Hcontact). unfold direct_addresses. apply list_elem_of_omap.
    exists (a, contact_of CONFIG a). split; [by apply Hentry|].
    cbn [snd]. by rewrite Hcontact.
  - unfold blind_addresses. intros ([a v] & Hin & Hsome)%list_elem_of_omap.
    apply Hentry in Hin as [Ha ->]. exists a. split; [done|]. cbn [snd] in Hsome.
    destruct (contact_of CONFIG a) as [[contact []]|]; simpl in Hsome; congruence.
  - intros (a & Ha & Hcontact). unfold blind_addresses. apply list_elem_of_omap.
    exists (a, contact_of CONFIG a). split; [by apply Hentry|].
    cbn [snd]. by rewrite Hcontact.
Qed.

Lemma notification_recipients_witness :
  ∃ store' first second cc bcc,
    outcome (main_notify Sample.config Sample.last_notified Sample.current_time
               Sample.cycle_issues) = Ok (store', [first; second])
    ∧ mail_cc first = Some cc ∧ mail_bcc first = Some bcc
    ∧ "moria1@example.org" ∈ cc ∧ ("dizum@example.org" ∉ cc) ∧ ("dizum@example.org" ∉ bcc).
Proof.
  assert (Hwf : Forall (well_formed Sample.config) Sample.cycle_issues).
  { repeat constructor; eexists; vm_compute; reflexivity. }
  assert (Hsurvives : Exists (fun issue =>
            survives Sample.config Sample.last_notified Sample.current_time issue = true)
            Sample.cycle_issues).
  { apply Exists_cons_tl, Exists_cons_hd. vm_compute. reflexivity. }
  destruct (notification_recipients Sample.config Sample.last_notified
              Sample.current_time Sample.cycle_issues Hwf Hsurvives)
    as (store' & first & second & cc & bcc & Hout & _ & Hcc & Hbcc & Hdirect & Hblind & _).
  assert (Hmoria1 : ∀ authority,
            concerned_by Sample.cycle_issues authority → authority = "moria1").
  { intros authority (issue & authorities & Hin & Hiter & Ha).
    apply elem_of_cons in Hin as [->|Hin]; [|apply list_elem_of_singleton in Hin as ->];
      vm_compute in Hiter; injection Hiter as <-;
      by apply list_elem_of_singleton in Ha. }
  exists store', first, second, cc, bcc.
  split; [exact Hout|]. split; [exact Hcc|]. split; [exact Hbcc|]. split; [|split].
  - apply Hdirect. exists "moria1". split; [|vm_compute; reflexivity].
    exists Sample.unavailable, ["moria1"]. split; [by right; left|].
    split; [vm_compute; reflexivity|by left].
  - intros (authority & Ha & Hcontact)%Hdirect. apply Hmoria1 in Ha as ->.
    vm_compute in Hcontact. discriminate Hcontact.
  - intros (authority & Ha & Hcontact)%Hblind. apply Hmoria1 in Ha as ->.
    vm_compute in Hcontact. discriminate Hcontact.
Defined.

(** ** The flags of the consensus *)

Lemma py_set_add_elem (x y : string) (s : list string) :
  y ∈ py_set_add x s ↔ y ∈ s ∨ y = x.
Proof.
  unfold py_set_add. case_decide as Hin.
  - split; [by left|]. intros [?| ->]; done.
  - rewrite elem_of_app, list_elem_of_singleton. tauto.
Qed.

Lemma py_set_add_NoDup (x : string) (s : list string) :
  NoDup s → NoDup (py_set_add x s).
Proof.
  intros Hnodup. unfold py_set_add. case_decide as Hin; [done|].
  apply NoDup_app. split; [done|]. split; [|apply NoDup_singleton].
  intros y Hy ->%list_elem_of_singleton. done.
Qed.

Lemma seen_authorities_fold (entries : list RouterStatusEntry) (start : list string) :
  NoDup start →
  let seen :=
    foldl (fun seen_authorities desc =>
             if decide (AUTHORITY ∈ flags desc)
             then py_set_add (nickname desc) seen_authorities
             else seen_authorities)
          start entries in
  NoDup seen
  ∧ ∀ a, a ∈ seen ↔
      a ∈ start ∨ ∃ desc, desc ∈ entries ∧ AUTHORITY ∈ flags desc ∧ nickname desc = a.
Proof.
  revert start. induction entries as [|desc entries IH]; intros start Hnodup; simpl.
  - split; [done|]. intros a. split; [by left|].
    intros [?|(desc & Hin & _)]; [done|]. by apply elem_of_nil in Hin.
  - set (next := if decide (AUTHORITY ∈ flags desc) then _ else _).
    destruct (IH next) as [Hnd Hiff].
    { unfold next. case_decide; [by apply py_set_add_NoDup|done]. }
    split; [exact Hnd|]. intros a. rewrite Hiff. unfold next. split.
    + intros [Ha|(d & Hin & Hflag & Hname)].
      * case_decide as Hflag; [|by left].
        apply py_set_add_elem in Ha as [?| ->]; [by left|].
        right. exists desc. split; [by left|done].
      * right. exists d. split; [by right|done].
    + intros [Ha|(d & [->|Hin]%elem_of_cons & Hflag & Hname)].
      * left. case_decide; [|done]. apply py_set_add_elem. by left.
      * left. rewrite decide_True by done. apply py_set_add_elem. by right.
      * right. by exists d.
Qed.

(** X14. [has_authority_flag] on a latest consensus returns at most two
    issues: a WARNING MISSING_AUTHORITIES for the registry nicknames that
    no relay of the consensus carries with the Authority flag, and a
    NOTICE EXTRA_AUTHORITIES for the flagged nicknames that the registry
    lacks, each present exactly when its set is not empty. tor26 is
    dropped from the flagged nicknames first: it is never reported as
    extra, and it is reported as missing whenever the registry has it,
    whatever the consensus says. Without a latest consensus the rule
    raises AttributeError. *)
Theorem has_authority_flag_sets env (latest : option Document) consensuses votes :
  match latest with
  | None =>
      outcome (has_authority_flag env latest consensuses votes)
      = Raise (AttributeError "routers")
  | Some document =>
      ∃ missing extra,
        outcome (has_authority_flag env latest consensuses votes)
        = Ok (ReturnsList
               (match missing with
                | [] => []
                | _ => [new_Issue WARNING "MISSING_AUTHORITIES"
                          [("authorities", PyStr (join ", " missing));
                           ("to", PyList missing)]]
                end ++
                match extra with
                | [] => []
                | _ => [new_Issue NOTICE "EXTRA_AUTHORITIES"
                          [("authorities", PyStr (join ", " extra));
                           ("to", PyList extra)]]
                end))
        ∧ NoDup missing ∧ NoDup extra
        ∧ (∀ a, a ∈ missing ↔
             a ∈ (DIRECTORY_AUTHORITIES env).*1 ∧ ¬ flagged_authority document a)
        ∧ (∀ a, a ∈ extra ↔
             flagged_authority document a ∧ a ∉ (DIRECTORY_AUTHORITIES env).*1)
        ∧ ("tor26" ∉ extra)
        ∧ ("tor26" ∈ (DIRECTORY_AUTHORITIES env).*1 → "tor26" ∈ missing)
  end.
Proof.
  destruct latest as [document|]; [|done].
  unfold has_authority_flag. rewrite outcome_bind. cbn [attribute_of outcome mret M_ret].
  cbv zeta.
  destruct (seen_authorities_fold (routers document) []) as [Hseen_nd Hseen];
    [constructor|]. cbv zeta in Hseen_nd, Hseen.
  set (seen0 := foldl _ [] (routers document)) in *.
  set (seen := if decide ("tor26" ∈ seen0) then py_set_remove "tor26" seen0 else seen0).
  set (known := remove_dups (map fst (DIRECTORY_AUTHORITIES env))).
  assert (Hseen' : ∀ a, a ∈ seen ↔ flagged_authority document a).
  { intros a. unfold seen, flagged_authority, py_set_remove. case_decide as Htor.
    - rewrite list_elem_of_filter, Hseen. split.
      + intros [Hne [H|?]]; [by apply elem_of_nil in H|done].
      + intros [Hne ?]. split; [done|by right].
    - rewrite Hseen. split.
      + intros [H|Hex]; [by apply elem_of_nil in H|]. split; [|done].
        intros ->. apply Htor, Hseen. by right.
      + intros [_ ?]. by right. }
  assert (Hseen'_nd : NoDup seen).
  { unfold seen, py_set_remove. case_decide; [by apply NoDup_filter|done]. }
  assert (Hknown : ∀ a, a ∈ known ↔ a ∈ (DIRECTORY_AUTHORITIES env).*1).
  { intros a. unfold known. by rewrite elem_of_remove_dups, map_is_fmap. }
  exists (list_difference known seen), (list_difference seen known).
  split; [|split; [|split; [|split; [|split; [|split]]]]].
  - simpl. do 2 f_equal.
    destruct (list_difference known seen), (list_difference seen known); reflexivity.
  - apply NoDup_list_difference, NoDup_remove_dups.
  - by apply NoDup_list_difference.
  - intros a. by rewrite list_elem_of_difference, Hknown, Hseen'.
  - intros a. by rewrite list_elem_of_difference, Hknown, Hseen'.
  - rewrite list_elem_of_difference, Hseen'. intros [[Hne _] _]. done.
  - intros Hin. rewrite list_elem_of_difference, Hknown, Hseen'.
    split; [done|]. intros [Hne _]. done.
Qed.

Lemma count_flags_inner (new : list string) (flag_count : list (string * Z)) :
  NoDup flag_count.*1 →
  let counted :=
    foldl (fun flag_count flag =>
             dict_set flag (default 0 (dict_get flag flag_count) + 1) flag_count)
          flag_count new in
  NoDup counted.*1
  ∧ (∀ flag, flag ∈ counted.*1 ↔ flag ∈ flag_count.*1 ∨ flag ∈ new)
  ∧ (∀ flag, default 0 (dict_get flag counted)
             = default 0 (dict_get flag flag_count)
               + Z.of_nat (length (filter (fun f => f = flag) new))).
Proof.
  revert flag_count. induction new as [|f new IH]; intros flag_count Hnodup; simpl.
  - split; [done|]. split.
    + intros flag. split; [by left|]. intros [?|H]; [done|by apply elem_of_nil in H].
    + intros flag. lia.
  - destruct (IH (dict_set f (default 0 (dict_get f flag_count) + 1) flag_count))
      as (Hnd & Hkeys & Hcount); [by apply dict_set_NoDup|].
    split; [exact Hnd|]. split.
    + intros flag. rewrite Hkeys, dict_set_keys, elem_of_cons. tauto.
    + intros flag. rewrite Hcount, filter_cons.
      destruct (decide (f = flag)) as [->|Hne].
      * rewrite dict_get_set_eq. simpl. lia.
      * rewrite dict_get_set_ne by done. lia.
Qed.

Lemma count_flags_outer (entries : list RouterStatusEntry)
    (flag_count : list (string * Z)) :
  NoDup flag_count.*1 →
  let counted :=
    foldl (fun flag_count desc =>
             foldl (fun flag_count flag =>
                      dict_set flag (default 0 (dict_get flag flag_count) + 1) flag_count)
                   flag_count (flags desc))
          flag_count entries in
  NoDup counted.*1
  ∧ (∀ flag, flag ∈ counted.*1 ↔ flag ∈ flag_count.*1 ∨ flag ∈ flat_map flags entries)
  ∧ (∀ flag, default 0 (dict_get flag counted)
             = default 0 (dict_get flag flag_count) + occurrences flag entries).
Proof.
  unfold occurrences. revert flag_count.
  induction entries as [|desc entries IH]; intros flag_count Hnodup; simpl.
  - split; [done|]. split.
    + intros flag. split; [by left|]. intros [?|H]; [done|by apply elem_of_nil in H].
    + intros flag. lia.
  - destruct (count_flags_inner (flags desc) flag_count Hnodup) as (Hnd1 & Hkeys1 & Hcount1).
    cbv zeta in Hnd1, Hkeys1, Hcount1.
    set (next := foldl _ flag_count (flags desc)) in *.
    destruct (IH next Hnd1) as (Hnd & Hkeys & Hcount).
    split; [exact Hnd|]. split.
    + intros flag. rewrite Hkeys, Hkeys1, elem_of_app. tauto.
    + intros flag. rewrite Hcount, Hcount1, filter_app, length_app. lia.
Qed.

Lemma occurrences_positive (flag : string) (entries : list RouterStatusEntry) :
  0 < occurrences flag entries ↔ flag ∈ flat_map flags entries.
Proof.
  unfold occurrences. generalize (flat_map flags entries) as l.
  intros l. split.
  - intros Hpos. destruct (filter (fun f => f = flag) l) as [|f rest] eqn:Hfilter;
      [simpl in Hpos; lia|].
    assert (Hin : f ∈ filter (fun f => f = flag) l) by (rewrite Hfilter; by left).
    apply list_elem_of_filter in Hin as [-> ?]. done.
  - intros Hin. assert (Hf : flag ∈ filter (fun f => f = flag) l)
      by (by apply list_elem_of_filter).
    destruct (filter (fun f => f = flag) l); [by apply elem_of_nil in Hf|]. simpl. lia.
Qed.

(** The dict of [has_similar_flag_counts] holds each flag that occurs,
    once, with the number of its occurrences. *)
Lemma count_flags_spec (entries : list RouterStatusEntry) :
  NoDup (count_flags entries).*1
  ∧ ∀ flag count,
      (flag, count) ∈ count_flags entries ↔
      0 < occurrences flag entries ∧ count = occurrences flag entries.
Proof.
  destruct (count_flags_outer entries []) as (Hnd & Hkeys & Hcount); [constructor|].
  cbv zeta in Hnd, Hkeys, Hcount. fold (count_flags entries) in Hnd, Hkeys, Hcount.
  split; [exact Hnd|]. intros flag count. rewrite occurrences_positive. split.
  - intros Hin. split.
    + assert (Hkey : flag ∈ (count_flags entries).*1)
        by (apply list_elem_of_fmap; by exists (flag, count)).
      apply Hkeys in Hkey as [H|?]; [by apply elem_of_nil in H|done].
    + specialize (Hcount flag). rewrite (dict_get_elem flag count _ Hnd Hin) in Hcount.
      simpl in Hcount. lia.
  - intros [Hocc ->].
    assert (Hkey : flag ∈ (count_flags entries).*1) by (apply Hkeys; by right).
    apply list_elem_of_fmap in Hkey as ([flag' count] & -> & Hin). cbn [fst].
    specialize (Hcount flag'). rewrite (dict_get_elem flag' count _ Hnd Hin) in Hcount.
    simpl in Hcount. by replace (occurrences flag' entries) with count by lia.
Qed.

Lemma count_flags_get (flag : string) (entries : list RouterStatusEntry) :
  default 0 (dict_get flag (count_flags entries)) = occurrences flag entries.
Proof.
  destruct (count_flags_outer entries []) as (_ & _ & Hcount); [constructor|].
  apply Hcount.
Qed.

(** X15. [has_similar_flag_counts] on a latest consensus never raises
    and reports one NOTICE FLAG_COUNT_DIFFERS for every vote and every
    flag of the consensus, other than BadExit, Running, HSDir and
    StaleDesc, that the relays of the vote carry more than one and a half
    times or less than half as often as the relays of the consensus, and
    nothing else: a flag that only votes carry is never reported. *)
Theorem has_similar_flag_counts_differs env (latest : Document) consensuses votes :
  ∃ issues,
    outcome (has_similar_flag_counts env (Some latest) consensuses votes)
      = Ok (ReturnsList issues)
    ∧ ∀ issue, issue ∈ issues ↔
        ∃ authority vote flag,
          (authority, vote) ∈ votes
          ∧ 0 < occurrences flag (routers latest)
          ∧ (flag ∉ ["BadExit"; "Running"; "HSDir"; "StaleDesc"])
          ∧ (3 * occurrences flag (routers latest) < 2 * occurrences flag (routers vote)
             ∨ 2 * occurrences flag (routers vote) < occurrences flag (routers latest))
          ∧ issue = new_Issue NOTICE "FLAG_COUNT_DIFFERS"
                      [("authority", PyStr authority); ("flag", PyStr flag);
                       ("consensus_count", PyInt (occurrences flag (routers latest)));
                       ("vote_count", PyInt (occurrences flag (routers vote)));
                       ("to", PyList [authority])].
Proof.
  set (report := fun (entry : string * Document) (item : string * Z) =>
    if decide (item.1 ∈ ["BadExit"; "Running"; "HSDir"; "StaleDesc"]) then []
    else if decide (3 * item.2 < 2 * occurrences item.1 (routers entry.2)
                    ∨ 2 * occurrences item.1 (routers entry.2) < item.2)
         then [new_Issue NOTICE "FLAG_COUNT_DIFFERS"
                 [("authority", PyStr entry.1); ("flag", PyStr item.1);
                  ("consensus_count", PyInt item.2);
                  ("vote_count", PyInt (occurrences item.1 (routers entry.2)));
                  ("to", PyList [entry.1])]]
         else []).
  exists (flat_map (fun entry => flat_map (report entry) (count_flags (routers latest)))
                   votes).
  split.
  - unfold has_similar_flag_counts. rewrite outcome_bind. simpl. do 2 f_equal.
    etrans; [|apply (foldl_appending _ votes [])].
    apply foldl_ext_in. intros acc [authority vote] _.
    etrans; [|apply foldl_appending]. apply foldl_ext_in. intros acc' [flag count] _.
    unfold report. cbn [fst snd]. rewrite count_flags_get.
    repeat case_decide; by rewrite ?app_nil_r.
  - intros issue. rewrite list_elem_of_In, in_flat_map.
    destruct (count_flags_spec (routers latest)) as [_ Hitems]. split.
    + intros ([authority vote] & Hvote & Hissue).
      apply in_flat_map in Hissue as ([flag count] & Hitem & Hissue).
      apply list_elem_of_In in Hvote, Hitem. apply Hitems in Hitem as [Hpos ->].
      unfold report in Hissue. cbn [fst snd] in Hissue.
      destruct (decide (flag ∈ _)) as [|Hflag]; [done|].
      destruct (decide (_ ∨ _)) as [Hdiffers|]; [|done].
      destruct Hissue as [<-|[]]. by exists authority, vote, flag.
    + intros (authority & vote & flag & Hvote & Hpos & Hflag & Hdiffers & ->).
      exists (authority, vote). split; [by apply list_elem_of_In|].
      apply in_flat_map. exists (flag, occurrences flag (routers latest)).
      split; [apply list_elem_of_In; by apply Hitems|].
      unfold report. cbn [fst snd].
      rewrite decide_False by done. rewrite decide_True by done. by left.
Qed.

(** ** Signatures of the consensuses *)

Lemma voting_identity_v3ident (authority : Authority.t) (identity : string) :
  voting_identity authority = Some identity → Authority.v3ident authority = Some identity.
Proof.
  unfold voting_identity. destruct (Authority.v3ident authority) as [[|c rest]|]; congruence.
Qed.

(** A voting identity is always translated into the nickname of a
    registry authority that has it. *)
Lemma signer_name_registered (registry : list (string * Authority.t))
    (authority : Authority.t) (identity : string) :
  authority ∈ registry.*2 → voting_identity authority = Some identity →
  ∃ first, first ∈ registry.*2 ∧ Authority.v3ident first = Some identity
           ∧ signer_name registry identity = Authority.nickname first.
Proof.
  intros Hin Hvoting%voting_identity_v3ident. unfold signer_name.
  destruct (List.find _ _) as [first|] eqn:Hfind.
  - apply find_some in Hfind as [Hfirst Heq]. exists first.
    split; [by rewrite <- map_is_fmap; apply list_elem_of_In|].
    split; [by apply bool_decide_eq_true in Heq|done].
  - assert (Hnot : bool_decide (Authority.v3ident authority = Some identity) = false).
    { apply (find_none _ _ Hfind authority), list_elem_of_In. by rewrite map_is_fmap. }
    by apply bool_decide_eq_false in Hnot.
Qed.

Lemma missing_authorities_fold (name_of : string → string) (identities start : list string) :
  ∀ name,
    name ∈ foldl (fun missing_authorities missing_signature =>
                    py_set_add (name_of missing_signature) missing_authorities)
                 start identities
    ↔ name ∈ start ∨ ∃ identity, identity ∈ identities ∧ name_of identity = name.
Proof.
  revert start. induction identities as [|identity identities IH]; intros start name; simpl.
  - split; [by left|]. intros [?|(? & H & _)]; [done|by apply elem_of_nil in H].
  - rewrite IH, py_set_add_elem. split.
    + intros [[?| ->]|(i & Hin & Hname)].
      * by left.
      * right. exists identity. split; [by left|done].
      * right. exists i. split; [by right|done].
    + intros [?|(i & [->|Hin]%elem_of_cons & Hname)].
      * by left; left.
      * by left; right.
      * right. by exists i.
Qed.

(** The names that [has_all_signatures] reports for a consensus. *)
Lemma missing_authorities_names (registry : list (string * Authority.t))
    (signatures : list DocumentSignature.t) (name : string) :
  name ∈ foldl (fun missing_authorities missing_signature =>
                  py_set_add (signer_name registry missing_signature) missing_authorities)
               []
               (list_difference (remove_dups (omap voting_identity (map snd registry)))
                                (remove_dups (map DocumentSignature.identity signatures)))
  ↔ ∃ identity, unsigned_identity registry signatures identity
                ∧ signer_name registry identity = name.
Proof.
  rewrite missing_authorities_fold. split.
  - intros [H|(identity & Hin & Hname)]; [by apply elem_of_nil in H|].
    exists identity. split; [|done].
    apply list_elem_of_difference in Hin as [Hvoting Hunsigned].
    apply elem_of_remove_dups, list_elem_of_omap in Hvoting
      as (authority & Hauthority & Hvoting).
    split.
    + exists authority. split; [by rewrite <- map_is_fmap|done].
    + by rewrite elem_of_remove_dups in Hunsigned.
  - intros (identity & [(authority & Hauthority & Hvoting) Hunsigned] & Hname).
    right. exists identity. split; [|done].
    apply list_elem_of_difference. split.
    + apply elem_of_remove_dups, list_elem_of_omap. exists authority.
      split; [by rewrite map_is_fmap|done].
    + by rewrite elem_of_remove_dups.
Qed.

(** X16. [has_all_signatures] never raises. Each issue it returns is a
    NOTICE MISSING_SIGNATURE for one of the consensuses, addressed to a
    non-empty set of names: the translations of the voting identities of
    the registry that are not among the signatures of that consensus.
    Each name so reported is the nickname of a registry authority with
    such an identity: the fall back to the bare identity is never taken.
    A consensus that lacks the signature of a voting identity gets an
    issue. *)
Theorem has_all_signatures_names env
    (consensuses : list (string * list DocumentSignature.t)) :
  ∃ issues,
    outcome (has_all_signatures env consensuses) = Ok (ReturnsList issues)
    ∧ (∀ issue, issue ∈ issues →
         ∃ consensus_of signatures names,
           (consensus_of, signatures) ∈ consensuses
           ∧ names ≠ []
           ∧ (∀ name, name ∈ names ↔
                ∃ identity, unsigned_identity (DIRECTORY_AUTHORITIES env) signatures identity
                            ∧ signer_name (DIRECTORY_AUTHORITIES env) identity = name)
           ∧ (∀ name, name ∈ names →
                ∃ authority identity,
                  authority ∈ (DIRECTORY_AUTHORITIES env).*2
                  ∧ Authority.v3ident authority = Some identity
                  ∧ unsigned_identity (DIRECTORY_AUTHORITIES env) signatures identity
                  ∧ Authority.nickname authority = name)
           ∧ issue = new_Issue NOTICE "MISSING_SIGNATURE"
                       [("consensus_of", PyStr consensus_of);
                        ("authorities", PyStr (join ", " names));
                        ("to", PyList names)])
    ∧ (∀ consensus_of signatures,
         (consensus_of, signatures) ∈ consensuses →
         (∃ identity, unsigned_identity (DIRECTORY_AUTHORITIES env) signatures identity) →
         ∃ issue, issue ∈ issues
                  ∧ _template issue = "MISSING_SIGNATURE"
                  ∧ _attr issue !! "consensus_of" = Some (PyStr consensus_of)).
Proof.
  set (registry := DIRECTORY_AUTHORITIES env).
  set (names_of := fun signatures : list DocumentSignature.t =>
    foldl (fun missing_authorities missing_signature =>
             py_set_add (signer_name registry missing_signature) missing_authorities)
          []
          (list_difference (remove_dups (omap voting_identity (map snd registry)))
                           (remove_dups (map DocumentSignature.identity signatures)))).
  set (report := fun entry : string * list DocumentSignature.t =>
    match names_of entry.2 with
    | [] => []
    | _ => [new_Issue NOTICE "MISSING_SIGNATURE"
              [("consensus_of", PyStr entry.1);
               ("authorities", PyStr (join ", " (names_of entry.2)));
               ("to", PyList (names_of entry.2))]]
    end).
  assert (Hnames : ∀ signatures name,
            name ∈ names_of signatures ↔
            ∃ identity, unsigned_identity registry signatures identity
                        ∧ signer_name registry identity = name)
    by (intros; apply missing_authorities_names).
  exists (flat_map report consensuses). split; [|split].
  - unfold has_all_signatures. simpl. do 2 f_equal.
    etrans; [|apply (foldl_appending _ consensuses [])].
    apply foldl_ext_in. intros acc [consensus_of signatures] _.
    unfold report. cbn [fst snd]. fold registry. fold (names_of signatures).
    destruct (names_of signatures); [by rewrite app_nil_r|done].
  - intros issue. rewrite list_elem_of_In, in_flat_map.
    intros ([consensus_of signatures] & Hin%list_elem_of_In & Hissue).
    unfold report in Hissue. cbn [fst snd] in Hissue.
    destruct (names_of signatures) as [|name names] eqn:Heq; [done|].
    destruct Hissue as [<-|[]].
    exists consensus_of, signatures, (name :: names).
    split; [done|]. split; [done|]. rewrite <- Heq.
    split; [apply Hnames|]. split; [|done].
    intros n (identity & Hunsigned & Hname)%Hnames.
    destruct Hunsigned as [(authority & Hauthority & Hvoting) Hunsigned].
    destruct (signer_name_registered registry authority identity Hauthority Hvoting)
      as (first & Hfirst & Hident & Hfirst_name).
    exists first, identity. split; [done|]. split; [done|].
    split; [|congruence]. split; [by exists authority|done].
  - intros consensus_of signatures Hin (identity & Hunsigned).
    assert (Hname : signer_name registry identity ∈ names_of signatures)
      by (apply Hnames; by exists identity).
    exists (new_Issue NOTICE "MISSING_SIGNATURE"
              [("consensus_of", PyStr consensus_of);
               ("authorities", PyStr (join ", " (names_of signatures)));
               ("to", PyList (names_of signatures))]).
    split; [|split; reflexivity].
    apply list_elem_of_In, in_flat_map. exists (consensus_of, signatures).
    split; [by apply list_elem_of_In|]. unfold report. cbn [fst snd].
    destruct (names_of signatures) eqn:Heq; [by apply elem_of_nil in Hname|].
    by left.
Qed.

(** ** Rules that raise *)

(** A loop returns exactly when its body returns on every item, for a
    body whose outcome depends on the item alone. *)
Lemma for_each_returns {A S} (good : A → Prop) (body : S → A → M S) (l : list A) :
  (∀ acc x, x ∈ l → good x → ∃ acc', outcome (body acc x) = Ok acc') →
  (∀ acc x, x ∈ l → ¬ good x → ∃ e, outcome (body acc x) = Raise e) →
  (∀ x, x ∈ l → good x ∨ ¬ good x) →
  ∀ acc, (∃ acc', outcome (for_each l acc body) = Ok acc') ↔ Forall good l.
Proof.
  induction l as [|x l IH]; intros Hgood Hbad Hdec acc; cbn [for_each].
  - split; [constructor|]. intros _. by eexists.
  - rewrite outcome_bind. rewrite Forall_cons.
    destruct (Hdec x (ltac:(by left))) as [Hx|Hx].
    + destruct (Hgood acc x (ltac:(by left)) Hx) as [acc' ->].
      rewrite IH; [tauto|..].
      * intros a y Hy. apply Hgood. by right.
      * intros a y Hy. apply Hbad. by right.
      * intros y Hy. apply Hdec. by right.
    + destruct (Hbad acc x (ltac:(by left)) Hx) as [e ->].
      split; [by intros [? ?]|]. by intros [? _].
Qed.

Lemma for_each_first_failure {A S} (body : S → A → M S) (before after : list A)
    (x : A) (acc : S) (e : exn) :
  (∀ acc y, y ∈ before → ∃ acc', outcome (body acc y) = Ok acc') →
  (∀ acc, outcome (body acc x) = Raise e) →
  outcome (for_each (before ++ x :: after) acc body) = Raise e.
Proof.
  revert acc. induction before as [|y before IH]; intros acc Hbefore Hx;
    cbn [for_each app]; rewrite outcome_bind.
  - by rewrite Hx.
  - destruct (Hbefore acc y (ltac:(by left))) as [acc' ->].
    apply IH; [|done]. intros a z Hz. apply Hbefore. by right.
Qed.

Lemma certificate_issue_raises now (issues : list Issue) authority vote :
  own_certificate vote = None →
  outcome (certificate_issue now issues authority vote)
  = Raise (match directory_authorities vote with
           | [] => IndexError
           | _ => AttributeError "expires"
           end).
Proof.
  unfold own_certificate, certificate_issue. rewrite outcome_bind.
  destruct (directory_authorities vote) as [|issuer rest]; [done|].
  intros Hnone. simpl. rewrite outcome_bind, Hnone. done.
Qed.

(** X17. [certificate_expiration] returns exactly when every vote
    carries the key certificate of its authority. On the first vote that
    lacks it the rule raises, IndexError when the vote has no authority
    entry and AttributeError when the entry has no certificate, and no
    issue is returned for any of the votes. *)
Theorem certificate_expiration_needs_certificates env latest consensuses
    (votes : list (string * Document)) :
  ((∃ result,
      outcome (certificate_expiration env latest consensuses votes) = Ok result)
   ↔ Forall (fun entry : string * Document => is_Some (own_certificate entry.2)) votes)
  ∧ ∀ before authority vote after,
      votes = before ++ (authority, vote) :: after →
      Forall (fun entry : string * Document => is_Some (own_certificate entry.2)) before →
      own_certificate vote = None →
      outcome (certificate_expiration env latest consensuses votes)
      = Raise (match directory_authorities vote with
               | [] => IndexError
               | _ => AttributeError "expires"
               end).
Proof.
  unfold certificate_expiration. cbv zeta. split.
  - rewrite <- (for_each_returns
      (fun entry : string * Document => is_Some (own_certificate entry.2))
      (fun issues entry => certificate_issue (datetime_now env) issues entry.1 entry.2)
      votes) with (acc := []).
    + rewrite outcome_bind. split.
      * intros [result Hresult]. destruct (outcome (for_each _ _ _)); [by eexists|done].
      * intros [issues ->]. by eexists.
    + intros issues [authority vote] _ [certificate Hcertificate].
      destruct (certificate_expiration_step env issues authority vote certificate
                  Hcertificate) as (added & Hadded & _).
      by eexists.
    + intros issues [authority vote] _ Hnone. eexists.
      apply certificate_issue_raises. cbn [snd] in Hnone |- *.
      destruct (own_certificate vote); [|done]. destruct Hnone. by eexists.
    + intros [authority vote] _. cbn [snd].
      destruct (own_certificate vote); [left; by eexists|right; by intros [? ?]].
  - intros before authority vote after -> Hbefore Hnone.
    rewrite outcome_bind.
    rewrite (for_each_first_failure _ before after (authority, vote) []
               (match directory_authorities vote with
                | [] => IndexError
                | _ => AttributeError "expires"
                end)); [done| |].
    + intros issues [a v] Hin.
      apply (proj1 (Forall_forall _ _) Hbefore) in Hin as [certificate Hcertificate].
      destruct (certificate_expiration_step env issues a v certificate Hcertificate)
        as (added & Hadded & _).
      by eexists.
    + intros issues. by apply certificate_issue_raises.
Qed.

Lemma commit_echo_total (self_commitments : list (option string * string))
    (authority : string) (commitments : list SharedRandomnessCommitment)
    (issues : list Issue) :
  ∃ issues',
    outcome (for_each commitments issues (fun issues commitment =>
      match dict_get (Some (identity commitment)) self_commitments with
      | None => mret issues
      | Some their_value =>
          if decide (commit commitment ≠ their_value) then
            mret (issues ++ [new_Issue WARNING "SHARED_RANDOM_COMMITMENT_MISMATCH"
              [("authority", PyStr authority);
               ("their_v3ident", PyStr (identity commitment));
               ("our_value", PyStr (commit commitment));
               ("their_value", PyStr their_value);
               ("to", PyList [authority])]])
          else mret issues
      end)) = Ok issues'.
Proof.
  revert issues. induction commitments as [|c commitments IH]; intros issues;
    cbn [for_each]; [by eexists|].
  rewrite outcome_bind.
  destruct (dict_get _ _) as [their_value|]; [case_decide|]; apply IH.
Qed.

Lemma commit_echo_votes_total env (self_commitments : list (option string * string))
    (votes : list (string * Document)) (issues : list Issue) :
  Forall (fun entry => ∃ own rest, own_commitments env entry = Some (own :: rest)) votes →
  ∃ issues',
    outcome (for_each votes issues (fun issues entry =>
      let '(authority, vote) := entry in
      commitments ← commitments_of vote;
      for_each commitments issues (fun issues commitment =>
        match dict_get (Some (identity commitment)) self_commitments with
        | None => mret issues
        | Some their_value =>
            if decide (commit commitment ≠ their_value) then
              mret (issues ++ [new_Issue WARNING "SHARED_RANDOM_COMMITMENT_MISMATCH"
                [("authority", PyStr authority);
                 ("their_v3ident", PyStr (identity commitment));
                 ("our_value", PyStr (commit commitment));
                 ("their_value", PyStr their_value);
                 ("to", PyList [authority])]])
            else mret issues
        end))) = Ok issues'.
Proof.
  intros Hall. revert issues.
  induction Hall as [|[authority vote] rest (c & others & Hown) _ IH]; intros issues;
    cbn [for_each]; [by eexists|].
  rewrite outcome_bind. unfold commitments_of at 1. rewrite !outcome_bind.
  unfold own_commitments in Hown. cbn [fst snd] in Hown.
  destruct (dict_get authority _); [|done].
  destruct (directory_authorities vote) as [|issuer more]; [done|].
  cbn [outcome mret M_ret first_item].
  destruct (commit_echo_total self_commitments authority
              (shared_randomness_commitments issuer) issues) as [issues' ->].
  apply IH.
Qed.

(** X18. Outside its window (before 8 h and from 12 h UTC on)
    [shared_random_commit_partitioning] returns None at once. Inside it,
    the rule returns exactly when every vote comes from an authority of
    the registry and carries a commitment with the identity of that
    authority; on the first vote that does not, it raises KeyError for
    an authority that the registry lacks and IndexError otherwise. *)
Theorem shared_random_commit_partitioning_returns env latest consensuses
    (votes : list (string * Document)) :
  let utc_hour := hour (datetime_utcnow env) in
  (utc_hour < 8 ∨ 12 ≤ utc_hour →
     shared_random_commit_partitioning env latest consensuses votes = mret ReturnsNone)
  ∧ (8 ≤ utc_hour < 12 →
     ((∃ result,
         outcome (shared_random_commit_partitioning env latest consensuses votes)
         = Ok result)
      ↔ Forall (fun entry => ∃ own rest, own_commitments env entry = Some (own :: rest))
               votes)
     ∧ ∀ before entry after,
         votes = before ++ entry :: after →
         Forall (fun entry => ∃ own rest, own_commitments env entry = Some (own :: rest))
                before →
         (own_commitments env entry = None ∨ own_commitments env entry = Some []) →
         outcome (shared_random_commit_partitioning env latest consensuses votes)
         = Raise (unreadable_vote env entry)).
Proof.
  intros utc_hour. unfold shared_random_commit_partitioning. fold utc_hour.
  split; [intros Hout; by rewrite decide_True by done|].
  intros Hin. rewrite decide_False by lia.
  unfold shared_random_commit_issues. cbv zeta.
  set (own := fun (self_commitments : list (option string * string))
                  (entry : string * Document) => _).
  assert (Hgood : ∀ acc entry,
            (∃ c rest, own_commitments env entry = Some (c :: rest)) →
            ∃ acc', outcome (own acc entry) = Ok acc').
  { intros acc [authority vote] (c & rest & Hown). unfold own, own_commitments in *.
    cbn [fst snd] in Hown. unfold v3ident_of, dict_getitem, commitments_of.
    rewrite !outcome_bind.
    destruct (dict_get authority _) as [registered|]; [|done].
    destruct (directory_authorities vote) as [|issuer others]; [done|].
    cbn [outcome mret M_ret first_item]. rewrite !outcome_bind.
    cbn [outcome mret M_ret first_item]. rewrite !outcome_bind.
    injection Hown as ->. cbn [map first_item outcome mret M_ret]. by eexists. }
  assert (Hbad : ∀ acc entry,
            (own_commitments env entry = None ∨ own_commitments env entry = Some []) →
            outcome (own acc entry) = Raise (unreadable_vote env entry)).
  { intros acc [authority vote] Hown. unfold own, own_commitments, unreadable_vote in *.
    cbn [fst snd] in *. unfold v3ident_of, dict_getitem, commitments_of.
    rewrite !outcome_bind.
    destruct (dict_get authority _) as [registered|]; [|done].
    cbn [outcome mret M_ret first_item]. rewrite !outcome_bind.
    destruct (directory_authorities vote) as [|issuer others]; [done|].
    cbn [outcome mret M_ret first_item]. rewrite !outcome_bind.
    destruct Hown as [?|Hown]; [done|]. injection Hown as ->. done. }
  assert (Hdec : ∀ entry,
            (∃ c rest, own_commitments env entry = Some (c :: rest))
            ∨ (own_commitments env entry = None ∨ own_commitments env entry = Some [])).
  { intros entry. destruct (own_commitments env entry) as [[|c rest]|]; eauto. }
  split.
  - rewrite <- (for_each_returns
      (fun entry => ∃ c rest, own_commitments env entry = Some (c :: rest)) own votes)
      with (acc := []).
    + rewrite !outcome_bind. split.
      * intros [result Hresult].
        destruct (outcome (for_each votes [] own)); [by eexists|done].
      * intros [self_commitments Hself]. rewrite Hself.
        assert (Hall : Forall (fun entry => ∃ c rest,
                  own_commitments env entry = Some (c :: rest)) votes).
        { apply (for_each_returns
            (fun entry => ∃ c rest, own_commitments env entry = Some (c :: rest))
            own votes) with (acc := []); [| | |by eexists].
          - intros acc entry _. apply Hgood.
          - intros acc entry _ Hnot. eexists. apply Hbad.
            destruct (Hdec entry); [done|done].
          - intros entry _. destruct (Hdec entry) as [?|Hnot]; [by left|right].
            intros (c & rest & Hown). destruct Hnot; congruence. }
        destruct (commit_echo_votes_total env self_commitments votes [] Hall)
          as [issues' Hissues].
        rewrite Hissues. by eexists.
    + intros acc entry _. apply Hgood.
    + intros acc entry _ Hnot. eexists. apply Hbad.
      destruct (Hdec entry); [done|done].
    + intros entry _. destruct (Hdec entry) as [?|Hnot]; [by left|right].
      intros (c & rest & Hown). destruct Hnot; congruence.
  - intros before entry after -> Hbefore Hentry.
    rewrite !outcome_bind.
    rewrite (for_each_first_failure own before after entry []
               (unreadable_vote env entry)); [done| |].
    + intros acc y Hy. apply Hgood. by apply (proj1 (Forall_forall _ _) Hbefore).
    + intros acc. by apply Hbad.
Qed.

Lemma reveal_echo_total (self_reveals : list (option string * option string))
    (authority : string) (commitments : list SharedRandomnessCommitment)
    (issues : list Issue) :
  ∃ issues',
    outcome (for_each self_reveals issues (fun issues known =>
      let '(v3ident, their_reveal) := known in
      let matches :=
        map reveal (filter (fun c => Some (identity c) = v3ident) commitments) in
      if decide (length matches = 0%nat) then
        mret (issues ++ [new_Issue WARNING "SHARED_RANDOM_REVEAL_MISSING"
          [("authority", PyStr authority); ("their_v3ident", py_opt v3ident);
           ("their_value", py_opt their_reveal); ("to", PyList [authority])]])
      else if decide (0 < length matches)%nat then
        mret (issues ++ [new_Issue WARNING "SHARED_RANDOM_REVEAL_DUPLICATED"
          [("authority", PyStr authority); ("their_v3ident", py_opt v3ident);
           ("to", PyList [authority])]])
      else
        first ← first_item matches;
        if decide (first ≠ their_reveal) then
          mret (issues ++ [new_Issue WARNING "SHARED_RANDOM_REVEAL_MISMATCH"
            [("authority", PyStr authority); ("their_v3ident", py_opt v3ident);
             ("our_value", py_opt first); ("their_value", py_opt their_reveal);
             ("to", PyList [authority])]])
        else mret issues)) = Ok issues'.
Proof.
  revert issues. induction self_reveals as [|[v3ident their_reveal] self_reveals IH];
    intros issues; cbn [for_each]; [by eexists|].
  rewrite outcome_bind. cbv zeta.
  destruct (decide (length _ = 0%nat)) as [|Hne]; [apply IH|].
  destruct (decide (0 < length _)%nat) as [|Hnot]; [apply IH|]. lia.
Qed.

Lemma reveal_echo_votes_total env (self_reveals : list (option string * option string))
    (votes : list (string * Document)) (issues : list Issue) :
  Forall (fun entry => is_Some (own_commitments env entry)) votes →
  ∃ issues',
    outcome (for_each votes issues (fun issues entry =>
      let '(authority, vote) := entry in
      commitments ← commitments_of vote;
      for_each self_reveals issues (fun issues known =>
        let '(v3ident, their_reveal) := known in
        let matches :=
          map reveal (filter (fun c => Some (identity c) = v3ident) commitments) in
        if decide (length matches = 0%nat) then
          mret (issues ++ [new_Issue WARNING "SHARED_RANDOM_REVEAL_MISSING"
            [("authority", PyStr authority); ("their_v3ident", py_opt v3ident);
             ("their_value", py_opt their_reveal); ("to", PyList [authority])]])
        else if decide (0 < length matches)%nat then
          mret (issues ++ [new_Issue WARNING "SHARED_RANDOM_REVEAL_DUPLICATED"
            [("authority", PyStr authority); ("their_v3ident", py_opt v3ident);
             ("to", PyList [authority])]])
        else
          first ← first_item matches;
          if decide (first ≠ their_reveal) then
            mret (issues ++ [new_Issue WARNING "SHARED_RANDOM_REVEAL_MISMATCH"
              [("authority", PyStr authority); ("their_v3ident", py_opt v3ident);
               ("our_value", py_opt first); ("their_value", py_opt their_reveal);
               ("to", PyList [authority])]])
          else mret issues))) = Ok issues'.
Proof.
  intros Hall. revert issues.
  induction Hall as [|[authority vote] rest [own Hown] _ IH]; intros issues;
    cbn [for_each]; [by eexists|].
  rewrite outcome_bind. unfold commitments_of at 1. rewrite !outcome_bind.
  unfold own_commitments in Hown. cbn [fst snd] in Hown.
  destruct (dict_get authority _); [|done].
  destruct (directory_authorities vote) as [|issuer more]; [done|].
  cbn [outcome mret M_ret first_item].
  destruct (reveal_echo_total self_reveals authority
              (shared_randomness_commitments issuer) issues) as [issues' Hissues].
  cbv zeta in Hissues |- *. rewrite Hissues. apply IH.
Qed.

(** X19. Before 20 h UTC [shared_random_reveal_partitioning] returns
    None at once. From 20 h on, the rule returns exactly when every vote
    comes from an authority of the registry and has an authority entry:
    a vote without a reveal of its own is an issue of the rule, not an
    error. On the first vote that it cannot read the rule raises KeyError
    for an authority that the registry lacks and IndexError otherwise. *)
Theorem shared_random_reveal_partitioning_returns env latest consensuses
    (votes : list (string * Document)) :
  let utc_hour := hour (datetime_utcnow env) in
  (utc_hour < 20 →
     shared_random_reveal_partitioning env latest consensuses votes = mret ReturnsNone)
  ∧ (20 ≤ utc_hour →
     ((∃ result,
         outcome (shared_random_reveal_partitioning env latest consensuses votes)
         = Ok result)
      ↔ Forall (fun entry => is_Some (own_commitments env entry)) votes)
     ∧ ∀ before entry after,
         votes = before ++ entry :: after →
         Forall (fun entry => is_Some (own_commitments env entry)) before →
         own_commitments env entry = None →
         outcome (shared_random_reveal_partitioning env latest consensuses votes)
         = Raise (unreadable_vote env entry)).
Proof.
  intros utc_hour. unfold shared_random_reveal_partitioning. fold utc_hour.
  split; [intros Hout; by rewrite decide_True by done|].
  intros Hin. rewrite decide_False by lia.
  unfold shared_random_reveal_issues.
  set (own := fun (state : list Issue * list (option string * option string))
                  (entry : string * Document) => _).
  assert (Hgood : ∀ acc entry,
            is_Some (own_commitments env entry) →
            ∃ acc', outcome (own acc entry) = Ok acc').
  { intros [issues self_reveals] [authority vote] [commitments Hown].
    unfold own, own_commitments in *.
    cbn [fst snd] in Hown. unfold v3ident_of, dict_getitem, commitments_of.
    rewrite !outcome_bind.
    destruct (dict_get authority _) as [registered|]; [|done].
    destruct (directory_authorities vote) as [|issuer others]; [done|].
    cbn [outcome mret M_ret first_item]. rewrite !outcome_bind.
    cbn [outcome mret M_ret first_item].
    destruct (decide (map reveal _ = [])) as [|Hne]; [by eexists|].
    destruct (decide (1 < length _)%nat); [by eexists|].
    rewrite outcome_bind.
    destruct (map reveal _) as [|our_reveal more]; [done|]. by eexists. }
  assert (Hbad : ∀ acc entry,
            own_commitments env entry = None →
            outcome (own acc entry) = Raise (unreadable_vote env entry)).
  { intros [issues self_reveals] [authority vote] Hown.
    unfold own, own_commitments, unreadable_vote in *.
    cbn [fst snd] in *. unfold v3ident_of, dict_getitem, commitments_of.
    rewrite !outcome_bind.
    destruct (dict_get authority _) as [registered|]; [|done].
    cbn [outcome mret M_ret first_item]. rewrite !outcome_bind.
    destruct (directory_authorities vote) as [|issuer others]; [done|]. done. }
  assert (Hreturns : ∀ acc,
            (∃ acc', outcome (for_each votes acc own) = Ok acc')
            ↔ Forall (fun entry => is_Some (own_commitments env entry)) votes).
  { apply for_each_returns.
    - intros acc entry _. apply Hgood.
    - intros acc entry _ Hnot. eexists. apply Hbad.
      destruct (own_commitments env entry); [|done]. destruct Hnot. by eexists.
    - intros entry _. destruct (own_commitments env entry);
        [left; by eexists|right; by intros [? ?]]. }
  split.
  - rewrite <- (Hreturns ([], [])). rewrite !outcome_bind. split.
    + intros [result Hresult].
      destruct (outcome (for_each votes _ own)); [by eexists|done].
    + intros [[issues self_reveals] Hstate]. rewrite Hstate.
      assert (Hall : Forall (fun entry => is_Some (own_commitments env entry)) votes)
        by (apply (Hreturns ([], [])); by eexists).
      destruct (reveal_echo_votes_total env self_reveals votes issues Hall)
        as [issues' Hissues].
      cbv beta iota zeta in Hissues |- *. rewrite Hissues. by eexists.
  - intros before entry after -> Hbefore Hentry.
    rewrite !outcome_bind.
    rewrite (for_each_first_failure own before after entry ([], [])
               (unreadable_vote env entry)); [done| |].
    + intros acc y Hy. apply Hgood. by apply (proj1 (Forall_forall _ _) Hbefore).
    + intros acc. by apply Hbad.
Qed.

(** ** Fetching the documents *)

Lemma get_documents_fold (query : Authority.t → query_reply) (label : string)
    (values : list Authority.t) (state : list (string * Document) * list Issue) :
  NoDup state.1.*1 →
  let fetched :=
    foldl (fun state authority =>
             let '(documents, issues) := state in
             match Authority.v3ident authority with
             | None => (documents, issues)
             | Some _ =>
                 match query authority with
                 | Fetched document =>
                     (dict_set (Authority.nickname authority) document documents, issues)
                 | BadDateHeader document download_url error =>
                     (dict_set (Authority.nickname authority) document documents,
                      issues ++ [authority_unavailable label authority download_url error])
                 | QueryFailed download_url error =>
                     (documents,
                      issues ++ [authority_unavailable label authority download_url error])
                 end
             end)
          state values in
  fetched.2 = state.2 ++ omap (fetch_failure label query) values
  ∧ NoDup fetched.1.*1
  ∧ (∀ nickname, nickname ∈ fetched.1.*1 ↔
       nickname ∈ state.1.*1
       ∨ ∃ authority, authority ∈ values ∧ Authority.v3ident authority ≠ None
                      ∧ Authority.nickname authority = nickname
                      ∧ is_Some (fetched_document (query authority)))
  ∧ (∀ nickname document, dict_get nickname fetched.1 = Some document →
       dict_get nickname state.1 = Some document
       ∨ ∃ authority, authority ∈ values ∧ Authority.v3ident authority ≠ None
                      ∧ Authority.nickname authority = nickname
                      ∧ fetched_document (query authority) = Some document).
Proof.
  revert state. induction values as [|authority values IH];
    intros [documents issues] Hnodup; cbn [foldl fst snd] in *.
  - split; [by rewrite app_nil_r|]. split; [done|]. split; [|by left].
    intros nickname. split; [by left|].
    intros [?|(a & Hin & _)]; [done|by apply elem_of_nil in Hin].
  - set (next := match Authority.v3ident authority with None => _ | Some _ => _ end).
    assert (Hnext : next.2 = issues ++ from_option (fun i => [i]) []
                                         (fetch_failure label query authority)
                    ∧ next.1 = match Authority.v3ident authority,
                                     fetched_document (query authority) with
                               | Some _, Some document =>
                                   dict_set (Authority.nickname authority) document documents
                               | _, _ => documents
                               end).
    { unfold next, fetch_failure.
      destruct (Authority.v3ident authority); [|by rewrite app_nil_r].
      destruct (query authority); simpl; by rewrite ?app_nil_r. }
    destruct Hnext as [Hissues Hdocuments].
    destruct (IH next) as (Hfetched & Hnd & Hkeys & Hvalues).
    { rewrite Hdocuments.
      destruct (Authority.v3ident authority); [|done].
      destruct (fetched_document (query authority)); [by apply dict_set_NoDup|done]. }
    split; [|split; [exact Hnd|split]].
    + rewrite Hfetched, Hissues. cbn [omap list_omap].
      destruct (fetch_failure label query authority); simpl;
        by rewrite <- ?app_assoc, ?app_nil_r.
    + intros nickname. rewrite Hkeys, Hdocuments. split.
      * intros [Hin|(a & Hin & Hrest)]; [|right; exists a; split; [by right|done]].
        destruct (Authority.v3ident authority) eqn:Hv3; [|by left].
        destruct (fetched_document (query authority)) eqn:Hdoc; [|by left].
        apply dict_set_keys in Hin as [->|?]; [|by left].
        right. exists authority. split; [by left|].
        rewrite Hv3, Hdoc. split; [done|]. split; [done|by eexists].
      * intros [Hin|(a & [->|Hin]%elem_of_cons & Hvoting & Hname & Hdoc)].
        -- left. destruct (Authority.v3ident authority); [|done].
           destruct (fetched_document (query authority)); [|done].
           apply dict_set_keys. by right.
        -- left. destruct (Authority.v3ident authority); [|done].
           destruct Hdoc as [document ->]. apply dict_set_keys. by left.
        -- right. by exists a.
    + intros nickname document Hget.
      apply Hvalues in Hget as [Hget|(a & Hin & Hrest)];
        [|right; exists a; split; [by right|done]].
      rewrite Hdocuments in Hget.
      destruct (Authority.v3ident authority) eqn:Hv3; [|by left].
      destruct (fetched_document (query authority)) as [stored|] eqn:Hdoc; [|by left].
      destruct (decide (Authority.nickname authority = nickname)) as [<-|Hne].
      * rewrite dict_get_set_eq in Hget. injection Hget as ->.
        right. exists authority. split; [by left|]. by rewrite Hv3.
      * rewrite dict_get_set_ne in Hget by done. by left.
Qed.

(** X20. What [_get_documents] returns. Its issues are one
    AUTHORITY_UNAVAILABLE per voting authority whose fetch failed, in the
    order of the registry. Its documents are keyed, each key once, by the
    nicknames of the voting authorities whose query yielded a document,
    and every document stored under a nickname was fetched from an
    authority of that nickname. A reply whose date header does not parse
    gives both: its document is kept and the failure is reported. A
    registry entry without a v3ident is never queried. *)
Theorem get_documents_fetches (registry : list (string * Authority.t))
    (query : Authority.t → query_reply) (label : string) :
  let fetched := _get_documents registry query label in
  fetched.2 = omap (fetch_failure label query) registry.*2
  ∧ NoDup fetched.1.*1
  ∧ (∀ nickname, nickname ∈ fetched.1.*1 ↔
       ∃ authority, authority ∈ registry.*2 ∧ Authority.v3ident authority ≠ None
                    ∧ Authority.nickname authority = nickname
                    ∧ is_Some (fetched_document (query authority)))
  ∧ (∀ nickname document, dict_get nickname fetched.1 = Some document →
       ∃ authority, authority ∈ registry.*2 ∧ Authority.v3ident authority ≠ None
                    ∧ Authority.nickname authority = nickname
                    ∧ fetched_document (query authority) = Some document).
Proof.
  intros fetched.
  destruct (get_documents_fold query label (map snd registry) ([], []))
    as (Hissues & Hnd & Hkeys & Hvalues); [constructor|].
  cbv zeta in Hissues, Hnd, Hkeys, Hvalues.
  fold (_get_documents registry query label) in Hissues, Hnd, Hkeys, Hvalues.
  fold fetched in Hissues, Hnd, Hkeys, Hvalues. rewrite map_is_fmap in *.
  split; [exact Hissues|]. split; [exact Hnd|]. split.
  - intros nickname. rewrite Hkeys. split; [|by right].
    intros [H|?]; [by apply elem_of_nil in H|done].
  - intros nickname document Hget. by apply Hvalues in Hget as [?|?].
Qed.

(** ** Bad exits *)

Lemma bad_exit_votes_fold (votes : list (string * Document))
    (start : list (string * list string)) :
  foldl (fun bad_exits entry =>
           let '(authority, vote) := entry in
           let flagged :=
             map fingerprint
                 (filter (fun desc => BADEXIT ∈ flags desc) (routers vote)) in
           match flagged with
           | [] => bad_exits
           | _ => dict_set authority (remove_dups flagged) bad_exits
           end)
        start votes = []
  ↔ start = [] ∧ ∀ authority vote, (authority, vote) ∈ votes → ¬ votes_bad_exit vote.
Proof.
  revert start. induction votes as [|[authority vote] votes IH]; intros start;
    cbn [foldl].
  - split; [|by intros [-> _]]. intros ->. split; [done|].
    intros ? ? Hin. by apply elem_of_nil in Hin.
  - rewrite IH. cbv zeta.
    destruct (filter (fun desc => BADEXIT ∈ flags desc) (routers vote))
      as [|desc rest] eqn:Hfilter; cbn [map].
    + assert (Hvote : ¬ votes_bad_exit vote).
      { intros (fp & d & Hd & _ & Hflag).
        assert (Hin : d ∈ filter (fun desc => BADEXIT ∈ flags desc) (routers vote))
          by (by apply list_elem_of_filter).
        rewrite Hfilter in Hin. by apply elem_of_nil in Hin. }
      split.
      * intros [-> Hrest]. split; [done|].
        intros a v [Heq|Hin]%elem_of_cons; [congruence|by apply (Hrest a)].
      * intros [-> Hall]. split; [done|]. intros a v Hin. apply (Hall a). by right.
    + assert (Hvote : votes_bad_exit vote).
      { exists (fingerprint desc), desc.
        assert (Hin : desc ∈ filter (fun desc => BADEXIT ∈ flags desc) (routers vote))
          by (rewrite Hfilter; by left).
        apply list_elem_of_filter in Hin as [? ?]. done. }
      split.
      * intros [Hset _]. by destruct start as [|[k w] start]; simpl in Hset;
          [|case_decide].
      * intros [_ Hall]. destruct (Hall authority vote); [by left|done].
Qed.

(** X21. [bad_exits_in_sync] returns None, without reading the latest
    consensus or logging, exactly when no vote flags a relay as a bad
    exit. *)
Theorem bad_exits_in_sync_none env latest consensuses (votes : list (string * Document)) :
  ((∀ authority vote, (authority, vote) ∈ votes → ¬ votes_bad_exit vote)
   → bad_exits_in_sync env latest consensuses votes = mret ReturnsNone)
  ∧ (outcome (bad_exits_in_sync env latest consensuses votes) = Ok ReturnsNone
     → ∀ authority vote, (authority, vote) ∈ votes → ¬ votes_bad_exit vote).
Proof.
  assert (Hfold : bad_exit_votes votes = []
                  ↔ [] = @nil (string * list string)
                    ∧ ∀ authority vote, (authority, vote) ∈ votes → ¬ votes_bad_exit vote)
    by apply (bad_exit_votes_fold votes []).
  unfold bad_exits_in_sync. cbv zeta. split.
  - intros Hnone. by rewrite (proj2 Hfold (conj eq_refl Hnone)).
  - destruct (bad_exit_votes votes) as [|entry bad_exits] eqn:Hvotes.
    + intros _. by apply Hfold.
    + rewrite outcome_bind. by destruct (outcome (for_each _ _ _)).
Qed.
